(** * EIP-712 typed-data encoding, validator-prefixed text and clique
      header pre-images: a shallow embedding of [signer/core/signed_data.go]

    The Go code is translated function by function.  Go strings are byte
    sequences and are modelled by [string] (a list of 8-bit characters);
    [[]byte] values are [list byte]; [*big.Int] values are [Z]; Go maps with
    string keys are [gmap string _] where no value recursion goes through them
    and association lists (first binding wins) inside the message tree.
    Errors are values of type [error]; a fallible Go function returning
    [(T, error)] returns [result T]. *)

From Stdlib Require Import ZArith List String Ascii Lia SpecFloat Sorted.
From Stdlib.Strings Require Import Byte.
From Stdlib Require DecimalString DecimalPos.
From stdpp Require Import gmap strings list.

Local Open Scope string_scope.
Local Open Scope Z_scope.

(* ===================================================================== *)
(** ** Go standard library: [strings], [strconv], [fmt], [sort] *)
(* ===================================================================== *)

Module GoStrings.

(** [len(s)] *)
Definition len (s : string) : Z := Z.of_nat (String.length s).

(** [strings.HasPrefix(s, prefix)] *)
Fixpoint HasPrefix (s prefix : string) : bool :=
  match prefix, s with
  | EmptyString, _ => true
  | String p prefix', String c s' => Ascii.eqb p c && HasPrefix s' prefix'
  | String _ _, EmptyString => false
  end.

(** [strings.TrimPrefix(s, prefix)]: [s] without the leading [prefix], or
    [s] itself when it does not start with [prefix]. *)
Fixpoint drop_chars (n : nat) (s : string) : string :=
  match n, s with
  | O, _ => s
  | S n', String _ s' => drop_chars n' s'
  | S _, EmptyString => EmptyString
  end.

Definition TrimPrefix (s prefix : string) : string :=
  if HasPrefix s prefix then drop_chars (String.length prefix) s else s.

(** [strings.HasSuffix(s, suffix)] and [strings.TrimSuffix(s, suffix)],
    through the reversed strings. *)
Definition rev_string (s : string) : string :=
  string_of_list_ascii (rev (list_ascii_of_string s)).

Definition HasSuffix (s suffix : string) : bool :=
  HasPrefix (rev_string s) (rev_string suffix).

Definition TrimSuffix (s suffix : string) : string :=
  if HasSuffix s suffix
  then rev_string (drop_chars (String.length suffix) (rev_string s))
  else s.

(** [strings.Split(s, "[")[0]]: the part of [s] before the first
    occurrence of the one-character separator (all of [s] without one). *)
Fixpoint before_first (sep : ascii) (s : string) : string :=
  match s with
  | EmptyString => EmptyString
  | String c s' => if Ascii.eqb c sep then EmptyString else String c (before_first sep s')
  end.

(** [s[len(s)-1:]]: the last byte of a non-empty string ([None] stands for
    the run-time panic on the empty string). *)
Fixpoint last_char (s : string) : option ascii :=
  match s with
  | EmptyString => None
  | String c EmptyString => Some c
  | String _ s' => last_char s'
  end.

(** [bytes.Buffer.Truncate(buffer.Len() - 1)]: drop the last byte. *)
Fixpoint drop_last (s : string) : string :=
  match s with
  | EmptyString => EmptyString
  | String _ EmptyString => EmptyString
  | String c s' => String c (drop_last s')
  end.

Definition is_digit (c : ascii) : bool :=
  let n := N_of_ascii c in (48 <=? n)%N && (n <=? 57)%N.

Definition is_upper_ascii (c : ascii) : bool :=
  let n := N_of_ascii c in (65 <=? n)%N && (n <=? 90)%N.

Definition is_lower_ascii (c : ascii) : bool :=
  let n := N_of_ascii c in (97 <=? n)%N && (n <=? 122)%N.

(** The regexp class [\w]: [0-9A-Za-z_]. *)
Definition is_word (c : ascii) : bool :=
  is_digit c || is_upper_ascii c || is_lower_ascii c || Ascii.eqb c "_".

Fixpoint all_chars (p : ascii -> bool) (s : string) : bool :=
  match s with
  | EmptyString => true
  | String c s' => p c && all_chars p s'
  end.

(** Value of a run of decimal digits, most significant first. *)
Fixpoint digits_value (acc : Z) (s : string) : option Z :=
  match s with
  | EmptyString => Some acc
  | String c s' =>
      if is_digit c
      then digits_value (10 * acc + (Z.of_N (N_of_ascii c) - 48)) s'
      else None
  end.

(** Optional sign of a numeric literal: [(negative, rest)]. *)
Definition split_sign (s : string) : bool * string :=
  match s with
  | String "-" s' => (true, s')
  | String "+" s' => (false, s')
  | _ => (false, s)
  end.

(** [strconv.Atoi(s)] on a 64-bit platform: an optional sign and at least
    one decimal digit, the value within the range of [int]; [None] is a
    non-nil error. *)
Definition Atoi (s : string) : option Z :=
  let '(neg, body) := split_sign s in
  match body with
  | EmptyString => None
  | _ =>
      match digits_value 0 body with
      | Some n =>
          let v := if neg then - n else n in
          if (- 2 ^ 63 <=? v) && (v <? 2 ^ 63) then Some v else None
      | None => None
      end
  end.

(** [fmt.Sprintf("%d", n)] for a non-negative [n]. *)
Definition itoa (n : nat) : string :=
  DecimalString.NilZero.string_of_uint (Nat.to_uint n).

(** Go's [<] on strings: byte-wise lexicographic order. *)
Definition string_leb (a b : string) : bool :=
  match String.compare a b with
  | Gt => false
  | _ => true
  end.

Fixpoint insert_sorted (x : string) (l : list string) : list string :=
  match l with
  | [] => [x]
  | y :: l' => if string_leb x y then x :: l else y :: insert_sorted x l'
  end.

(** [sort.Strings]: the increasing rearrangement of the slice.  The order
    is total and antisymmetric on strings, so the result does not depend
    on the sorting algorithm. *)
Definition SortStrings (l : list string) : list string :=
  fold_right insert_sorted [] l.

End GoStrings.

(* ===================================================================== *)
(** ** Bytes and big integers ([math/big]) *)
(* ===================================================================== *)

Module BigInt.

Definition byte_Z (b : byte) : Z := Z.of_N (Byte.to_N b).

Definition Z_byte (z : Z) : byte :=
  match Byte.of_N (Z.to_N (z mod 256)) with
  | Some b => b
  | None => x00
  end.

(** [new(big.Int).SetBytes(buf)]: [buf] read as a big-endian unsigned
    integer. *)
Definition SetBytes (buf : list byte) : Z :=
  fold_left (fun acc b => 256 * acc + byte_Z b) buf 0.

(** [x.BitLen()]: the length of the absolute value of [x] in bits. *)
Definition BitLen (x : Z) : Z :=
  if Z.abs x =? 0 then 0 else Z.log2 (Z.abs x) + 1.

(** [x.Sign()] *)
Definition Sign (x : Z) : Z := Z.sgn x.

(** The [n] low-order bytes of a non-negative [x], big-endian. *)
Fixpoint be_bytes (n : nat) (x : Z) : list byte :=
  match n with
  | O => []
  | S n' => be_bytes n' (x / 256) ++ [Z_byte x]
  end.

(** [x.Bytes()]: the absolute value as a big-endian byte slice without
    leading zero bytes. *)
Definition Bytes (x : Z) : list byte :=
  be_bytes (Z.to_nat ((BitLen x + 7) / 8)) (Z.abs x).

End BigInt.

(* ===================================================================== *)
(** ** Collaborators of the package that live outside this file *)
(* ===================================================================== *)

(** Modelled from the spec: [crypto.Keccak256] is not part of the embedded
    source; the spec names it as the keccak-256 hasher producing a 32-byte
    digest.  The sponge below is Keccak-f[1600] with rate 136 bytes and the
    original Keccak padding (0x01 .. 0x80), as Ethereum uses it. *)
Module Keccak.

Definition mask64 : Z := Z.ones 64.

Definition rotl64 (x n : Z) : Z :=
  Z.land (Z.lor (Z.shiftl x n) (Z.shiftr x (64 - n))) mask64.

Definition not64 (x : Z) : Z := Z.lxor x mask64.

Definition round_constants : list Z :=
  [ 0x0000000000000001; 0x0000000000008082; 0x800000000000808A;
    0x8000000080008000; 0x000000000000808B; 0x0000000080000001;
    0x8000000080008081; 0x8000000000008009; 0x000000000000008A;
    0x0000000000000088; 0x0000000080008009; 0x000000008000000A;
    0x000000008000808B; 0x800000000000008B; 0x8000000000008089;
    0x8000000000008003; 0x8000000000008002; 0x8000000000000080;
    0x000000000000800A; 0x800000008000000A; 0x8000000080008081;
    0x8000000000008080; 0x0000000080000001; 0x8000000080008008 ].

(** Rotation offsets of the rho step; the lane (x, y) is at index x + 5y. *)
Definition rho_offsets : list Z :=
  [ 0; 1; 62; 28; 27;
    36; 44; 6; 55; 20;
    3; 10; 43; 25; 39;
    41; 45; 15; 21; 8;
    18; 2; 61; 56; 14 ].

Definition lane (st : list Z) (x y : nat) : Z :=
  nth (x mod 5 + 5 * (y mod 5))%nat st 0.

Definition column_parity (st : list Z) (x : nat) : Z :=
  Z.lxor (lane st x 0) (Z.lxor (lane st x 1)
    (Z.lxor (lane st x 2) (Z.lxor (lane st x 3) (lane st x 4)))).

Definition theta (st : list Z) : list Z :=
  let C := map (column_parity st) (seq 0 5) in
  let c x := nth (x mod 5)%nat C 0 in
  let D := map (fun x => Z.lxor (c (x + 4)%nat) (rotl64 (c (x + 1)%nat) 1)) (seq 0 5) in
  map (fun i => Z.lxor (nth i st 0) (nth (i mod 5)%nat D 0)) (seq 0 25).

(** rho and pi together: the lane written at (X, Y) is the rotated lane
    read at (x, X) with x = X + 3Y mod 5. *)
Definition rho_pi (st : list Z) : list Z :=
  map (fun j =>
         let X := (j mod 5)%nat in
         let Y := (j / 5)%nat in
         let x := ((X + 3 * Y) mod 5)%nat in
         rotl64 (lane st x X) (nth (x + 5 * X)%nat rho_offsets 0))
      (seq 0 25).

Definition chi (st : list Z) : list Z :=
  map (fun i =>
         let x := (i mod 5)%nat in
         let y := (i / 5)%nat in
         Z.lxor (lane st x y) (Z.land (not64 (lane st (x + 1) y)) (lane st (x + 2) y)))
      (seq 0 25).

Definition iota (rc : Z) (st : list Z) : list Z :=
  match st with
  | a :: st' => Z.lxor a rc :: st'
  | [] => []
  end.

Definition keccak_round (st : list Z) (rc : Z) : list Z :=
  iota rc (chi (rho_pi (theta st))).

Definition keccak_f (st : list Z) : list Z :=
  fold_left keccak_round round_constants st.

Definition rate : nat := 136.

(** Eight bytes as a little-endian lane. *)
Fixpoint le_lane (bs : list byte) : Z :=
  match bs with
  | [] => 0
  | b :: bs' => BigInt.byte_Z b + 256 * le_lane bs'
  end.

Fixpoint lanes_of (n : nat) (bs : list byte) : list Z :=
  match n with
  | O => []
  | S n' => le_lane (firstn 8 bs) :: lanes_of n' (skipn 8 bs)
  end.

Definition absorb_block (st : list Z) (blk : list byte) : list Z :=
  let ls := lanes_of 17 blk in
  keccak_f (map (fun i => Z.lxor (nth i st 0) (nth i ls 0)) (seq 0 25)).

Definition pad (tail : list byte) : list byte :=
  match (rate - List.length tail)%nat with
  | 1%nat => tail ++ [x81]
  | k => tail ++ [x01] ++ repeat x00 (k - 2) ++ [x80]
  end.

Fixpoint absorb (blocks : nat) (st : list Z) (msg : list byte) : list Z :=
  match blocks with
  | O => st
  | S blocks' =>
      if (List.length msg <? rate)%nat
      then absorb_block st (pad msg)
      else absorb blocks' (absorb_block st (firstn rate msg)) (skipn rate msg)
  end.

Definition state_byte (st : list Z) (i : nat) : byte :=
  BigInt.Z_byte (Z.shiftr (nth (i / 8)%nat st 0) (8 * Z.of_nat (i mod 8))).

Definition Keccak256 (msg : list byte) : list byte :=
  let st := absorb (S (List.length msg / rate)) (repeat 0 25) msg in
  map (state_byte st) (seq 0 32).

End Keccak.

(** Modelled from the spec: the helpers of [common/math] are not part of
    the embedded source.  The spec describes them as the decoding of a
    [0x]-prefixed hex or decimal text into a big integer, the 32-byte
    big-endian padding of a big integer, and the 32-byte two's-complement
    big-endian representation. *)
Module GethMath.

Definition hex_digit_value (c : ascii) : option Z :=
  let n := Z.of_N (N_of_ascii c) in
  if (48 <=? n) && (n <=? 57) then Some (n - 48)
  else if (97 <=? n) && (n <=? 102) then Some (n - 87)
  else if (65 <=? n) && (n <=? 70) then Some (n - 55)
  else None.

Fixpoint hex_value (acc : Z) (s : string) : option Z :=
  match s with
  | EmptyString => Some acc
  | String c s' =>
      match hex_digit_value c with
      | Some d => hex_value (16 * acc + d) s'
      | None => None
      end
  end.

(** [new(big.Int).SetString(s, base)] for base 10 and 16: an optional sign
    and at least one digit. *)
Definition SetString (s : string) (base16 : bool) : option Z :=
  let '(neg, body) := GoStrings.split_sign s in
  match body with
  | EmptyString => None
  | _ =>
      match (if base16 then hex_value 0 body else GoStrings.digits_value 0 body) with
      | Some n => Some (if neg then - n else n)
      | None => None
      end
  end.

(** [math.ParseBig256]: decimal or [0x]-prefixed hex text of at most 256
    bits; the empty text is zero. *)
Definition ParseBig256 (s : string) : option Z :=
  match s with
  | EmptyString => Some 0
  | _ =>
      let parsed :=
        if GoStrings.HasPrefix s "0x" || GoStrings.HasPrefix s "0X"
        then SetString (GoStrings.drop_chars 2 s) true
        else SetString s false in
      match parsed with
      | Some b => if BigInt.BitLen b >? 256 then None else Some b
      | None => None
      end
  end.

(** [math.PaddedBigBytes(x, n)]: the big-endian bytes of [x], padded with
    leading zero bytes to [n] bytes; a value that needs [n] bytes or more
    is returned unpadded. *)
Definition PaddedBigBytes (x : Z) (n : nat) : list byte :=
  if BigInt.BitLen x / 8 >=? Z.of_nat n
  then BigInt.Bytes x
  else BigInt.be_bytes n (Z.abs x).

(** [math.U256(x)]: [x] reduced to an unsigned 256-bit number (two's
    complement for negative [x]). *)
Definition U256 (x : Z) : Z := x mod 2 ^ 256.

(** [math.U256Bytes(x)] *)
Definition U256Bytes (x : Z) : list byte := PaddedBigBytes (U256 x) 32.

End GethMath.

(** Modelled from the spec: [common.IsHexAddress] and [common.HexToAddress]
    are not part of the embedded source; the spec asks for a well-formed
    20-byte hex address, with or without the [0x] prefix. *)
Module GethCommon.

Definition AddressLength : nat := 20.

Definition strip_0x (s : string) : string :=
  if GoStrings.HasPrefix s "0x" || GoStrings.HasPrefix s "0X"
  then GoStrings.drop_chars 2 s else s.

Definition is_hex_char (c : ascii) : bool :=
  match GethMath.hex_digit_value c with Some _ => true | None => false end.

Definition IsHexAddress (s : string) : bool :=
  let s := strip_0x s in
  (String.length s =? 2 * AddressLength)%nat && GoStrings.all_chars is_hex_char s.

(** Pairs of hex digits to bytes; a trailing odd digit or a non-hex
    character ends the decoding. *)
Fixpoint hex_decode (s : string) : list byte :=
  match s with
  | String a (String b s') =>
      match GethMath.hex_digit_value a, GethMath.hex_digit_value b with
      | Some h, Some l => BigInt.Z_byte (16 * h + l) :: hex_decode s'
      | _, _ => []
      end
  | _ => []
  end.

(** [common.HexToAddress(s).Bytes()]: the decoded bytes, cropped from the
    left or zero-padded on the left to 20 bytes. *)
Definition HexToAddress (s : string) : list byte :=
  let s := strip_0x s in
  let s := if Nat.odd (String.length s) then String "0" s else s in
  let b := hex_decode s in
  let b := skipn (List.length b - AddressLength) b in
  repeat x00 (AddressLength - List.length b) ++ b.

End GethCommon.

(** Modelled from the spec: [clique.CliqueRLP] and [clique.SealHash] are
    not part of the embedded source.  The spec describes them as the RLP
    encoding of the header with the 65-byte signature trailer of the extra
    data excluded, and the keccak-256 hash of that encoding. *)
Module Rlp.

(** Big-endian bytes of a length, without leading zeros. *)
Definition length_bytes (n : nat) : list byte := BigInt.Bytes (Z.of_nat n).

Definition header (short long : Z) (n : nat) : list byte :=
  if (n <=? 55)%nat
  then [BigInt.Z_byte (short + Z.of_nat n)]
  else BigInt.Z_byte (long + Z.of_nat (List.length (length_bytes n))) :: length_bytes n.

Definition encode_string (b : list byte) : list byte :=
  match b with
  | [c] => if BigInt.byte_Z c <? 128 then [c] else header 128 183 1 ++ b
  | _ => header 128 183 (List.length b) ++ b
  end.

Definition encode_list (items : list (list byte)) : list byte :=
  let payload := concat items in
  header 192 247 (List.length payload) ++ payload.

End Rlp.

(* ===================================================================== *)
(** ** Data model of [signed_data.go] *)
(* ===================================================================== *)

(** [type Type struct { Name string; Type string }]; the field [Type] is
    spelled [Typ] here. *)
Record Type_ : Type := mkType { Name : string; Typ : string }.

(** A dynamically typed message value ([interface{}]), by dynamic type. *)
#[warnings="-register-all"] Inductive Value : Type :=
| VNil                                   (* the nil interface, an absent key *)
| VString (s : string)                   (* string *)
| VBool (b : bool)                       (* bool *)
| VBytes (b : list byte)                 (* []byte *)
| VHexBytes (b : list byte)              (* hexutil.Bytes *)
| VHexOrDecimal256 (p : option Z)        (* *math.HexOrDecimal256, None is a nil pointer *)
| VFloat64 (f : spec_float)              (* float64 *)
| VArray (items : list Value)            (* []interface{} *)
| VMap (m : list (string * Value))       (* map[string]interface{} *)
| VOther (goType : string).              (* any other dynamic type *)

(** [type TypedDataMessage = map[string]interface{}], as an association
    list in which the first binding of a key is the map's entry. *)
Abbreviation TypedDataMessage := (list (string * Value)).

(** [data[name]]: the nil interface for an absent key. *)
Fixpoint data_get (data : TypedDataMessage) (name : string) : Value :=
  match data with
  | [] => VNil
  | (key, v) :: data' => if String.eqb key name then v else data_get data' name
  end.

(** [len(data)]: the number of distinct keys. *)
Definition data_len (data : TypedDataMessage) : nat :=
  List.length (remove_dups (map fst data)).

(** Errors.  [Errorf] carries a completely rendered message; the other
    constructors keep the arguments of messages that format an arbitrary
    value with [%v] or quote it with [%q]. *)
Inductive error : Type :=
| Errorf (msg : string)
| DataMismatch (encType : string) (encValue : Value)
| InvalidHexOrDecimal (text : string)
| InvalidFloatValue (f : spec_float) (encType : string)
| InvalidIntegerValue (encValue : Value) (encType : string)
| EmptyTypeField (typeKey : string) (i : nat)
| EmptyNameField (typeKey : string) (i : nat)
| SelfReference (typ : string)
| UndefinedReference (typ : string)
| UnknownReferenceType (typ : string)
| UnknownType (typ : string)
| UnknownNonAsciiType (typ : string).

Inductive result (A : Type) : Type :=
| Ok (a : A)
| Err (e : error).
Arguments Ok {A} a.
Arguments Err {A} e.

Definition is_ok {A} (r : result A) : bool :=
  match r with Ok _ => true | Err _ => false end.

(** [type Types map[string][]Type].  A value [None] is a nil slice stored
    under the key; [Some []] is an empty, non-nil slice. *)
Abbreviation Types := (gmap string (option (list Type_))).

(** [t[key]] read as a slice: nil for an absent key and for a stored nil. *)
Definition Types_get (t : Types) (key : string) : option (list Type_) :=
  match t !! key with
  | Some slice => slice
  | None => None
  end.

(** The elements a [range] over the slice visits; [len] is its length. *)
Definition elems {A} (slice : option (list A)) : list A :=
  match slice with
  | Some l => l
  | None => []
  end.

Module TypedDataDomain.

Record t : Type := mk {
  Name : string;
  Version : string;
  ChainId : option Z;               (* *math.HexOrDecimal256, nil when absent *)
  VerifyingContract : string;
  Salt : string
}.

(** [func (domain *TypedDataDomain) validate() error]; the check of
    [ChainId] is commented out in the source. *)
Definition validate (domain : t) : option error :=
  if (String.length (Name domain) =? 0)%nat
     && (String.length (Version domain) =? 0)%nat
     && (String.length (VerifyingContract domain) =? 0)%nat
     && (String.length (Salt domain) =? 0)%nat
  then Some (Errorf "domain is undefined")
  else None.

End TypedDataDomain.

Record TypedData : Type := mkTypedData {
  types : Types;
  PrimaryType : string;
  Domain : TypedDataDomain.t;
  Message : TypedDataMessage
}.

(** [type ValidatorData struct { Address common.Address; Message hexutil.Bytes }];
    [common.Address] is [[20]byte]. *)
Record ValidatorData : Type := mkValidatorData {
  Address : list byte;
  VMessage : list byte
}.

(** The part of [types.Header] the header helper depends on: the extra
    data, and the other header fields as the byte strings the RLP encoder
    sees before and after it. *)
Record Header : Type := mkHeader {
  FieldsBeforeExtra : list (list byte);
  Extra : list byte;
  FieldsAfterExtra : list (list byte)
}.

(* ===================================================================== *)
(** ** Type descriptors and the dictionary validator *)
(* ===================================================================== *)

(** [func (t *Type) isArray() bool] *)
Definition isArray (t : Type_) : bool := GoStrings.HasSuffix (Typ t) "[]".

(** [func (t *Type) typeName() string] *)
Definition typeName (t : Type_) : string :=
  if GoStrings.HasSuffix (Typ t) "[]"
  then GoStrings.TrimSuffix (Typ t) "[]"
  else Typ t.

(** The leading rune of a type spelling.  [unicode.IsUpper] is decided
    here for ASCII only. *)
Inductive leading_rune : Type := NoRune | AsciiUpper | AsciiOther | NonAscii.

Definition leading (s : string) : leading_rune :=
  match s with
  | EmptyString => NoRune
  | String c _ =>
      if GoStrings.is_upper_ascii c then AsciiUpper
      else if (N_of_ascii c <? 128)%N then AsciiOther
      else NonAscii
  end.

(** [func (t *Type) isReferenceType() bool], for spellings whose leading
    rune is ASCII (or that are empty). *)
Definition isReferenceType (t : Type_) : bool :=
  match leading (Typ t) with
  | AsciiUpper => true
  | _ => false
  end.

(** [typedDataReferenceTypeRegexp.MatchString]: the regexp asks for one
    letter of A-Z, then any number of word characters, then an optional
    pair of square brackets, and nothing else. *)
Definition reference_type_matches (s : string) : bool :=
  match s with
  | EmptyString => false
  | String c rest =>
      GoStrings.is_upper_ascii c
      && (GoStrings.all_chars GoStrings.is_word rest
          || (GoStrings.HasSuffix rest "[]"
              && GoStrings.all_chars GoStrings.is_word (GoStrings.TrimSuffix rest "[]")))
  end.

Definition scalar_registry : list string :=
  [ "address"; "bool"; "string";
    "bytes"; "bytes1"; "bytes2"; "bytes3"; "bytes4"; "bytes5"; "bytes6";
    "bytes7"; "bytes8"; "bytes9"; "bytes10"; "bytes11"; "bytes12";
    "bytes13"; "bytes14"; "bytes15"; "bytes16"; "bytes17"; "bytes18";
    "bytes19"; "bytes20"; "bytes21"; "bytes22"; "bytes23"; "bytes24";
    "bytes25"; "bytes26"; "bytes27"; "bytes28"; "bytes29"; "bytes30";
    "bytes31"; "bytes32";
    "int"; "int8"; "int16"; "int32"; "int64"; "int128"; "int256";
    "uint"; "uint8"; "uint16"; "uint32"; "uint64"; "uint128"; "uint256" ].

(** [func isPrimitiveTypeValid(primitiveType string) bool]: the spelling
    is one of the enumerated scalars or one of them followed by [[]]. *)
Definition isPrimitiveTypeValid (primitiveType : string) : bool :=
  existsb (fun p => String.eqb primitiveType p || String.eqb primitiveType (p ++ "[]"))
          scalar_registry.

Module TypesM.

(** The checks on one descriptor, in the order of the source. *)
Definition validate_field (t : Types) (typeKey : string) (i : nat) (typeObj : Type_)
  : option error :=
  if (String.length (Typ typeObj) =? 0)%nat then Some (EmptyTypeField typeKey i)
  else if (String.length (Name typeObj) =? 0)%nat then Some (EmptyNameField typeKey i)
  else if String.eqb typeKey (Typ typeObj) then Some (SelfReference (Typ typeObj))
  else
    match leading (Typ typeObj) with
    | AsciiUpper =>
        match t !! typeName typeObj with
        | None => Some (UndefinedReference (Typ typeObj))
        | Some _ =>
            if reference_type_matches (Typ typeObj) then None
            else Some (UnknownReferenceType (Typ typeObj))
        end
    | NonAscii =>
        (* Rejected on either path: as a reference type it is undefined or
           fails the regexp, otherwise it is not in the registry. *)
        Some (UnknownNonAsciiType (Typ typeObj))
    | _ =>
        if isPrimitiveTypeValid (Typ typeObj) then None
        else Some (UnknownType (Typ typeObj))
    end.

Fixpoint validate_fields (t : Types) (typeKey : string) (i : nat) (typeArr : list Type_)
  : option error :=
  match typeArr with
  | [] => None
  | typeObj :: rest =>
      match validate_field t typeKey i typeObj with
      | Some e => Some e
      | None => validate_fields t typeKey (S i) rest
      end
  end.

Definition validate_entry (t : Types) (entry : string * option (list Type_)) : option error :=
  let '(typeKey, typeArr) := entry in
  if (String.length typeKey =? 0)%nat then Some (Errorf "empty type key")
  else validate_fields t typeKey 0 (elems typeArr).

Fixpoint first_error {A} (check : A -> option error) (l : list A) : option error :=
  match l with
  | [] => None
  | x :: l' =>
      match check x with
      | Some e => Some e
      | None => first_error check l'
      end
  end.

(** [func (t Types) validate() error].  Go ranges over the map in an
    unspecified order; the model visits the entries in the order of
    [map_to_list].  Which error is reported depends on the order, whether
    one is reported does not. *)
Definition validate (t : Types) : option error :=
  first_error (validate_entry t) (map_to_list t).

End TypesM.

(** [func (typedData *TypedData) validate() error] *)
Definition TypedData_validate (typedData : TypedData) : option error :=
  match TypesM.validate (types typedData) with
  | Some e => Some e
  | None =>
      match TypedDataDomain.validate (Domain typedData) with
      | Some e => Some e
      | None => None
      end
  end.

(* ===================================================================== *)
(** ** Dependency resolver and type encoder *)
(* ===================================================================== *)

(** The closure [includes] of [Dependencies]. *)
Fixpoint includes (arr : list string) (str : string) : bool :=
  match arr with
  | [] => false
  | obj :: arr' => if String.eqb obj str then true else includes arr' str
  end.

(** The inner loop of [Dependencies]: append the entries of [deps] that
    [found] does not hold yet.  In Go the slice returned by the recursive
    call may share its backing array with [found]; the loop then stores
    into each cell the value the cell already holds, so the sharing is not
    observable and plain lists model it. *)
Fixpoint append_new (found deps : list string) : list string :=
  match deps with
  | [] => found
  | dep :: deps' =>
      if includes found dep then append_new found deps'
      else append_new (found ++ [dep]) deps'
  end.

(** The outer loop of [Dependencies] over the fields of the struct; [rec]
    is the recursive call.  The field type is passed on as it is spelled. *)
Fixpoint dependencies_of_fields (rec : string -> list string -> option (list string))
    (fields : list Type_) (found : list string) : option (list string) :=
  match fields with
  | [] => Some found
  | field :: fields' =>
      match rec (Typ field) found with
      | Some deps => dependencies_of_fields rec fields' (append_new found deps)
      | None => None
      end
  end.

(** [func (typedData *TypedData) Dependencies(primaryType string, found []string) []string]
    with a bound on the depth of the recursion; [None] when it is reached. *)
Fixpoint Dependencies_fuel (fuel : nat) (typedData : TypedData)
    (primaryType : string) (found : list string) : option (list string) :=
  match fuel with
  | O => None
  | S fuel' =>
      if includes found primaryType then Some found
      else
        match Types_get (types typedData) primaryType with
        | None => Some found
        | Some fields =>
            dependencies_of_fields (Dependencies_fuel fuel' typedData)
                                   fields (found ++ [primaryType])
        end
  end.

(** Every recursive call is made after a struct name outside [found] has
    been appended to it, so the depth is at most the number of keys. *)
Definition Dependencies (typedData : TypedData) (primaryType : string)
    (found : list string) : list string :=
  match Dependencies_fuel (S (size (types typedData))) typedData primaryType found with
  | Some deps => deps
  | None => found
  end.

(** The text written for one struct of the dependency list. *)
Definition write_fields (fields : list Type_) : string :=
  fold_left (fun buffer obj => buffer ++ Typ obj ++ " " ++ Name obj ++ ",") fields "".

Definition write_struct (typedData : TypedData) (buffer dep : string) : string :=
  let buffer := buffer ++ dep ++ "(" in
  let buffer := buffer ++ write_fields (elems (Types_get (types typedData) dep)) in
  let buffer := GoStrings.drop_last buffer in
  buffer ++ ")".

(** [func (typedData *TypedData) EncodeType(primaryType string) hexutil.Bytes],
    as the text of the buffer. *)
Definition EncodeType_text (typedData : TypedData) (primaryType : string) : string :=
  let deps := Dependencies typedData primaryType [] in
  let deps :=
    match deps with
    | [] => deps
    | _ :: slicedDeps => primaryType :: GoStrings.SortStrings slicedDeps
    end in
  fold_left (write_struct typedData) deps "".

Definition EncodeType (typedData : TypedData) (primaryType : string) : list byte :=
  list_byte_of_string (EncodeType_text typedData primaryType).

(** [func (typedData *TypedData) TypeHash(primaryType string) hexutil.Bytes] *)
Definition TypeHash (typedData : TypedData) (primaryType : string) : list byte :=
  Keccak.Keccak256 (EncodeType typedData primaryType).

(* ===================================================================== *)
(** ** Primitive encoder *)
(* ===================================================================== *)

Definition itoaZ (z : Z) : string :=
  DecimalString.NilZero.string_of_int (Z.to_int z).

(** The numeric value of a finite binary float, truncated towards zero. *)
Definition float64_trunc (f : spec_float) : option Z :=
  match f with
  | S754_zero _ => Some 0
  | S754_finite s m e =>
      let mag := if 0 <=? e then Z.pos m * 2 ^ e else Z.pos m / 2 ^ (- e) in
      Some (if s then - mag else mag)
  | _ => None
  end.

Definition float64_is_integral (f : spec_float) : bool :=
  match f with
  | S754_zero _ => true
  | S754_finite _ m e => (0 <=? e) || (Z.pos m mod 2 ^ (- e) =? 0)
  | _ => false
  end.

(** The test [float64(int64(v)) == v] together with [int64(v)]: the
    integer value of [v] when [v] is integral and within [int64].  Outside
    that range the conversion is implementation-defined; on amd64 it gives
    the smallest [int64], which compares unequal to [v]. *)
Definition float64_int64 (f : spec_float) : option Z :=
  match float64_trunc f with
  | Some n =>
      if float64_is_integral f && (- 2 ^ 63 <=? n) && (n <? 2 ^ 63) then Some n else None
  | None => None
  end.

(** The declared width of an integer type spelling. *)
Definition integer_length (encType : string) : result Z :=
  if String.eqb encType "int" || String.eqb encType "uint" then Ok 256
  else
    let lengthStr :=
      if GoStrings.HasPrefix encType "uint"
      then GoStrings.TrimPrefix encType "uint"
      else GoStrings.TrimPrefix encType "int" in
    match GoStrings.Atoi lengthStr with
    | Some atoiSize => Ok atoiSize
    | None => Err (Errorf ("invalid size on integer: " ++ lengthStr))
    end.

(** The type switch of [parseInteger]: the big integer [b], nil for a
    dynamic type that no case matches. *)
Definition integer_value (encType : string) (encValue : Value) : result (option Z) :=
  match encValue with
  | VHexOrDecimal256 v => Ok v
  | VString v =>
      match GethMath.ParseBig256 v with
      | Some hexIntValue => Ok (Some hexIntValue)
      | None => Err (InvalidHexOrDecimal v)
      end
  | VFloat64 v =>
      match float64_int64 v with
      | Some n => Ok (Some n)
      | None => Err (InvalidFloatValue v encType)
      end
  | _ => Ok None
  end.

(** [func parseInteger(encType string, encValue interface{})], returning a
    big integer or an error. *)
Definition parseInteger (encType : string) (encValue : Value) : result Z :=
  let signed := GoStrings.HasPrefix encType "int" in
  match integer_length encType with
  | Err e => Err e
  | Ok length =>
      match integer_value encType encValue with
      | Err e => Err e
      | Ok None => Err (InvalidIntegerValue encValue encType)
      | Ok (Some b) =>
          if BigInt.BitLen b >? length
          then Err (Errorf ("integer larger than '" ++ encType ++ "'"))
          else if negb signed && (BigInt.Sign b =? -1)
          then Err (Errorf ("invalid negative value for unsigned type " ++ encType))
          else Ok b
      end
  end.

(** The [bytesN] branch of [EncodePrimitiveValue]. *)
Definition encode_fixed_bytes (encType : string) (encValue : Value) : result (list byte) :=
  let lengthStr := GoStrings.TrimPrefix encType "bytes" in
  match GoStrings.Atoi lengthStr with
  | None => Err (Errorf ("invalid size on bytes: " ++ lengthStr))
  | Some length =>
      if (length <? 0) || (length >? 32)
      then Err (Errorf ("invalid size on bytes: " ++ itoaZ length))
      else
        match encValue with
        | VHexBytes byteValue =>
            Ok (GethMath.PaddedBigBytes (BigInt.SetBytes byteValue) 32)
        | _ => Err (DataMismatch encType encValue)
        end
  end.

(** [func (typedData *TypedData) EncodePrimitiveValue(encType string, encValue interface{}, depth int) ([]byte, error)];
    the receiver is not used by the method. *)
Definition EncodePrimitiveValue (encType : string) (encValue : Value) (depth : Z)
  : result (list byte) :=
  if String.eqb encType "address" then
    match encValue with
    | VString stringValue =>
        if GethCommon.IsHexAddress stringValue
        then Ok (repeat x00 12 ++ GethCommon.HexToAddress stringValue)%list
        else Err (DataMismatch encType encValue)
    | _ => Err (DataMismatch encType encValue)
    end
  else if String.eqb encType "bool" then
    match encValue with
    | VBool boolValue =>
        if boolValue then Ok (GethMath.PaddedBigBytes 1 32)
        else Ok (GethMath.PaddedBigBytes 0 32)
    | _ => Err (DataMismatch encType encValue)
    end
  else if String.eqb encType "string" then
    match encValue with
    | VString strVal => Ok (Keccak.Keccak256 (list_byte_of_string strVal))
    | _ => Err (DataMismatch encType encValue)
    end
  else if String.eqb encType "bytes" then
    match encValue with
    | VBytes bytesValue => Ok (Keccak.Keccak256 bytesValue)
    | _ => Err (DataMismatch encType encValue)
    end
  else if GoStrings.HasPrefix encType "bytes" then
    encode_fixed_bytes encType encValue
  else if GoStrings.HasPrefix encType "int" || GoStrings.HasPrefix encType "uint" then
    match parseInteger encType encValue with
    | Err e => Err e
    | Ok b => Ok (GethMath.U256Bytes b)
    end
  else Err (Errorf ("unrecognized type '" ++ encType ++ "'")).

(* ===================================================================== *)
(** ** Value encoder *)
(* ===================================================================== *)

(** Nesting depth of maps and arrays in a message value. *)
Fixpoint height (v : Value) : nat :=
  match v with
  | VArray items => S (fold_right (fun item h => Nat.max (height item) h) O items)
  | VMap m => S (fold_right (fun entry h => Nat.max (height (snd entry)) h) O m)
  | _ => O
  end.

(** The loop over the elements of an array field; [rec] is the recursive
    call of [EncodeData] and [None] its running out of fuel. *)
Fixpoint encode_items
    (rec : string -> TypedDataMessage -> Z -> option (result (list byte)))
    (typedData : TypedData) (parsedType : string) (depth : Z)
    (arrayValue : list Value) (arrayBuffer : list byte) : option (result (list byte)) :=
  match arrayValue with
  | [] => Some (Ok arrayBuffer)
  | item :: arrayValue' =>
      match Types_get (types typedData) parsedType with
      | Some _ =>
          match item with
          | VMap mapValue =>
              match rec parsedType mapValue (depth + 1) with
              | None => None
              | Some (Err e) => Some (Err e)
              | Some (Ok encodedData) =>
                  encode_items rec typedData parsedType depth arrayValue'
                               (arrayBuffer ++ encodedData)
              end
          | _ => Some (Err (DataMismatch parsedType item))
          end
      | None =>
          match EncodePrimitiveValue parsedType item depth with
          | Err e => Some (Err e)
          | Ok bytesValue =>
              encode_items rec typedData parsedType depth arrayValue'
                           (arrayBuffer ++ bytesValue)
          end
      end
  end.

(** The word written for one field, or the error that ends the encoding. *)
Definition encode_field
    (rec : string -> TypedDataMessage -> Z -> option (result (list byte)))
    (typedData : TypedData) (data : TypedDataMessage) (depth : Z) (field : Type_)
  : option (result (list byte)) :=
  let encType := Typ field in
  let encValue := data_get data (Name field) in
  if GoStrings.HasSuffix encType "]" then
    match encValue with
    | VArray arrayValue =>
        let parsedType := GoStrings.before_first "[" encType in
        match encode_items rec typedData parsedType depth arrayValue [] with
        | None => None
        | Some (Err e) => Some (Err e)
        | Some (Ok arrayBuffer) => Some (Ok (Keccak.Keccak256 arrayBuffer))
        end
    | _ => Some (Err (DataMismatch encType encValue))
    end
  else
    match Types_get (types typedData) (Typ field) with
    | Some _ =>
        match encValue with
        | VMap mapValue =>
            match rec (Typ field) mapValue (depth + 1) with
            | None => None
            | Some (Err e) => Some (Err e)
            | Some (Ok encodedData) => Some (Ok (Keccak.Keccak256 encodedData))
            end
        | _ => Some (Err (DataMismatch encType encValue))
        end
    | None =>
        match EncodePrimitiveValue encType encValue depth with
        | Err e => Some (Err e)
        | Ok byteValue => Some (Ok byteValue)
        end
    end.

(** The loop over the declared fields. *)
Fixpoint encode_fields
    (rec : string -> TypedDataMessage -> Z -> option (result (list byte)))
    (typedData : TypedData) (data : TypedDataMessage) (depth : Z)
    (fields : list Type_) (buffer : list byte) : option (result (list byte)) :=
  match fields with
  | [] => Some (Ok buffer)
  | field :: fields' =>
      match encode_field rec typedData data depth field with
      | None => None
      | Some (Err e) => Some (Err e)
      | Some (Ok word) =>
          encode_fields rec typedData data depth fields' (buffer ++ word)
      end
  end.

(** The body of [EncodeData] with its recursive call abstracted.  The
    index expression [encType[len(encType)-1:]] needs a non-empty type
    spelling, which the validation at the entry guarantees. *)
Definition EncodeData_body
    (rec : string -> TypedDataMessage -> Z -> option (result (list byte)))
    (typedData : TypedData) (primaryType : string) (data : TypedDataMessage) (depth : Z)
  : option (result (list byte)) :=
  match TypedData_validate typedData with
  | Some err => Some (Err err)
  | None =>
      let fields := elems (Types_get (types typedData) primaryType) in
      if (List.length fields <? data_len data)%nat
      then Some (Err (Errorf "there is extra data provided in the message"))
      else
        encode_fields rec typedData data depth fields (TypeHash typedData primaryType)
  end.

(** [func (typedData *TypedData) EncodeData(primaryType string, data map[string]interface{}, depth int) (hexutil.Bytes, error)]
    with a bound on the depth of the recursion. *)
Fixpoint EncodeData_fuel (fuel : nat) (typedData : TypedData)
    (primaryType : string) (data : TypedDataMessage) (depth : Z)
  : option (result (list byte)) :=
  match fuel with
  | O => None
  | S fuel' =>
      EncodeData_body (EncodeData_fuel fuel' typedData) typedData primaryType data depth
  end.

(** The recursion follows the nesting of the message, so the height of the
    message bounds its depth. *)
Definition EncodeData (typedData : TypedData) (primaryType : string)
    (data : TypedDataMessage) (depth : Z) : result (list byte) :=
  match EncodeData_fuel (height (VMap data)) typedData primaryType data depth with
  | Some r => r
  | None => Err (Errorf "unreachable")
  end.

(** [func (typedData *TypedData) HashStruct(primaryType string, data TypedDataMessage) (hexutil.Bytes, error)] *)
Definition HashStruct (typedData : TypedData) (primaryType : string)
    (data : TypedDataMessage) : result (list byte) :=
  match EncodeData typedData primaryType data 1 with
  | Err err => Err err
  | Ok encodedData => Ok (Keccak.Keccak256 encodedData)
  end.

(* ===================================================================== *)
(** ** Validator-prefixed text and the clique header *)
(* ===================================================================== *)

(** [func SignTextValidator(validatorData ValidatorData) (hexutil.Bytes, string)]:
    [Sprintf] with two [%s] verbs copies the bytes of its arguments. *)
Definition SignTextValidator (validatorData : ValidatorData) : list byte * string :=
  let msg :=
    String "025" (String "000"
      (string_of_list_byte (Address validatorData) ++
       string_of_list_byte (VMessage validatorData))) in
  (Keccak.Keccak256 (list_byte_of_string msg), msg).

Definition CliqueRLP (header : Header) : list byte :=
  Rlp.encode_list
    (map Rlp.encode_string
         (FieldsBeforeExtra header
          ++ [firstn (List.length (Extra header) - 65) (Extra header)]
          ++ FieldsAfterExtra header)%list).

Definition SealHash (header : Header) : list byte :=
  Keccak.Keccak256 (CliqueRLP header).

(** [func cliqueHeaderHashAndRlp(header *types.Header) (hash, rlp []byte, err error)];
    a nil slice and a nil error are [None]. *)
Definition cliqueHeaderHashAndRlp (header : Header)
  : option (list byte) * option (list byte) * option error :=
  if (List.length (Extra header) <? 65)%nat
  then (None, None,
        Some (Errorf ("clique header extradata too short, "
                      ++ GoStrings.itoa (List.length (Extra header)) ++ " < 65")))
  else (Some (SealHash header), Some (CliqueRLP header), None).

(* ===================================================================== *)
(** ** The domain as a message, and validator data *)
(* ===================================================================== *)

(** [func (domain *TypedDataDomain) Map() map[string]interface{}]: one
    entry per populated field; the keys are distinct. *)
Definition TypedDataDomain_Map (domain : TypedDataDomain.t) : TypedDataMessage :=
  (match TypedDataDomain.ChainId domain with
   | Some chainId => [("chainId", VHexOrDecimal256 (Some chainId))]
   | None => []
   end
   ++ (if (0 <? String.length (TypedDataDomain.Name domain))%nat
       then [("name", VString (TypedDataDomain.Name domain))] else [])
   ++ (if (0 <? String.length (TypedDataDomain.Version domain))%nat
       then [("version", VString (TypedDataDomain.Version domain))] else [])
   ++ (if (0 <? String.length (TypedDataDomain.VerifyingContract domain))%nat
       then [("verifyingContract", VString (TypedDataDomain.VerifyingContract domain))]
       else [])
   ++ (if (0 <? String.length (TypedDataDomain.Salt domain))%nat
       then [("salt", VString (TypedDataDomain.Salt domain))] else []))%list.

(** Modelled from the spec: [hexutil.Decode], [hexutil.Encode] and
    [common.BytesToAddress] are not part of the embedded source.  The spec
    asks for textual hex with the [0x] prefix that decodes to bytes; an
    address is 20 bytes. *)
Module Hexutil.

Definition has0xPrefix (input : string) : bool :=
  match input with
  | String "0" (String "x" _) => true
  | String "0" (String "X" _) => true
  | _ => false
  end.

(** The loop of [hex.DecodeString]: pairs of hex digits; a character that
    is no hex digit is a syntax error, and so is reported before a
    dangling last digit. *)
Fixpoint decode_pairs (s : string) : result (list byte) :=
  match s with
  | EmptyString => Ok []
  | String a EmptyString =>
      if GethCommon.is_hex_char a
      then Err (Errorf "hex string of odd length")
      else Err (Errorf "invalid hex string")
  | String a (String b rest) =>
      match GethMath.hex_digit_value a, GethMath.hex_digit_value b with
      | Some h, Some l =>
          match decode_pairs rest with
          | Ok bytes => Ok (BigInt.Z_byte (16 * h + l) :: bytes)
          | Err e => Err e
          end
      | _, _ => Err (Errorf "invalid hex string")
      end
  end.

Definition Decode (input : string) : result (list byte) :=
  match input with
  | EmptyString => Err (Errorf "empty hex string")
  | _ =>
      if has0xPrefix input
      then decode_pairs (GoStrings.drop_chars 2 input)
      else Err (Errorf "hex string without 0x prefix")
  end.

Definition hex_char (n : Z) : ascii :=
  ascii_of_N (Z.to_N (if n <? 10 then 48 + n else 87 + n)).

Fixpoint encode_pairs (b : list byte) : string :=
  match b with
  | [] => EmptyString
  | x :: b' =>
      String (hex_char (BigInt.byte_Z x / 16))
             (String (hex_char (BigInt.byte_Z x mod 16)) (encode_pairs b'))
  end.

(** [hexutil.Encode]: [0x] and two lower-case hex digits per byte. *)
Definition Encode (b : list byte) : string := "0x" ++ encode_pairs b.

(** [common.BytesToAddress(b)]: the last 20 bytes of [b], zero-padded on
    the left when [b] is shorter. *)
Definition BytesToAddress (b : list byte) : list byte :=
  let b := skipn (List.length b - GethCommon.AddressLength) b in
  (repeat x00 (GethCommon.AddressLength - List.length b) ++ b)%list.

End Hexutil.

(** [func UnmarshalValidatorData(data interface{}) (ValidatorData, error)] *)
Definition UnmarshalValidatorData (data : Value) : result ValidatorData :=
  match data with
  | VMap raw =>
      match data_get raw "address" with
      | VString addr =>
          match Hexutil.Decode addr with
          | Err err => Err err
          | Ok addrBytes =>
              if (List.length addrBytes =? 0)%nat
              then Err (Errorf "validator address is undefined")
              else
                match data_get raw "message" with
                | VString message =>
                    match Hexutil.Decode message with
                    | Err err => Err err
                    | Ok messageBytes =>
                        if (List.length messageBytes =? 0)%nat
                        then Err (Errorf "message is undefined")
                        else Ok (mkValidatorData (Hexutil.BytesToAddress addrBytes)
                                                 messageBytes)
                    end
                | _ => Err (Errorf "message is not sent as a string")
                end
          end
      | _ => Err (Errorf "validator address is not sent as a string")
      end
  | _ => Err (Errorf "validator input is not a map[string]interface{}")
  end.

(* ===================================================================== *)
(** ** Format flattener *)
(* ===================================================================== *)

(** [type NameValueType struct { Name string; Value interface{}; Typ string }];
    the value is nil, a text, or a list of further entries. *)
Inductive NameValueType : Type :=
| NVT (name : string) (value : NvtValue) (typ : string)
with NvtValue : Type :=
| NvtNil
| NvtText (text : string)
| NvtList (entries : list NameValueType).

Definition nvt_name (item : NameValueType) : string :=
  match item with NVT name _ _ => name end.

Definition nvt_value (item : NameValueType) : NvtValue :=
  match item with NVT _ value _ => value end.

Definition nvt_typ (item : NameValueType) : string :=
  match item with NVT _ _ typ => typ end.

(** The renderings of an arbitrary value by [fmt.Sprintf] under the verbs
    [%s] and [%v].  They belong to the Go library and are taken as given. *)
Record Printer : Type := mkPrinter {
  verb_s : Value -> string;
  verb_v : Value -> string
}.

(** Modelled from the spec: [common.Address.String] is not part of the
    embedded source; the spec asks for the checksummed hex form, in which
    a letter digit is upper case when the matching nibble of the
    keccak-256 hash of the lower-case hex text is above 7. *)
Module Checksum.

Definition nibble (hash : list byte) (i : nat) : Z :=
  let hashByte := BigInt.byte_Z (nth (i / 2) hash x00) in
  if Nat.even i then hashByte / 16 else hashByte mod 16.

Definition upper_if (raise : bool) (c : ascii) : ascii :=
  if raise && (57 <? N_of_ascii c)%N
  then ascii_of_N (N_of_ascii c - 32)
  else c.

Fixpoint apply (hash : list byte) (i : nat) (s : string) : string :=
  match s with
  | EmptyString => EmptyString
  | String c s' => String (upper_if (7 <? nibble hash i) c) (apply hash (S i) s')
  end.

Definition Hex (address : list byte) : string :=
  let unchecksummed := Hexutil.encode_pairs address in
  let hash := Keccak.Keccak256 (list_byte_of_string unchecksummed) in
  "0x" ++ apply hash 0 unchecksummed.

End Checksum.

(** [%x] of a natural number, and of a big integer. *)
Fixpoint hex_digits (fuel : nat) (n : Z) (acc : string) : string :=
  match fuel with
  | O => acc
  | S fuel' =>
      let acc := String (Hexutil.hex_char (n mod 16)) acc in
      if n / 16 =? 0 then acc else hex_digits fuel' (n / 16) acc
  end.

Definition hex_of_Z (b : Z) : string :=
  let digits := hex_digits (S (Z.to_nat (Z.log2 (Z.abs b)))) (Z.abs b) "" in
  if b <? 0 then "-" ++ digits else digits.

(** [func formatPrimitiveValue(encType string, encValue interface{}) (string, error)] *)
Definition formatPrimitiveValue (printer : Printer) (encType : string) (encValue : Value)
  : result string :=
  if String.eqb encType "address" then
    match encValue with
    | VString stringValue => Ok (Checksum.Hex (GethCommon.HexToAddress stringValue))
    | _ => Err (Errorf ("could not format value " ++ verb_v printer encValue
                        ++ " as address"))
    end
  else if String.eqb encType "bool" then
    match encValue with
    | VBool boolValue => Ok (if boolValue then "true" else "false")
    | _ => Err (Errorf ("could not format value " ++ verb_v printer encValue
                        ++ " as bool"))
    end
  else if String.eqb encType "bytes" || String.eqb encType "string" then
    Ok (verb_s printer encValue)
  else if GoStrings.HasPrefix encType "bytes" then
    Ok (verb_s printer encValue)
  else if GoStrings.HasPrefix encType "uint" || GoStrings.HasPrefix encType "int" then
    match parseInteger encType encValue with
    | Err err => Err err
    | Ok b => Ok (itoaZ b ++ " (0x" ++ hex_of_Z b ++ ")")
    end
  else Err (Errorf ("unhandled type " ++ encType)).

(** [mapValue, _ := v.(map[string]interface{})]: the nil map when the
    assertion fails. *)
Definition as_map (v : Value) : TypedDataMessage :=
  match v with
  | VMap mapValue => mapValue
  | _ => []
  end.

(** The loop of [formatData] over the elements of an array field: every
    iteration overwrites the value of the item.  In the primitive branch
    the whole field type and the whole field value are formatted. *)
Fixpoint format_items
    (rec : string -> TypedDataMessage -> option (result (list NameValueType)))
    (printer : Printer) (typedData : TypedData) (field : Type_) (encValue : Value)
    (parsedType : string) (arrayValue : list Value) (value : NvtValue)
  : option (result NvtValue) :=
  match arrayValue with
  | [] => Some (Ok value)
  | v :: arrayValue' =>
      match Types_get (types typedData) parsedType with
      | Some _ =>
          match rec parsedType (as_map v) with
          | None => None
          | Some (Err err) => Some (Err err)
          | Some (Ok mapOutput) =>
              format_items rec printer typedData field encValue parsedType
                           arrayValue' (NvtList mapOutput)
          end
      | None =>
          match formatPrimitiveValue printer (Typ field) encValue with
          | Err err => Some (Err err)
          | Ok primitiveOutput =>
              format_items rec printer typedData field encValue parsedType
                           arrayValue' (NvtText primitiveOutput)
          end
      end
  end.

(** The item produced for one field. *)
Definition format_field
    (rec : string -> TypedDataMessage -> option (result (list NameValueType)))
    (printer : Printer) (typedData : TypedData) (data : TypedDataMessage) (field : Type_)
  : option (result NameValueType) :=
  let encName := Name field in
  let encValue := data_get data encName in
  let item value := NVT encName value (Typ field) in
  if isArray field then
    let arrayValue := match encValue with VArray items => items | _ => [] end in
    let parsedType := typeName field in
    match format_items rec printer typedData field encValue parsedType arrayValue NvtNil with
    | None => None
    | Some (Err err) => Some (Err err)
    | Some (Ok value) => Some (Ok (item value))
    end
  else
    match Types_get (types typedData) (Typ field) with
    | Some _ =>
        match encValue with
        | VMap mapValue =>
            match rec (Typ field) mapValue with
            | None => None
            | Some (Err err) => Some (Err err)
            | Some (Ok mapOutput) => Some (Ok (item (NvtList mapOutput)))
            end
        | _ => Some (Ok (item (NvtText "<nil>")))
        end
    | None =>
        match formatPrimitiveValue printer (Typ field) encValue with
        | Err err => Some (Err err)
        | Ok primitiveOutput => Some (Ok (item (NvtText primitiveOutput)))
        end
    end.

Fixpoint format_fields
    (rec : string -> TypedDataMessage -> option (result (list NameValueType)))
    (printer : Printer) (typedData : TypedData) (data : TypedDataMessage)
    (fields : list Type_) (output : list NameValueType)
  : option (result (list NameValueType)) :=
  match fields with
  | [] => Some (Ok output)
  | field :: fields' =>
      match format_field rec printer typedData data field with
      | None => None
      | Some (Err err) => Some (Err err)
      | Some (Ok item) =>
          format_fields rec printer typedData data fields' (output ++ [item])
      end
  end.

(** [func (typedData *TypedData) formatData(primaryType string, data map[string]interface{}) ([]*NameValueType, error)]
    with a bound on the depth of the recursion. *)
Fixpoint formatData_fuel (fuel : nat) (printer : Printer) (typedData : TypedData)
    (primaryType : string) (data : TypedDataMessage)
  : option (result (list NameValueType)) :=
  match fuel with
  | O => None
  | S fuel' =>
      format_fields (formatData_fuel fuel' printer typedData) printer typedData data
                    (elems (Types_get (types typedData) primaryType)) []
  end.

(** The recursion follows the nesting of the message; a call on the nil
    map goes no deeper. *)
Definition formatData (printer : Printer) (typedData : TypedData)
    (primaryType : string) (data : TypedDataMessage) : result (list NameValueType) :=
  match formatData_fuel (height (VMap data)) printer typedData primaryType data with
  | Some r => r
  | None => Err (Errorf "unreachable")
  end.

(** [func (typedData *TypedData) Format() ([]*NameValueType, error)] *)
Definition Format (printer : Printer) (typedData : TypedData)
  : result (list NameValueType) :=
  match formatData printer typedData "EIP712Domain"
                   (TypedDataDomain_Map (Domain typedData)) with
  | Err err => Err err
  | Ok domain =>
      match formatData printer typedData (PrimaryType typedData) (Message typedData) with
      | Err err => Err err
      | Ok ptype =>
          Ok [ NVT "EIP712Domain" (NvtList domain) "domain";
               NVT (PrimaryType typedData) (NvtList ptype) "primary type" ]
      end
  end.

Definition plainPrinter : Printer :=
  mkPrinter (fun v => match v with VString s => s | _ => "?" end)
            (fun v => match v with VString s => s | _ => "?" end).

(* ===================================================================== *)
(** ** Vocabulary of the stated properties *)
(* ===================================================================== *)

(** The integer spellings of the registry with their signedness and
    declared width; bare [int] and [uint] mean 256 bits. *)
Definition integer_types : list (string * bool * Z) :=
  [ ("int", true, 256); ("int8", true, 8); ("int16", true, 16);
    ("int32", true, 32); ("int64", true, 64); ("int128", true, 128);
    ("int256", true, 256);
    ("uint", false, 256); ("uint8", false, 8); ("uint16", false, 16);
    ("uint32", false, 32); ("uint64", false, 64); ("uint128", false, 128);
    ("uint256", false, 256) ].

(** The spellings the primitive encoder can encode at all: the four named
    types, [bytes] followed by a decimal size from 0 to 32, and [int] or
    [uint], bare or followed by a decimal size. *)
Definition primitive_shape (encType : string) : Prop :=
  encType = "address" \/ encType = "bool" \/ encType = "string" \/ encType = "bytes"
  \/ (exists size n,
        encType = "bytes" ++ size /\ GoStrings.Atoi size = Some n /\ 0 <= n <= 32)
  \/ encType = "int" \/ encType = "uint"
  \/ (exists size n,
        (encType = "int" ++ size \/ encType = "uint" ++ size)
        /\ GoStrings.Atoi size = Some n).

(** The structs of the dictionary that [Dependencies] can still append:
    the keys holding a non-nil slice that [found] does not list. *)
Definition unvisited (t : Types) (found : list string) : Types :=
  filter (fun entry => is_Some (snd entry) /\ includes found (fst entry) = false) t.

(** A dictionary in which a struct refers to another one only through an
    array field, and a message for it. *)
Definition groupTypes : Types :=
  <["Group" := Some [mkType "members" "Person[]"]]>
    (<["Person" := Some [mkType "name" "string"]]> ∅).

Definition groupData : TypedData :=
  mkTypedData groupTypes "Group" (TypedDataDomain.mk "Club" "" None "" "") [].

Definition groupMessage : TypedDataMessage :=
  [("members", VArray [VMap [("name", VString "Ann")]; VMap [("name", VString "Bob")]])].

(** A recursive call of [EncodeData] that may run out of fuel. *)
Abbreviation recursive_call :=
  (string -> TypedDataMessage -> Z -> option (result (list byte))).

(** [rec2] answers wherever [rec1] does, with the same answer. *)
Definition rec_le (rec1 rec2 : recursive_call) : Prop :=
  forall pt data d r, rec1 pt data d = Some r -> rec2 pt data d = Some r.

(** [rec] answers on every message of height at most [n]. *)
Definition rec_total (n : nat) (rec : recursive_call) : Prop :=
  forall pt data d, (height (VMap data) <= n)%nat -> exists r, rec pt data d = Some r.

(** The Mail document of EIP-712. *)
Definition mailTypes : Types :=
  <["EIP712Domain" := Some [ mkType "name" "string"; mkType "version" "string";
                             mkType "chainId" "uint256";
                             mkType "verifyingContract" "address" ]]>
    (<["Person" := Some [mkType "name" "string"; mkType "wallet" "address"]]>
       (<["Mail" := Some [ mkType "from" "Person"; mkType "to" "Person";
                           mkType "contents" "string" ]]> ∅)).

Definition mailMessage : TypedDataMessage :=
  [ ("from", VMap [ ("name", VString "Cow");
                    ("wallet", VString "0xCD2a3d9F938E13CD947Ec05AbC7FE734Df8DD826") ]);
    ("to", VMap [ ("name", VString "Bob");
                  ("wallet", VString "0xbBbBBBBbbBBBbbbBbbBbbbbBBbBbbbbBbBbbBBbB") ]);
    ("contents", VString "Hello, Bob!") ].

Definition mailData : TypedData :=
  mkTypedData mailTypes "Mail"
    (TypedDataDomain.mk "Ether Mail" "1" (Some 1)
                        "0xCcCCccccCCCCcCCCCCCcCcCccCcCCCcCcccccccC" "")
    mailMessage.

Definition mailDomainMessage : TypedDataMessage :=
  [ ("name", VString "Ether Mail"); ("version", VString "1");
    ("chainId", VHexOrDecimal256 (Some 1));
    ("verifyingContract", VString "0xCcCCccccCCCCcCCCCCCcCcCccCcCCCcCcccccccC") ].

(** [a] declares a field whose type spelling is exactly the declared
    struct name [b]. *)
Definition refers (typedData : TypedData) (a b : string) : Prop :=
  exists fields field,
    Types_get (types typedData) a = Some fields
    /\ In field fields /\ Typ field = b
    /\ is_Some (Types_get (types typedData) b).

(** What a call [Dependencies(primaryType, found)] that returns [deps] has
    done: it has appended to [found] distinct struct names, each reachable
    from [primaryType], together with everything they refer to. *)
Definition deps_inv (typedData : TypedData) (primaryType : string)
    (found deps : list string) : Prop :=
  exists extra,
    deps = (found ++ extra)%list
    /\ NoDup extra
    /\ (forall k, In k extra -> ~ In k found)
    /\ (forall k, In k extra ->
          is_Some (Types_get (types typedData) k)
          /\ rtc (refers typedData) primaryType k)
    /\ (forall k b, In k extra -> refers typedData k b -> In b deps)
    /\ (is_Some (Types_get (types typedData) primaryType) -> In primaryType deps)
    /\ (~ In primaryType found ->
        is_Some (Types_get (types typedData) primaryType) ->
        exists rest, extra = primaryType :: rest).

(** One member of a struct signature, and the signature of a struct. *)
Definition member (field : Type_) : string := Typ field ++ " " ++ Name field.

Definition signature (name : string) (fields : list Type_) : string :=
  name ++ "(" ++ String.concat "," (map member fields) ++ ")".

(** The order of Go strings as a relation. *)
Definition string_le (a b : string) : Prop := GoStrings.string_leb a b = true.

(** The spelling is handled by the integer branch of the primitive
    encoder. *)
Definition integer_like (encType : string) : Prop :=
  GoStrings.HasPrefix encType "int" = true \/ GoStrings.HasPrefix encType "uint" = true.

(** The spellings under which the primitive encoder can accept a value of
    a given dynamic type. *)
Definition accepted_under (encType : string) (encValue : Value) : Prop :=
  match encValue with
  | VString _ => encType = "address" \/ encType = "string" \/ integer_like encType
  | VBool _ => encType = "bool"
  | VBytes _ => encType = "bytes"
  | VHexBytes _ => encType <> "bytes" /\ GoStrings.HasPrefix encType "bytes" = true
  | VHexOrDecimal256 (Some _) => integer_like encType
  | VFloat64 _ => integer_like encType
  | _ => False
  end.

(** The bytes [EncodeData] returns for the Mail message. *)
Definition mailEncoded : list byte :=
  match EncodeData mailData "Mail" mailMessage 1 with
  | Ok out => out
  | Err _ => []
  end.

(** The checks of the dictionary validator on one descriptor, as a
    property: neither name nor type is empty, the type is not the owning
    key, and the type is either a reference type whose base name is a key
    and which matches the reference-type regexp, or a spelling of the
    registry. *)
Definition descriptor_well_formed (t : Types) (typeKey : string) (typeObj : Type_) : Prop :=
  Typ typeObj <> "" /\ Name typeObj <> "" /\ Typ typeObj <> typeKey
  /\ ((isReferenceType typeObj = true
       /\ is_Some (t !! typeName typeObj)
       /\ reference_type_matches (Typ typeObj) = true)
      \/ (isReferenceType typeObj = false
          /\ isPrimitiveTypeValid (Typ typeObj) = true)).

(** A byte slice without its leading zero bytes. *)
Fixpoint strip_zeros (b : list byte) : list byte :=
  match b with
  | x00 :: b' => strip_zeros b'
  | _ => b
  end.

(** A recursive call of [formatData] that may run out of fuel. *)
Abbreviation format_call :=
  (string -> TypedDataMessage -> option (result (list NameValueType))).

Definition format_le (rec1 rec2 : format_call) : Prop :=
  forall pt data r, rec1 pt data = Some r -> rec2 pt data = Some r.

Definition format_total (n : nat) (rec : format_call) : Prop :=
  forall pt data, (height (VMap data) <= n)%nat -> exists r, rec pt data = Some r.

(** The value of the finite binary float [f] is the integer [v]. *)
Definition float64_represents (f : spec_float) (v : Z) : Prop :=
  match f with
  | S754_zero _ => v = 0
  | S754_finite s m e =>
      let signedMantissa := if s then Z.neg m else Z.pos m in
      if 0 <=? e then v = signedMantissa * 2 ^ e
      else signedMantissa = v * 2 ^ (- e)
  | _ => False
  end.

(** The values of a message that carry the integer [v] for an integer
    field: the big-integer object, the decimal text, the [0x] hex text of a
    non-negative [v], and a float64 whose value is [v]. *)
Inductive carries (v : Z) : Value -> Prop :=
  | carries_object : carries v (VHexOrDecimal256 (Some v))
  | carries_decimal : carries v (VString (itoaZ v))
  | carries_hex : 0 <= v -> carries v (VString ("0x" ++ hex_of_Z v))
  | carries_float f : float64_represents f v -> carries v (VFloat64 f).

(** A float64 carrier converts to [int64] without loss only within the
    range of [int64]; the other carriers have no such bound. *)
Definition within_int64 (encValue : Value) (v : Z) : Prop :=
  match encValue with
  | VFloat64 _ => - 2 ^ 63 <= v < 2 ^ 63
  | _ => True
  end.

(** Two results are the same word, or are both an error. *)
Definition same_outcome (r1 r2 : result (list byte)) : Prop :=
  match r1, r2 with
  | Ok word1, Ok word2 => word1 = word2
  | Err _, Err _ => True
  | _, _ => False
  end.

(** The bytes an array field contributes for one element, of element type
    [parsedType]: the encoded data of a struct element, not hashed, or the
    word of a primitive element. *)
Definition element_word (typedData : TypedData) (parsedType : string) (depth : Z)
    (item : Value) (encoding : list byte) : Prop :=
  match Types_get (types typedData) parsedType with
  | Some _ =>
      exists mapValue,
        item = VMap mapValue
        /\ EncodeData typedData parsedType mapValue (depth + 1) = Ok encoding
  | None => EncodePrimitiveValue parsedType item depth = Ok encoding
  end.

(** The word of one declared field: the hash of the concatenated element
    encodings for an array, the hash of the encoded data for a struct, the
    primitive word otherwise. *)
Definition field_word (typedData : TypedData) (data : TypedDataMessage) (depth : Z)
    (field : Type_) (word : list byte) : Prop :=
  let encValue := data_get data (Name field) in
  if GoStrings.HasSuffix (Typ field) "]" then
    exists arrayValue encodings,
      encValue = VArray arrayValue
      /\ Forall2 (element_word typedData (GoStrings.before_first "[" (Typ field)) depth)
                 arrayValue encodings
      /\ word = Keccak.Keccak256 (concat encodings)
  else
    match Types_get (types typedData) (Typ field) with
    | Some _ =>
        exists mapValue encodedData,
          encValue = VMap mapValue
          /\ EncodeData typedData (Typ field) mapValue (depth + 1) = Ok encodedData
          /\ word = Keccak.Keccak256 encodedData
    | None => EncodePrimitiveValue (Typ field) encValue depth = Ok word
    end.

(* ===================================================================== *)
(** ** Facts about the collaborators *)
(* ===================================================================== *)

Lemma Keccak256_length (msg : list byte) : List.length (Keccak.Keccak256 msg) = 32%nat.
Proof. unfold Keccak.Keccak256. now rewrite length_map, length_seq. Qed.

(** The hasher on the empty input, and the encoder on the Mail document:
    the type signature, the struct hash and the digest under the 0x19 0x01
    prefix are the published ones. *)
Example Keccak256_empty :
  Keccak.Keccak256 []
  = GethCommon.hex_decode
      "c5d2460186f7233c927e7db2dcc703c0e500b653ca82273b7bfad8045d85a470".
Proof. vm_compute. reflexivity. Qed.

Example mail_EncodeType :
  EncodeType_text mailData "Mail"
  = "Mail(Person from,Person to,string contents)Person(string name,address wallet)".
Proof. vm_compute. reflexivity. Qed.

Example mail_HashStruct :
  HashStruct mailData "Mail" mailMessage
  = Ok (GethCommon.hex_decode
          "c52c0ee5d84264471806290a3f2c4cecfc5490626bf912d01f240d7a274b371e").
Proof. vm_compute. reflexivity. Qed.

Example mail_digest :
  match HashStruct mailData "EIP712Domain" mailDomainMessage,
        HashStruct mailData "Mail" mailMessage with
  | Ok domainSeparator, Ok messageHash =>
      Keccak.Keccak256 ([x19; x01] ++ domainSeparator ++ messageHash)%list
      = GethCommon.hex_decode
          "be609aee343fb3c4b28e1df9e632fca64fcfaede20f02e86244efddf30957bd2"
  | _, _ => False
  end.
Proof. vm_compute. reflexivity. Qed.

Lemma list_byte_of_string_app (s1 s2 : string) :
  list_byte_of_string (s1 ++ s2) = (list_byte_of_string s1 ++ list_byte_of_string s2)%list.
Proof.
  unfold list_byte_of_string.
  induction s1 as [|c s1 IH]; simpl; [reflexivity | now rewrite IH].
Qed.

Lemma list_byte_of_string_cons (c : ascii) (s : string) :
  list_byte_of_string (String c s) = byte_of_ascii c :: list_byte_of_string s.
Proof. reflexivity. Qed.

Lemma string_length_bytes (s : string) :
  String.length s = List.length (list_byte_of_string s).
Proof.
  unfold list_byte_of_string.
  induction s as [|c s IH]; simpl; [reflexivity | now rewrite IH].
Qed.

Lemma Rlp_header_nonempty (short long : Z) (n : nat) : Rlp.header short long n <> [].
Proof. unfold Rlp.header. destruct (n <=? 55)%nat; discriminate. Qed.

Lemma CliqueRLP_nonempty (header : Header) : CliqueRLP header <> [].
Proof.
  unfold CliqueRLP, Rlp.encode_list. intros H.
  apply app_eq_nil in H as [H _]. now apply Rlp_header_nonempty in H.
Qed.

(* ===================================================================== *)
(** ** Validator-prefixed text *)
(* ===================================================================== *)

(** C8: for a 20-byte address and any message, the pre-image returned by
    [SignTextValidator] is 0x19, 0x00, the address, the message, its length
    is 2 + 20 + len(msg), and the digest returned with it is the keccak-256
    hash of exactly these bytes. *)
Theorem SignTextValidator_preimage (addr msg : list byte) :
  List.length addr = 20%nat ->
  let '(digest, preimage) := SignTextValidator (mkValidatorData addr msg) in
  list_byte_of_string preimage = (x19 :: x00 :: addr ++ msg)%list
  /\ String.length preimage = (2 + 20 + List.length msg)%nat
  /\ digest = Keccak.Keccak256 (x19 :: x00 :: addr ++ msg)%list.
Proof.
  intros Haddr. unfold SignTextValidator. cbn [Address VMessage].
  assert (Hbytes :
    list_byte_of_string
      (String "025" (String "000" (string_of_list_byte addr ++ string_of_list_byte msg)))
    = (x19 :: x00 :: addr ++ msg)%list).
  { rewrite !list_byte_of_string_cons, list_byte_of_string_app.
    rewrite !list_byte_of_string_of_list_byte. reflexivity. }
  split; [exact Hbytes|]. split; [|now rewrite Hbytes].
  rewrite string_length_bytes, Hbytes. cbn [List.length].
  rewrite length_app, Haddr. reflexivity.
Qed.

Lemma SignTextValidator_preimage_witness :
  let '(digest, preimage) :=
    SignTextValidator (mkValidatorData (repeat xab 20) [x01; x00; xff]) in
  list_byte_of_string preimage = (x19 :: x00 :: repeat xab 20 ++ [x01; x00; xff])%list
  /\ String.length preimage = (2 + 20 + 3)%nat
  /\ digest = Keccak.Keccak256 (x19 :: x00 :: repeat xab 20 ++ [x01; x00; xff])%list.
Proof. apply (SignTextValidator_preimage (repeat xab 20) [x01; x00; xff]). reflexivity. Defined.

(* ===================================================================== *)
(** ** Clique header guard *)
(* ===================================================================== *)

(** C9: [cliqueHeaderHashAndRlp] returns an error exactly when the extra
    data is shorter than 65 bytes, then with neither hash nor RLP; for 64
    bytes the error text is "clique header extradata too short, 64 < 65";
    from 65 bytes on it returns a non-empty RLP and a 32-byte hash and no
    error. *)
Theorem cliqueHeaderHashAndRlp_guard (header : Header) :
  ((exists e, snd (cliqueHeaderHashAndRlp header) = Some e)
     <-> (List.length (Extra header) < 65)%nat)
  /\ ((List.length (Extra header) < 65)%nat ->
      exists e, cliqueHeaderHashAndRlp header = (None, None, Some e))
  /\ (List.length (Extra header) = 64%nat ->
      cliqueHeaderHashAndRlp header
      = (None, None, Some (Errorf "clique header extradata too short, 64 < 65")))
  /\ ((65 <= List.length (Extra header))%nat ->
      exists hash rlp,
        cliqueHeaderHashAndRlp header = (Some hash, Some rlp, None)
        /\ rlp <> [] /\ List.length hash = 32%nat).
Proof.
  unfold cliqueHeaderHashAndRlp.
  destruct (Nat.ltb_spec (List.length (Extra header)) 65) as [Hlt | Hge].
  - split; [|split; [|split]].
    + split; [intros _; exact Hlt | intros _; eexists; reflexivity].
    + intros _. eexists. reflexivity.
    + intros ->. reflexivity.
    + intros Hge. lia.
  - split; [|split; [|split]].
    + split; [intros [e He]; discriminate He | lia].
    + lia.
    + lia.
    + intros _. exists (SealHash header), (CliqueRLP header).
      split; [reflexivity|]. split; [apply CliqueRLP_nonempty|].
      apply Keccak256_length.
Qed.

Lemma cliqueHeaderHashAndRlp_guard_witness :
  cliqueHeaderHashAndRlp (mkHeader [] (repeat x00 64) [])
  = (None, None, Some (Errorf "clique header extradata too short, 64 < 65")).
Proof.
  apply (cliqueHeaderHashAndRlp_guard (mkHeader [] (repeat x00 64) [])).
  reflexivity.
Defined.

(* ===================================================================== *)
(** ** Domain validation *)
(* ===================================================================== *)

Lemma string_length_zero (s : string) : (String.length s =? 0)%nat = true <-> s = "".
Proof. destruct s; simpl; split; intros H; try reflexivity; discriminate. Qed.

(** C7 (as stated, refuted): a descriptor whose only populated field is
    [chainId] does not pass validation. *)
Lemma domain_chainId_only_rejected :
  let domain := TypedDataDomain.mk "" "" (Some 1) "" "" in
  TypedDataDomain.ChainId domain = Some 1
  /\ TypedDataDomain.validate domain = Some (Errorf "domain is undefined").
Proof. split; reflexivity. Qed.

(** C7 (amended): domain validation fails exactly when the four text
    fields name, version, verifyingContract and salt are all empty,
    whatever chainId holds; a descriptor in which one of these four is
    populated passes. *)
Theorem domain_validate_four_text_fields (domain : TypedDataDomain.t) :
  (TypedDataDomain.validate domain = Some (Errorf "domain is undefined")
     <-> TypedDataDomain.Name domain = ""
         /\ TypedDataDomain.Version domain = ""
         /\ TypedDataDomain.VerifyingContract domain = ""
         /\ TypedDataDomain.Salt domain = "")
  /\ (TypedDataDomain.validate domain = None
     <-> TypedDataDomain.Name domain <> ""
         \/ TypedDataDomain.Version domain <> ""
         \/ TypedDataDomain.VerifyingContract domain <> ""
         \/ TypedDataDomain.Salt domain <> "").
Proof.
  unfold TypedDataDomain.validate.
  destruct domain as [name version chainId contract salt]; cbn.
  destruct name, version, contract, salt; cbn; split; split; intros H;
    try discriminate; try reflexivity; try tauto;
    try (repeat split; reflexivity);
    try (destruct H as (H1 & H2 & H3 & H4); discriminate);
    try (destruct H as [H | [H | [H | H]]]; congruence);
    auto 6 using eq_refl.
  all: try (left; discriminate).
  all: try (right; left; discriminate).
  all: try (right; right; left; discriminate).
  all: try (right; right; right; discriminate).
Qed.

(* ===================================================================== *)
(** ** The recursion of [EncodeData] is bounded by the message *)
(* ===================================================================== *)

Section EncodeDataFuel.

Variable typedData : TypedData.

Lemma encode_items_mono rec1 rec2 parsedType depth arrayValue arrayBuffer r :
  rec_le rec1 rec2 ->
  encode_items rec1 typedData parsedType depth arrayValue arrayBuffer = Some r ->
  encode_items rec2 typedData parsedType depth arrayValue arrayBuffer = Some r.
Proof.
  intros Hle. revert arrayBuffer.
  induction arrayValue as [|item items IH]; intros arrayBuffer; simpl; [easy|].
  destruct (Types_get (types typedData) parsedType).
  - destruct item; try easy.
    destruct (rec1 parsedType m (depth + 1)) as [[enc | e]|] eqn:Hrec; [| |easy];
      rewrite (Hle _ _ _ _ Hrec); [apply IH | easy].
  - destruct (EncodePrimitiveValue parsedType item depth); [apply IH | easy].
Qed.

Lemma encode_field_mono rec1 rec2 data depth field r :
  rec_le rec1 rec2 ->
  encode_field rec1 typedData data depth field = Some r ->
  encode_field rec2 typedData data depth field = Some r.
Proof.
  intros Hle. unfold encode_field.
  destruct (GoStrings.HasSuffix (Typ field) "]").
  - destruct (data_get data (Name field)); try easy.
    destruct (encode_items rec1 _ _ _ _ _) as [r1|] eqn:Hitems; [|easy].
    now rewrite (encode_items_mono _ _ _ _ _ _ _ Hle Hitems).
  - destruct (Types_get (types typedData) (Typ field)); [|easy].
    destruct (data_get data (Name field)); try easy.
    destruct (rec1 (Typ field) m (depth + 1)) as [r1|] eqn:Hrec; [|easy].
    now rewrite (Hle _ _ _ _ Hrec).
Qed.

Lemma encode_fields_mono rec1 rec2 data depth fields buffer r :
  rec_le rec1 rec2 ->
  encode_fields rec1 typedData data depth fields buffer = Some r ->
  encode_fields rec2 typedData data depth fields buffer = Some r.
Proof.
  intros Hle. revert buffer.
  induction fields as [|field fields IH]; intros buffer; simpl; [easy|].
  destruct (encode_field rec1 typedData data depth field) as [r1|] eqn:Hfield; [|easy].
  rewrite (encode_field_mono _ _ _ _ _ _ Hle Hfield).
  destruct r1; [apply IH | easy].
Qed.

Lemma EncodeData_body_mono rec1 rec2 primaryType data depth r :
  rec_le rec1 rec2 ->
  EncodeData_body rec1 typedData primaryType data depth = Some r ->
  EncodeData_body rec2 typedData primaryType data depth = Some r.
Proof.
  intros Hle. unfold EncodeData_body.
  destruct (TypedData_validate typedData); [easy|].
  destruct (_ <? _)%nat; [easy|]. now apply encode_fields_mono.
Qed.

Lemma EncodeData_fuel_mono (fuel fuel' : nat) :
  (fuel <= fuel')%nat ->
  rec_le (EncodeData_fuel fuel typedData) (EncodeData_fuel fuel' typedData).
Proof.
  revert fuel'. induction fuel as [|fuel IH]; intros fuel' Hle pt data d r; simpl; [easy|].
  destruct fuel' as [|fuel']; [lia|]. simpl.
  apply EncodeData_body_mono, IH. lia.
Qed.

Lemma height_item_le (items : list Value) (item : Value) :
  In item items ->
  (height item <= fold_right (fun item h => Nat.max (height item) h) O items)%nat.
Proof.
  induction items as [|x items IH]; simpl; [easy|].
  intros [-> | Hin]; [lia | specialize (IH Hin); lia].
Qed.

Lemma height_data_get (data : TypedDataMessage) (name : string) :
  (height (data_get data name) < height (VMap data))%nat.
Proof.
  induction data as [|[key v] data IH]; simpl in *; [lia|].
  destruct (String.eqb key name); lia.
Qed.

Lemma encode_items_total n rec parsedType depth arrayValue arrayBuffer :
  rec_total n rec ->
  (forall item, In item arrayValue -> (height item <= n)%nat) ->
  exists r, encode_items rec typedData parsedType depth arrayValue arrayBuffer = Some r.
Proof.
  intros Hrec. revert arrayBuffer.
  induction arrayValue as [|item items IH]; intros arrayBuffer Hitems; simpl; [eauto|].
  assert (Hrest : forall item, In item items -> (height item <= n)%nat)
    by (intros; apply Hitems; now right).
  destruct (Types_get (types typedData) parsedType).
  - destruct item; eauto.
    destruct (Hrec parsedType m (depth + 1)) as [[enc | e] ->]; eauto.
    apply Hitems. now left.
  - destruct (EncodePrimitiveValue parsedType item depth); eauto.
Qed.

Lemma encode_field_total n rec data depth field :
  rec_total n rec ->
  (height (VMap data) <= S n)%nat ->
  exists r, encode_field rec typedData data depth field = Some r.
Proof.
  intros Hrec Hdata. unfold encode_field.
  pose proof (height_data_get data (Name field)) as Hget.
  destruct (GoStrings.HasSuffix (Typ field) "]").
  - destruct (data_get data (Name field)) eqn:Hvalue; eauto.
    destruct (encode_items_total n rec (GoStrings.before_first "[" (Typ field))
                depth items [] Hrec) as [[buf | e] ->]; eauto.
    intros item Hin. apply height_item_le in Hin. simpl in Hget, Hdata. lia.
  - destruct (Types_get (types typedData) (Typ field)).
    + destruct (data_get data (Name field)) eqn:Hvalue; eauto.
      destruct (Hrec (Typ field) m (depth + 1)) as [[enc | e] ->]; eauto. lia.
    + destruct (EncodePrimitiveValue _ _ _); eauto.
Qed.

Lemma encode_fields_total n rec data depth fields buffer :
  rec_total n rec ->
  (height (VMap data) <= S n)%nat ->
  exists r, encode_fields rec typedData data depth fields buffer = Some r.
Proof.
  intros Hrec Hdata. revert buffer.
  induction fields as [|field fields IH]; intros buffer; simpl; [eauto|].
  destruct (encode_field_total n rec data depth field Hrec Hdata) as [[word | e] ->]; eauto.
Qed.

(** Enough fuel gives a result. *)
Lemma EncodeData_fuel_total (fuel : nat) : rec_total fuel (EncodeData_fuel fuel typedData).
Proof.
  induction fuel as [|fuel IH]; intros pt data d Hheight; [simpl in Hheight; lia|].
  simpl. unfold EncodeData_body.
  destruct (TypedData_validate typedData); [eauto|].
  destruct (_ <? _)%nat; [eauto|]. now apply encode_fields_total with (n := fuel).
Qed.

(** With enough fuel the result is the one of [EncodeData]. *)
Lemma EncodeData_fuel_spec (fuel : nat) primaryType data depth r :
  EncodeData_fuel fuel typedData primaryType data depth = Some r ->
  EncodeData typedData primaryType data depth = r.
Proof.
  intros Hfuel. unfold EncodeData.
  destruct (EncodeData_fuel_total (height (VMap data)) primaryType data depth (le_n _))
    as [r' Hr'].
  rewrite Hr'.
  destruct (Nat.le_ge_cases fuel (height (VMap data))) as [Hle | Hle].
  - apply (EncodeData_fuel_mono _ _ Hle) in Hfuel. congruence.
  - apply (EncodeData_fuel_mono _ _ Hle) in Hr'. congruence.
Qed.

(** [EncodeData] satisfies the recursive equation of the source. *)
Lemma EncodeData_unfold primaryType data depth :
  EncodeData_body (fun pt data' d => Some (EncodeData typedData pt data' d))
                  typedData primaryType data depth
  = Some (EncodeData typedData primaryType data depth).
Proof.
  destruct (EncodeData_fuel_total (S (height (VMap data))) primaryType data depth)
    as [r Hr]; [lia|].
  rewrite (EncodeData_fuel_spec _ _ _ _ _ Hr).
  change (EncodeData_body (EncodeData_fuel (height (VMap data)) typedData)
                          typedData primaryType data depth = Some r) in Hr.
  refine (EncodeData_body_mono _ _ _ _ _ _ _ Hr).
  intros pt data' d r' Hrec. f_equal. now apply EncodeData_fuel_spec in Hrec.
Qed.

End EncodeDataFuel.

(* ===================================================================== *)
(** ** Validation at the entry of [EncodeData] *)
(* ===================================================================== *)

Lemma EncodeData_validate_error typedData primaryType data depth err :
  TypedData_validate typedData = Some err ->
  EncodeData typedData primaryType data depth = Err err.
Proof.
  intros Hval. pose proof (EncodeData_unfold typedData primaryType data depth) as Heq.
  unfold EncodeData_body in Heq. rewrite Hval in Heq. congruence.
Qed.

(** C10: every call of [EncodeData], and so of [HashStruct], validates the
    domain descriptor together with the type dictionary: when the domain
    fails validation, the call fails for every primary type and message. *)
Theorem EncodeData_revalidates_domain typedData primaryType data depth :
  TypedDataDomain.validate (Domain typedData) <> None ->
  (exists err, EncodeData typedData primaryType data depth = Err err)
  /\ (exists err, HashStruct typedData primaryType data = Err err).
Proof.
  intros Hdomain.
  assert (Hval : exists err, TypedData_validate typedData = Some err).
  { unfold TypedData_validate.
    destruct (TypesM.validate (types typedData)); [eauto|].
    destruct (TypedDataDomain.validate (Domain typedData)); [eauto | easy]. }
  destruct Hval as [err Hval]. split; exists err.
  - now apply EncodeData_validate_error.
  - unfold HashStruct. now rewrite (EncodeData_validate_error _ _ _ _ _ Hval).
Qed.

Lemma EncodeData_revalidates_domain_witness :
  let typedData :=
    mkTypedData (<["Person" := Some [mkType "name" "string"]]> ∅) "Person"
                (TypedDataDomain.mk "" "" (Some 1) "" "") [] in
  (exists err, EncodeData typedData "Person" [("name", VString "Bob")] 1 = Err err)
  /\ (exists err, HashStruct typedData "Person" [("name", VString "Bob")] = Err err).
Proof.
  apply (EncodeData_revalidates_domain
           (mkTypedData (<["Person" := Some [mkType "name" "string"]]> ∅) "Person"
                        (TypedDataDomain.mk "" "" (Some 1) "" "") [])).
  discriminate.
Defined.

(* ===================================================================== *)
(** ** Surplus and missing message entries *)
(* ===================================================================== *)

(** The nil interface matches no type assertion of the primitive encoder. *)
Lemma EncodePrimitiveValue_nil (encType : string) (depth : Z) :
  exists err, EncodePrimitiveValue encType VNil depth = Err err.
Proof.
  unfold EncodePrimitiveValue.
  do 4 (destruct (String.eqb encType _); [eauto|]).
  destruct (GoStrings.HasPrefix encType "bytes").
  - unfold encode_fixed_bytes.
    destruct (GoStrings.Atoi _); [|eauto]. destruct (_ || _); eauto.
  - destruct (_ || _); [|eauto].
    unfold parseInteger. destruct (integer_length encType); cbn; eauto.
Qed.

Lemma encode_field_nil rec typedData data depth field :
  data_get data (Name field) = VNil ->
  exists err, encode_field rec typedData data depth field = Some (Err err).
Proof.
  intros Hnil. unfold encode_field. rewrite Hnil.
  destruct (GoStrings.HasSuffix (Typ field) "]"); [eauto|].
  destruct (Types_get (types typedData) (Typ field)); [eauto|].
  destruct (EncodePrimitiveValue_nil (Typ field) depth) as [err ->]. eauto.
Qed.

Lemma encode_fields_error rec typedData data depth fields buffer field err r :
  In field fields ->
  encode_field rec typedData data depth field = Some (Err err) ->
  encode_fields rec typedData data depth fields buffer = Some r ->
  exists err', r = Err err'.
Proof.
  revert buffer. induction fields as [|f fields IH]; intros buffer Hin Hfield; [easy|].
  simpl. destruct (encode_field rec typedData data depth f) as [[word | e]|] eqn:Hf.
  - destruct Hin as [-> | Hin]; [congruence | now apply IH].
  - intros [= <-]. eauto.
  - easy.
Qed.

(** C6 (as stated, refuted): with a valid dictionary declaring a struct
    with one primitive field, an empty message is not encoded with a zero
    word for the missing field: the encoding fails. *)
Lemma EncodeData_missing_field_rejected :
  let typedData :=
    mkTypedData (<["Order" := Some [mkType "amount" "uint256"]]> ∅) "Order"
                (TypedDataDomain.mk "Shop" "" None "" "") [] in
  TypedData_validate typedData = None
  /\ isPrimitiveTypeValid "uint256" = true
  /\ EncodeData typedData "Order" [] 1 = Err (InvalidIntegerValue VNil "uint256").
Proof. vm_compute. repeat split. Qed.

(** C6 (amended): when the message holds more entries than the struct
    declares fields, [EncodeData] fails; when the message omits a declared
    field, of a primitive type or of any other, [EncodeData] fails as well:
    the value read for the field is the nil interface, which every branch
    of the encoder rejects. *)
Theorem EncodeData_surplus_or_missing typedData primaryType data depth :
  ((List.length (elems (Types_get (types typedData) primaryType)) < data_len data)%nat ->
   exists err, EncodeData typedData primaryType data depth = Err err)
  /\ (forall field,
        In field (elems (Types_get (types typedData) primaryType)) ->
        data_get data (Name field) = VNil ->
        exists err, EncodeData typedData primaryType data depth = Err err).
Proof.
  pose proof (EncodeData_unfold typedData primaryType data depth) as Heq.
  unfold EncodeData_body in Heq.
  destruct (TypedData_validate typedData) as [verr|];
    [injection Heq as <-; split; eauto|].
  split.
  - intros Hlen. apply Nat.ltb_lt in Hlen. rewrite Hlen in Heq.
    injection Heq as <-. eauto.
  - intros field Hin Hnil.
    destruct (_ <? _)%nat; [injection Heq as <-; eauto|].
    destruct (encode_field_nil (fun pt data' d => Some (EncodeData typedData pt data' d))
                typedData data depth field Hnil) as [err Hfield].
    exact (encode_fields_error _ _ _ _ _ _ _ _ _ Hin Hfield Heq).
Qed.

Lemma EncodeData_surplus_or_missing_witness :
  let typedData :=
    mkTypedData (<["Order" := Some [mkType "amount" "uint256"]]> ∅) "Order"
                (TypedDataDomain.mk "Shop" "" None "" "") [] in
  (exists err,
     EncodeData typedData "Order"
       [("amount", VString "1"); ("tip", VString "2")] 1 = Err err)
  /\ (exists err, EncodeData typedData "Order" [("tip", VString "2")] 1 = Err err).
Proof.
  split.
  - apply (EncodeData_surplus_or_missing
             (mkTypedData (<["Order" := Some [mkType "amount" "uint256"]]> ∅) "Order"
                          (TypedDataDomain.mk "Shop" "" None "" "") [])
             "Order" [("amount", VString "1"); ("tip", VString "2")] 1).
    vm_compute. lia.
  - apply (proj2 (EncodeData_surplus_or_missing
             (mkTypedData (<["Order" := Some [mkType "amount" "uint256"]]> ∅) "Order"
                          (TypedDataDomain.mk "Shop" "" None "" "") [])
             "Order" [("tip", VString "2")] 1) (mkType "amount" "uint256")).
    + vm_compute. now left.
    + reflexivity.
Defined.

(* ===================================================================== *)
(** ** Big-endian bytes *)
(* ===================================================================== *)

Lemma byte_Z_range (b : byte) : 0 <= BigInt.byte_Z b < 256.
Proof. unfold BigInt.byte_Z. pose proof (Byte.to_N_bounded b). lia. Qed.

Lemma byte_Z_Z_byte (z : Z) : BigInt.byte_Z (BigInt.Z_byte z) = z mod 256.
Proof.
  unfold BigInt.byte_Z, BigInt.Z_byte.
  pose proof (Z.mod_pos_bound z 256 ltac:(lia)) as Hrange.
  destruct (Byte.of_N (Z.to_N (z mod 256))) as [b|] eqn:Hb.
  - apply Byte.to_of_N in Hb. rewrite Hb. lia.
  - apply Byte.of_N_None_iff in Hb. lia.
Qed.

Lemma Z_byte_byte_Z (b : byte) (k : Z) : BigInt.Z_byte (BigInt.byte_Z b + 256 * k) = b.
Proof.
  unfold BigInt.Z_byte.
  replace ((BigInt.byte_Z b + 256 * k) mod 256) with (BigInt.byte_Z b).
  - unfold BigInt.byte_Z. now rewrite N2Z.id, Byte.of_to_N.
  - pose proof (byte_Z_range b).
    rewrite (Z.mul_comm 256 k), Z.mod_add by lia. now rewrite Z.mod_small.
Qed.

Lemma be_bytes_length (n : nat) (x : Z) : List.length (BigInt.be_bytes n x) = n.
Proof.
  revert x. induction n as [|n IH]; intros x; simpl; [reflexivity|].
  rewrite length_app, IH. simpl. lia.
Qed.

Lemma SetBytes_snoc (buf : list byte) (b : byte) :
  BigInt.SetBytes (buf ++ [b]) = 256 * BigInt.SetBytes buf + BigInt.byte_Z b.
Proof. unfold BigInt.SetBytes. now rewrite fold_left_app. Qed.

Lemma SetBytes_range (buf : list byte) :
  0 <= BigInt.SetBytes buf < 256 ^ Z.of_nat (List.length buf).
Proof.
  induction buf as [|b buf IH] using rev_ind; [change (0 <= 0 < 1); lia|].
  rewrite SetBytes_snoc, length_app, Nat2Z.inj_add, Z.pow_add_r by lia.
  pose proof (byte_Z_range b).
  change (256 ^ Z.of_nat (List.length [b])) with 256. nia.
Qed.

(** The bytes written are the big-endian digits of the value. *)
Lemma SetBytes_be_bytes (n : nat) (x : Z) :
  BigInt.SetBytes (BigInt.be_bytes n x) = x mod 256 ^ Z.of_nat n.
Proof.
  revert x. induction n as [|n IH]; intros x.
  - simpl. now rewrite Z.mod_1_r.
  - cbn [BigInt.be_bytes]. rewrite SetBytes_snoc, IH, byte_Z_Z_byte.
    rewrite Nat2Z.inj_succ, Z.pow_succ_r by lia.
    rewrite (Z.rem_mul_r x 256 (256 ^ Z.of_nat n)) by lia. lia.
Qed.

(** Reading a slice as an integer and writing the integer back on at
    least as many bytes puts the zero bytes in front. *)
Lemma be_bytes_SetBytes (buf : list byte) (n : nat) :
  (List.length buf <= n)%nat ->
  BigInt.be_bytes n (BigInt.SetBytes buf)
  = (repeat x00 (n - List.length buf) ++ buf)%list.
Proof.
  revert n. induction buf as [|b buf IH] using rev_ind; intros n Hlen.
  - rewrite Nat.sub_0_r, app_nil_r. clear Hlen.
    change (BigInt.SetBytes []) with 0.
    induction n as [|n IHn]; [reflexivity|].
    cbn [BigInt.be_bytes]. change (0 / 256) with 0. rewrite IHn.
    change (BigInt.Z_byte 0) with x00. now rewrite <- repeat_cons.
  - rewrite length_app in *. simpl in Hlen.
    destruct n as [|n]; [lia|].
    cbn [BigInt.be_bytes]. rewrite SetBytes_snoc.
    pose proof (byte_Z_range b) as Hb.
    replace ((256 * BigInt.SetBytes buf + BigInt.byte_Z b) / 256)
      with (BigInt.SetBytes buf)
      by (rewrite Z.add_comm, Z.mul_comm, Z.div_add, Z.div_small by lia; lia).
    rewrite (Z.add_comm (256 * _)), Z_byte_byte_Z, IH by lia.
    rewrite <- app_assoc. f_equal. f_equal.
    change (List.length [b]) with 1%nat. lia.
Qed.

Lemma BitLen_bound (x : Z) (k : Z) :
  0 <= k -> 0 <= x < 2 ^ k -> BigInt.BitLen x <= k.
Proof.
  intros Hk Hx. unfold BigInt.BitLen. rewrite Z.abs_eq by lia.
  destruct (Z.eqb_spec x 0); [lia|].
  assert (Z.log2 x < k) by (apply Z.log2_lt_pow2; lia). lia.
Qed.

(** A value below 2^256 is written on exactly 32 bytes. *)
Lemma PaddedBigBytes_32 (x : Z) :
  0 <= x < 2 ^ 256 -> GethMath.PaddedBigBytes x 32 = BigInt.be_bytes 32 x.
Proof.
  intros Hx. unfold GethMath.PaddedBigBytes, BigInt.Bytes.
  pose proof (BitLen_bound x 256 ltac:(lia) Hx) as Hlen.
  rewrite (Z.abs_eq x) by lia.
  destruct (Z.geb_spec (BigInt.BitLen x / 8) (Z.of_nat 32)) as [Hge | Hlt]; [|reflexivity].
  assert (BigInt.BitLen x = 256).
  { assert (BigInt.BitLen x / 8 <= 256 / 8) by (apply Z.div_le_mono; lia).
    change (256 / 8) with 32 in *. change (Z.of_nat 32) with 32 in Hge.
    assert (8 * (BigInt.BitLen x / 8) <= BigInt.BitLen x)
      by (apply Z.mul_div_le; lia).
    lia. }
  replace (BigInt.BitLen x) with 256 by lia. reflexivity.
Qed.

Lemma U256Bytes_spec (x : Z) :
  GethMath.U256Bytes x = BigInt.be_bytes 32 (x mod 2 ^ 256).
Proof.
  unfold GethMath.U256Bytes, GethMath.U256. apply PaddedBigBytes_32.
  apply Z.mod_pos_bound. lia.
Qed.

(* ===================================================================== *)
(** ** Width law of the integer types *)
(* ===================================================================== *)

Lemma integer_types_dispatch (encType : string) (signed : bool) (N : Z) :
  In (encType, signed, N) integer_types ->
  integer_length encType = Ok N
  /\ GoStrings.HasPrefix encType "int" = signed
  /\ 0 <= N <= 256
  /\ (forall encValue depth,
        EncodePrimitiveValue encType encValue depth
        = match parseInteger encType encValue with
          | Err e => Err e
          | Ok b => Ok (GethMath.U256Bytes b)
          end).
Proof.
  unfold integer_types. intros Hin.
  repeat (destruct Hin as [[= <- <- <-] | Hin];
          [repeat split; try reflexivity; lia|]).
  destruct Hin.
Qed.

Lemma Sign_negative (b : Z) : (BigInt.Sign b =? -1) = (b <? 0).
Proof. unfold BigInt.Sign. destruct b; reflexivity. Qed.

Lemma digits_value_uint_acc (d : Decimal.uint) (acc : positive) :
  GoStrings.digits_value (Z.pos acc) (DecimalString.NilEmpty.string_of_uint d)
  = Some (Z.pos (Pos.of_uint_acc d acc)).
Proof.
  revert acc. induction d; intros acc; cbn [DecimalString.NilEmpty.string_of_uint Pos.of_uint_acc GoStrings.digits_value]; [reflexivity|..];
  (change (GoStrings.is_digit _) with true; cbv iota;
   match goal with |- GoStrings.digits_value ?a _ = _ =>
     match goal with |- _ = Some (Z.pos (Pos.of_uint_acc _ ?p)) =>
       replace a with (Z.pos p) by (vm_compute (Z.of_N _); lia) end end; apply IHd).
Qed.

Lemma digits_value_uint (d : Decimal.uint) :
  GoStrings.digits_value 0 (DecimalString.NilEmpty.string_of_uint d)
  = Some (Z.of_N (Pos.of_uint d)).
Proof.
  induction d; cbn [DecimalString.NilEmpty.string_of_uint Pos.of_uint GoStrings.digits_value];
    [reflexivity | exact IHd | ..];
    change (GoStrings.is_digit _) with true; cbv iota;
    apply (digits_value_uint_acc d).
Qed.

Lemma digits_uint (d : Decimal.uint) :
  GoStrings.all_chars GoStrings.is_digit (DecimalString.NilEmpty.string_of_uint d) = true.
Proof. induction d; [reflexivity|..]; exact IHd. Qed.

Lemma digits_value_positive (p : positive) :
  GoStrings.digits_value 0 (DecimalString.NilEmpty.string_of_uint (Pos.to_uint p))
  = Some (Z.pos p).
Proof.
  rewrite digits_value_uint. f_equal.
  change (Z.of_uint (Pos.to_uint p) = Z.pos p).
  exact (f_equal Z.of_N (DecimalPos.Unsigned.of_to p)).
Qed.

(** The decimal text of a positive number: digits only, the first of them
    not a zero, so neither a sign nor a hex prefix. *)
Lemma positive_text (p : positive) :
  exists c rest,
    DecimalString.NilEmpty.string_of_uint (Pos.to_uint p) = String c rest
    /\ GoStrings.is_digit c = true
    /\ GoStrings.all_chars GoStrings.is_digit rest = true.
Proof.
  pose proof (digits_uint (Pos.to_uint p)) as Hall.
  pose proof (digits_value_positive p) as Hval.
  destruct (DecimalString.NilEmpty.string_of_uint (Pos.to_uint p)) as [|c rest];
    [discriminate Hval|].
  cbn [GoStrings.all_chars] in Hall. apply andb_true_iff in Hall as [Hc Hrest].
  eauto.
Qed.

Lemma digit_not_sign (c : ascii) (rest : string) :
  GoStrings.is_digit c = true ->
  GoStrings.split_sign (String c rest) = (false, String c rest).
Proof.
  intros Hc. unfold GoStrings.split_sign.
  destruct c as [[] [] [] [] [] [] [] []]; try reflexivity; discriminate Hc.
Qed.

Lemma digits_no_hex_prefix (c : ascii) (rest : string) :
  GoStrings.all_chars GoStrings.is_digit rest = true ->
  GoStrings.HasPrefix (String c rest) "0x" || GoStrings.HasPrefix (String c rest) "0X"
  = false.
Proof.
  intros Hrest. destruct rest as [|c' rest]; cbn [GoStrings.HasPrefix].
  - now rewrite !andb_false_r.
  - cbn [GoStrings.all_chars] in Hrest. apply andb_true_iff in Hrest as [Hc' _].
    assert (Ascii.eqb "x" c' = false /\ Ascii.eqb "X" c' = false) as [-> ->].
    { destruct c' as [[] [] [] [] [] [] [] []]; try (split; reflexivity); discriminate Hc'. }
    now rewrite !andb_false_r.
Qed.

Lemma itoaZ_cases (v : Z) :
  itoaZ v = match v with
            | 0 => "0"
            | Z.pos p => DecimalString.NilEmpty.string_of_uint (Pos.to_uint p)
            | Z.neg p => String "-" (DecimalString.NilEmpty.string_of_uint (Pos.to_uint p))
            end.
Proof.
  destruct v as [|p|p]; [reflexivity|..]; unfold itoaZ; cbn [Z.to_int DecimalString.NilZero.string_of_int];
    unfold DecimalString.NilZero.string_of_uint;
    destruct (positive_text p) as (c & rest & Heq & _);
    destruct (Pos.to_uint p); try reflexivity; discriminate Heq.
Qed.

(** Reading the decimal text of an integer gives the integer back, unless
    it needs more than 256 bits. *)
Lemma ParseBig256_itoaZ (v : Z) :
  GethMath.ParseBig256 (itoaZ v) = if BigInt.BitLen v >? 256 then None else Some v.
Proof.
  rewrite itoaZ_cases. destruct v as [|p|p]; [reflexivity|..];
    destruct (positive_text p) as (c & rest & Heq & Hc & Hrest);
    pose proof (digits_value_positive p) as Hval; rewrite Heq in *.
  - unfold GethMath.ParseBig256. rewrite (digits_no_hex_prefix _ _ Hrest).
    unfold GethMath.SetString. rewrite (digit_not_sign _ _ Hc), Hval. reflexivity.
  - unfold GethMath.ParseBig256.
    replace (GoStrings.HasPrefix (String "-" (String c rest)) "0x"
             || GoStrings.HasPrefix (String "-" (String c rest)) "0X") with false
      by (destruct rest; reflexivity).
    unfold GethMath.SetString. cbn [GoStrings.split_sign]. rewrite Hval. reflexivity.
Qed.

Lemma hex_char_value (n : Z) :
  0 <= n < 16 -> GethMath.hex_digit_value (Hexutil.hex_char n) = Some n.
Proof.
  intros Hn.
  assert (Hcases : In n [0; 1; 2; 3; 4; 5; 6; 7; 8; 9; 10; 11; 12; 13; 14; 15])
    by (cbn [In]; lia).
  cbn [In] in Hcases.
  repeat (destruct Hcases as [<- | Hcases]; [reflexivity|]). destruct Hcases.
Qed.

Lemma hex_value_hex_digits (fuel : nat) (n : Z) (acc : string) :
  0 <= n < 16 ^ Z.of_nat fuel ->
  GethMath.hex_value 0 (hex_digits fuel n acc) = GethMath.hex_value n acc.
Proof.
  revert n acc. induction fuel as [|fuel IH]; intros n acc Hn.
  - change (16 ^ Z.of_nat 0) with 1 in Hn. now replace n with 0 by lia.
  - rewrite Nat2Z.inj_succ, Z.pow_succ_r in Hn by lia.
    pose proof (Z.mod_pos_bound n 16 ltac:(lia)) as Hmod.
    pose proof (Z.div_mod n 16 ltac:(lia)) as Hdiv.
    cbn [hex_digits]. destruct (Z.eqb_spec (n / 16) 0) as [Hzero | Hnz].
    + cbn [GethMath.hex_value]. rewrite (hex_char_value _ Hmod). f_equal. lia.
    + rewrite IH by (split; [apply Z.div_pos; lia | apply Z.div_lt_upper_bound; lia]).
      cbn [GethMath.hex_value]. rewrite (hex_char_value _ Hmod). f_equal. lia.
Qed.

Lemma hex_digits_head (fuel : nat) (n : Z) (acc : string) :
  0 <= n ->
  exists d rest, 0 <= d < 16 /\ hex_digits (S fuel) n acc = String (Hexutil.hex_char d) rest.
Proof.
  revert n acc. induction fuel as [|fuel IH]; intros n acc Hn;
    pose proof (Z.mod_pos_bound n 16 ltac:(lia)) as Hmod.
  - cbn [hex_digits]. destruct (n / 16 =? 0); eauto.
  - change (hex_digits (S (S fuel)) n acc)
      with (if n / 16 =? 0 then String (Hexutil.hex_char (n mod 16)) acc
            else hex_digits (S fuel) (n / 16) (String (Hexutil.hex_char (n mod 16)) acc)).
    destruct (n / 16 =? 0); [eauto|]. apply IH. apply Z.div_pos; lia.
Qed.

Lemma hex_char_not_sign (d : Z) (rest : string) :
  0 <= d < 16 ->
  GoStrings.split_sign (String (Hexutil.hex_char d) rest)
  = (false, String (Hexutil.hex_char d) rest).
Proof.
  intros Hd.
  assert (Hcases : In d [0; 1; 2; 3; 4; 5; 6; 7; 8; 9; 10; 11; 12; 13; 14; 15])
    by (cbn [In]; lia).
  cbn [In] in Hcases.
  repeat (destruct Hcases as [<- | Hcases]; [reflexivity|]). destruct Hcases.
Qed.

(** Reading the [0x] hex text of a non-negative integer gives the integer
    back, unless it needs more than 256 bits. *)
Lemma ParseBig256_hex (v : Z) :
  0 <= v ->
  GethMath.ParseBig256 ("0x" ++ hex_of_Z v)
  = if BigInt.BitLen v >? 256 then None else Some v.
Proof.
  intros Hv. unfold hex_of_Z. rewrite Z.abs_eq by lia.
  destruct (Z.ltb_spec v 0) as [Hneg | _]; [lia|].
  set (fuel := Z.to_nat (Z.log2 v)).
  assert (Hbound : 0 <= v < 16 ^ Z.of_nat (S fuel)).
  { split; [exact Hv|]. subst fuel.
    destruct (Z.eqb_spec v 0) as [-> | Hnz]; [reflexivity|].
    pose proof (Z.log2_nonneg v) as Hlog.
    assert (v < 2 ^ Z.succ (Z.log2 v)) by (apply Z.log2_spec; lia).
    rewrite Nat2Z.inj_succ, Z2Nat.id by lia.
    assert (2 ^ Z.succ (Z.log2 v) <= 16 ^ Z.succ (Z.log2 v))
      by (apply Z.pow_le_mono_l; lia).
    lia. }
  pose proof (hex_value_hex_digits (S fuel) v "" Hbound) as Hval.
  destruct (hex_digits_head fuel v "" Hv) as (d & rest & Hd & Heq).
  rewrite Heq in *.
  change ("0x" ++ String (Hexutil.hex_char d) rest)
    with (String "0" (String "x" (String (Hexutil.hex_char d) rest))).
  unfold GethMath.ParseBig256.
  change (GoStrings.HasPrefix (String "0" (String "x" (String (Hexutil.hex_char d) rest))) "0x")
    with true.
  cbn [orb GoStrings.drop_chars].
  unfold GethMath.SetString. rewrite (hex_char_not_sign _ _ Hd), Hval.
  reflexivity.
Qed.

(** A float whose value is the integer [v] is integral and truncates to
    [v]; it converts to [int64] exactly when [v] is within [int64]. *)
Lemma float64_int64_represents (f : spec_float) (v : Z) :
  float64_represents f v ->
  float64_int64 f = if (- 2 ^ 63 <=? v) && (v <? 2 ^ 63) then Some v else None.
Proof.
  unfold float64_represents, float64_int64, float64_trunc, float64_is_integral.
  destruct f as [s | s | | s m e]; try easy.
  - intros ->. reflexivity.
  - cbv zeta. destruct (Z.leb_spec 0 e) as [Hpos | Hneg]; intros Hv.
    + cbn [orb andb].
      replace (if s then - (Z.pos m * 2 ^ e) else Z.pos m * 2 ^ e) with v
        by (destruct s; lia).
      reflexivity.
    + assert (Hpow : 0 < 2 ^ (- e)) by (apply Z.pow_pos_nonneg; lia).
      assert (Hm : Z.pos m = Z.abs v * 2 ^ (- e)).
      { destruct s; [|rewrite Hv]; nia. }
      rewrite Hm, Z.mod_mul, Z.div_mul by lia. cbn [orb andb Z.eqb].
      replace (if s then - Z.abs v else Z.abs v) with v; [reflexivity|].
      destruct s; nia.
Qed.

(** What the type switch of [parseInteger] makes of a carrier of [v]. *)
Lemma carries_integer_value (encType : string) (encValue : Value) (v : Z) :
  carries v encValue ->
  match integer_value encType encValue with
  | Ok (Some b) => b = v /\ within_int64 encValue v
  | Ok None => False
  | Err _ => BigInt.BitLen v > 256 \/ ~ within_int64 encValue v
  end.
Proof.
  intros [ | | Hv | f Hf]; cbn [integer_value within_int64].
  - auto.
  - rewrite ParseBig256_itoaZ.
    destruct (Z.gtb_spec (BigInt.BitLen v) 256); [left; lia | auto].
  - rewrite (ParseBig256_hex v Hv).
    destruct (Z.gtb_spec (BigInt.BitLen v) 256); [left; lia | auto].
  - rewrite (float64_int64_represents f v Hf).
    destruct (Z.leb_spec (- 2 ^ 63) v); destruct (Z.ltb_spec v (2 ^ 63));
      cbn [andb]; first [split; [reflexivity | lia] | right; lia].
Qed.

(** [parseInteger] on a carrier of [v], for an integer spelling of the
    registry: [v] itself when it fits, an error otherwise. *)
Lemma carries_parseInteger encType signed N encValue v :
  In (encType, signed, N) integer_types ->
  carries v encValue ->
  (parseInteger encType encValue = Ok v
   /\ BigInt.BitLen v <= N /\ (signed = false -> 0 <= v) /\ within_int64 encValue v)
  \/ ((exists err, parseInteger encType encValue = Err err)
      /\ (BigInt.BitLen v > N \/ (signed = false /\ v < 0) \/ ~ within_int64 encValue v)).
Proof.
  intros Hin Hcarries.
  destruct (integer_types_dispatch _ _ _ Hin) as (Hlen & Hsigned & HN & _).
  pose proof (carries_integer_value encType encValue v Hcarries) as Hvalue.
  unfold parseInteger. rewrite Hlen, Hsigned.
  destruct (integer_value encType encValue) as [[b|] | err]; [| easy |].
  - destruct Hvalue as [-> Hwithin]. rewrite Sign_negative.
    destruct (Z.gtb_spec (BigInt.BitLen v) N) as [Hgt | Hle]; [right; split; [eauto | left; lia]|].
    destruct signed; cbn [negb andb].
    + left. split; [reflexivity|]. split; [lia|]. split; [easy | exact Hwithin].
    + destruct (Z.ltb_spec v 0); [right; split; [eauto | right; left; split; [reflexivity | lia]]|].
      left. split; [reflexivity|]. split; [lia|]. split; [lia | exact Hwithin].
  - right. split; [eauto|]. destruct Hvalue as [Hbits | Hout]; [left; lia | auto].
Qed.

(** C2 (as stated, refuted): 2^63 has 64 bits and is not negative, yet
    [uint64] rejects the float64 whose value is 2^63: the conversion to
    [int64] is not lossless there. *)
Lemma uint64_float_rejected :
  float64_represents (S754_finite false 4503599627370496 11) (2 ^ 63)
  /\ BigInt.BitLen (2 ^ 63) <= 64
  /\ 0 <= 2 ^ 63
  /\ EncodePrimitiveValue "uint64" (VFloat64 (S754_finite false 4503599627370496 11)) 1
     = Err (InvalidFloatValue (S754_finite false 4503599627370496 11) "uint64").
Proof. repeat split; vm_compute; try reflexivity; discriminate. Qed.

(** C2 (amended): for every integer spelling of the registry, of declared
    width N, and every integer v carried as a big-integer object, as its
    decimal text, as its [0x] hex text or as a float64 of that value: when
    bitLen(v) <= N, v >= 0 for an unsigned type, and for a float64 carrier
    v is within [int64], [EncodePrimitiveValue] returns exactly 32 bytes,
    the big-endian digits of v modulo 2^256 (two's complement for a
    negative v); when bitLen(v) > N, or v < 0 under an unsigned type, or a
    float64 carrier holds a v outside [int64], it fails. *)
Theorem integer_width_law (encType : string) (signed : bool) (N : Z)
    (encValue : Value) (v : Z) (depth : Z) :
  In (encType, signed, N) integer_types ->
  carries v encValue ->
  (BigInt.BitLen v <= N -> (signed = false -> 0 <= v) -> within_int64 encValue v ->
   exists word,
     EncodePrimitiveValue encType encValue depth = Ok word
     /\ List.length word = 32%nat
     /\ word = BigInt.be_bytes 32 (v mod 2 ^ 256)
     /\ BigInt.SetBytes word = v mod 2 ^ 256)
  /\ (BigInt.BitLen v > N \/ (signed = false /\ v < 0) \/ ~ within_int64 encValue v ->
      exists err, EncodePrimitiveValue encType encValue depth = Err err).
Proof.
  intros Hin Hcarries.
  destruct (integer_types_dispatch _ _ _ Hin) as (_ & _ & _ & Hdispatch).
  rewrite Hdispatch.
  destruct (carries_parseInteger _ _ _ _ _ Hin Hcarries)
    as [(-> & Hbits & Hsign & Hwithin) | ([err ->] & Hout)].
  - split.
    + intros _ _ _. eexists. split; [reflexivity|].
      rewrite U256Bytes_spec. split; [apply be_bytes_length|]. split; [reflexivity|].
      rewrite SetBytes_be_bytes. change (256 ^ Z.of_nat 32) with (2 ^ 256).
      apply Z.mod_small, Z.mod_pos_bound. lia.
    + intros [Hgt | [[Hunsigned Hneg] | Hnot]];
        [lia | specialize (Hsign Hunsigned); lia | easy].
  - split; [|eauto].
    intros Hbits Hsign Hwithin.
    destruct Hout as [Hgt | [[Hunsigned Hneg] | Hnot]];
      [lia | specialize (Hsign Hunsigned); lia | easy].
Qed.

Lemma integer_width_law_witness :
  (exists word,
     EncodePrimitiveValue "uint8" (VHexOrDecimal256 (Some 255)) 1 = Ok word
     /\ List.length word = 32%nat
     /\ word = BigInt.be_bytes 32 (255 mod 2 ^ 256)
     /\ BigInt.SetBytes word = 255 mod 2 ^ 256)
  /\ (exists word,
        EncodePrimitiveValue "int16" (VString "-255") 1 = Ok word
        /\ List.length word = 32%nat
        /\ word = BigInt.be_bytes 32 (-255 mod 2 ^ 256)
        /\ BigInt.SetBytes word = -255 mod 2 ^ 256)
  /\ (exists word,
        EncodePrimitiveValue "uint8" (VFloat64 (S754_finite false 8972014882652160 (-45))) 1
        = Ok word
        /\ List.length word = 32%nat
        /\ word = BigInt.be_bytes 32 (255 mod 2 ^ 256)
        /\ BigInt.SetBytes word = 255 mod 2 ^ 256)
  /\ (exists err, EncodePrimitiveValue "uint8" (VString "0x100") 1 = Err err)
  /\ (exists err,
        EncodePrimitiveValue "uint64" (VFloat64 (S754_finite false 4503599627370496 11)) 1
        = Err err).
Proof.
  split; [|split; [|split; [|split]]].
  - apply (integer_width_law "uint8" false 8 (VHexOrDecimal256 (Some 255)) 255 1).
    + vm_compute. tauto.
    + exact (carries_object 255).
    + vm_compute. discriminate.
    + lia.
    + exact I.
  - apply (integer_width_law "int16" true 16 (VString "-255") (-255) 1).
    + vm_compute. tauto.
    + exact (carries_decimal (-255)).
    + vm_compute. discriminate.
    + discriminate.
    + exact I.
  - apply (integer_width_law "uint8" false 8
             (VFloat64 (S754_finite false 8972014882652160 (-45))) 255 1).
    + vm_compute. tauto.
    + apply carries_float. vm_compute. reflexivity.
    + vm_compute. discriminate.
    + lia.
    + cbn [within_int64]. lia.
  - apply (integer_width_law "uint8" false 8 (VString "0x100") 256 1).
    + vm_compute. tauto.
    + exact (carries_hex 256 ltac:(lia)).
    + left. vm_compute. reflexivity.
  - apply (integer_width_law "uint64" false 64
             (VFloat64 (S754_finite false 4503599627370496 11)) (2 ^ 63) 1).
    + vm_compute. tauto.
    + apply carries_float. vm_compute. reflexivity.
    + right. right. cbn [within_int64]. lia.
Defined.

(** The particular cases named with the width law: [uint8] accepts 255,
    with a word ending in 0xff, and rejects 256. *)
Lemma uint8_255_and_256 :
  EncodePrimitiveValue "uint8" (VHexOrDecimal256 (Some 255)) 1
  = Ok (repeat x00 31 ++ [xff])%list
  /\ EncodePrimitiveValue "uint8" (VHexOrDecimal256 (Some 256)) 1
     = Err (Errorf "integer larger than 'uint8'").
Proof. split; vm_compute; reflexivity. Qed.

(* ===================================================================== *)
(** ** The [bytesN] branch *)
(* ===================================================================== *)

Lemma HasPrefix_split (s prefix : string) :
  GoStrings.HasPrefix s prefix = true ->
  s = prefix ++ GoStrings.drop_chars (String.length prefix) s.
Proof.
  revert s. induction prefix as [|p prefix IH]; intros s H; [reflexivity|].
  destruct s as [|c s]; [discriminate|]. simpl in H.
  apply andb_true_iff in H as [Hc Hs]. apply Ascii.eqb_eq in Hc as ->.
  change (String c s
          = String c (prefix ++ GoStrings.drop_chars (String.length prefix) s)).
  f_equal. now apply IH.
Qed.

Lemma HasPrefix_app (prefix rest : string) :
  GoStrings.HasPrefix (prefix ++ rest) prefix = true.
Proof.
  induction prefix as [|p prefix IH]; [destruct rest; reflexivity|].
  change (Ascii.eqb p p && GoStrings.HasPrefix (prefix ++ rest) prefix = true).
  now rewrite Ascii.eqb_refl.
Qed.

Lemma drop_chars_app (prefix rest : string) :
  GoStrings.drop_chars (String.length prefix) (prefix ++ rest) = rest.
Proof. induction prefix as [|p prefix IH]; [reflexivity | exact IH]. Qed.

(** What the [bytesN] branch computes: whatever size N the spelling
    declares (from 0 to 32), a value of up to 32 bytes is accepted and
    written at the low-order end of the word, behind the zero bytes.  The
    declared size is compared with 0 and 32 only, never with the value. *)
Lemma fixed_bytes_left_padded (size : string) (n : Z) (byteValue : list byte) (depth : Z) :
  size <> "" ->
  GoStrings.Atoi size = Some n ->
  0 <= n <= 32 ->
  (List.length byteValue <= 32)%nat ->
  EncodePrimitiveValue ("bytes" ++ size) (VHexBytes byteValue) depth
  = Ok (repeat x00 (32 - List.length byteValue) ++ byteValue)%list.
Proof.
  intros Hsize Hatoi Hn Hlen. unfold EncodePrimitiveValue.
  assert (Hnot : String.eqb ("bytes" ++ size) "bytes" = false).
  { change (String.eqb size "" = false). destruct size; [congruence | reflexivity]. }
  rewrite Hnot.
  change (String.eqb ("bytes" ++ size) "address") with false.
  change (String.eqb ("bytes" ++ size) "bool") with false.
  change (String.eqb ("bytes" ++ size) "string") with false.
  rewrite HasPrefix_app. cbv iota.
  unfold encode_fixed_bytes, GoStrings.TrimPrefix.
  rewrite HasPrefix_app, drop_chars_app, Hatoi.
  destruct (Z.ltb_spec n 0); [lia|]. destruct (Z.gtb_spec n 32); [lia|].
  cbn [orb]. f_equal.
  pose proof (SetBytes_range byteValue) as Hrange.
  assert (256 ^ Z.of_nat (List.length byteValue) <= 256 ^ 32)
    by (apply Z.pow_le_mono_r; lia).
  change (256 ^ 32) with (2 ^ 256) in *.
  rewrite PaddedBigBytes_32 by lia. now apply be_bytes_SetBytes.
Qed.

(** C3 (failing input): a [bytes4] value of four bytes is written into the
    last four bytes of the word, not the first four. *)
Theorem bytes4_written_at_low_end :
  EncodePrimitiveValue "bytes4" (VHexBytes [xde; xad; xbe; xef]) 1
  = Ok (repeat x00 28 ++ [xde; xad; xbe; xef])%list
  /\ (repeat x00 28 ++ [xde; xad; xbe; xef])%list
     <> ([xde; xad; xbe; xef] ++ repeat x00 28)%list.
Proof. split; [vm_compute; reflexivity | discriminate]. Qed.

(** C4 (failing input): a [bytes1] value of two bytes is accepted, and a
    value of 33 bytes is accepted with a result of 33 bytes. *)
Theorem bytes1_accepts_longer_values :
  EncodePrimitiveValue "bytes1" (VHexBytes [x01; x02]) 1
  = Ok (repeat x00 30 ++ [x01; x02])%list
  /\ EncodePrimitiveValue "bytes1" (VHexBytes (repeat xff 33)) 1
     = Ok (repeat xff 33).
Proof. split; vm_compute; reflexivity. Qed.

(* ===================================================================== *)
(** ** The registry is enforced by the validator, not by the encoder *)
(* ===================================================================== *)

Lemma first_error_None {A} (check : A -> option error) (l : list A) (x : A) :
  TypesM.first_error check l = None -> In x l -> check x = None.
Proof.
  induction l as [|y l IH]; simpl; [easy|].
  destruct (check y) eqn:Hy; [easy|]. intros Hrest [<- | Hin]; auto.
Qed.

Lemma validate_fields_None (t : Types) typeKey i typeArr typeObj :
  TypesM.validate_fields t typeKey i typeArr = None ->
  In typeObj typeArr ->
  exists j, TypesM.validate_field t typeKey j typeObj = None.
Proof.
  revert i. induction typeArr as [|f typeArr IH]; intros i; simpl; [easy|].
  destruct (TypesM.validate_field t typeKey i f) eqn:Hf; [easy|].
  intros Hrest [<- | Hin]; eauto.
Qed.

(** A dictionary that passes validation has, under every key, only
    descriptors that pass the checks of the source. *)
Lemma Types_validate_field (t : Types) typeKey typeArr typeObj :
  TypesM.validate t = None ->
  t !! typeKey = Some typeArr ->
  In typeObj (elems typeArr) ->
  exists j, TypesM.validate_field t typeKey j typeObj = None.
Proof.
  intros Hval Hkey Hin. unfold TypesM.validate in Hval.
  assert (Hentry : TypesM.validate_entry t (typeKey, typeArr) = None).
  { apply (first_error_None _ _ _ Hval).
    apply list_elem_of_In. now apply elem_of_map_to_list. }
  unfold TypesM.validate_entry in Hentry.
  destruct (String.length typeKey =? 0)%nat; [easy|].
  eapply validate_fields_None; eauto.
Qed.

Lemma validate_field_primitive (t : Types) typeKey j typeObj :
  TypesM.validate_field t typeKey j typeObj = None ->
  isReferenceType typeObj = false ->
  isPrimitiveTypeValid (Typ typeObj) = true.
Proof.
  unfold TypesM.validate_field, isReferenceType.
  destruct (String.length (Typ typeObj) =? 0)%nat; [easy|].
  destruct (String.length (Name typeObj) =? 0)%nat; [easy|].
  destruct (String.eqb typeKey (Typ typeObj)); [easy|].
  destruct (leading (Typ typeObj)); try easy;
    destruct (isPrimitiveTypeValid (Typ typeObj)); easy.
Qed.

(** In a validated dictionary no field type is empty, so the index
    expression at the head of the field loop of [EncodeData] is defined. *)
Lemma validate_field_nonempty (t : Types) typeKey j typeObj :
  TypesM.validate_field t typeKey j typeObj = None -> Typ typeObj <> "".
Proof.
  unfold TypesM.validate_field. intros Hval Hempty. rewrite Hempty in Hval.
  discriminate Hval.
Qed.

Lemma validated_field_type_nonempty typedData typeKey typeArr typeObj :
  TypedData_validate typedData = None ->
  types typedData !! typeKey = Some typeArr ->
  In typeObj (elems typeArr) ->
  GoStrings.last_char (Typ typeObj) <> None.
Proof.
  unfold TypedData_validate. intros Hval Hkey Hin.
  destruct (TypesM.validate (types typedData)) eqn:Htypes; [easy|].
  destruct (Types_validate_field _ _ _ _ Htypes Hkey Hin) as [j Hj].
  apply validate_field_nonempty in Hj.
  destruct (Typ typeObj) as [|c rest]; [easy|]. clear Hj.
  revert c. induction rest as [|c' rest IH]; intros c; [easy|]. apply (IH c').
Qed.

Lemma EncodePrimitiveValue_Ok_shape encType encValue depth word :
  EncodePrimitiveValue encType encValue depth = Ok word -> primitive_shape encType.
Proof.
  unfold EncodePrimitiveValue, primitive_shape.
  destruct (String.eqb_spec encType "address"); [auto|].
  destruct (String.eqb_spec encType "bool"); [auto|].
  destruct (String.eqb_spec encType "string"); [auto|].
  destruct (String.eqb_spec encType "bytes"); [auto|].
  destruct (GoStrings.HasPrefix encType "bytes") eqn:Hbytes.
  - unfold encode_fixed_bytes, GoStrings.TrimPrefix. rewrite Hbytes.
    destruct (GoStrings.Atoi _) as [length|] eqn:Hatoi; [|easy].
    destruct (Z.ltb_spec length 0); [easy|]. destruct (Z.gtb_spec length 32); [easy|].
    intros _. do 4 right. left.
    exists (GoStrings.drop_chars (String.length "bytes") encType), length.
    split; [now apply HasPrefix_split|]. split; [exact Hatoi | lia].
  - destruct (GoStrings.HasPrefix encType "int") eqn:Hint;
      destruct (GoStrings.HasPrefix encType "uint") eqn:Huint; cbn [orb]; try easy;
      unfold parseInteger, integer_length;
      (destruct (String.eqb_spec encType "int"); [auto 10|]);
      (destruct (String.eqb_spec encType "uint"); [auto 10|]);
      cbn [orb]; rewrite Huint; unfold GoStrings.TrimPrefix; rewrite ?Hint, ?Huint;
      (destruct (GoStrings.Atoi _) as [atoiSize|] eqn:Hatoi; [|easy]);
      intros _; do 7 right.
    + exists (GoStrings.drop_chars (String.length "uint") encType), atoiSize.
      split; [right; now apply HasPrefix_split | exact Hatoi].
    + exists (GoStrings.drop_chars (String.length "int") encType), atoiSize.
      split; [left; now apply HasPrefix_split | exact Hatoi].
    + exists (GoStrings.drop_chars (String.length "uint") encType), atoiSize.
      split; [right; now apply HasPrefix_split | exact Hatoi].
Qed.

Lemma scalar_registry_shape (encType : string) :
  In encType scalar_registry -> primitive_shape encType.
Proof.
  unfold scalar_registry, primitive_shape. intros Hin.
  repeat (destruct Hin as [<- | Hin];
          [first
             [ now left
             | now (right; left)
             | now (do 2 right; left)
             | now (do 3 right; left)
             | now (do 5 right; left)
             | now (do 6 right; left)
             | do 4 right; left; eexists _, _;
               split; [reflexivity|]; split; [vm_compute; reflexivity | lia]
             | do 7 right; eexists _, _;
               split; [left; reflexivity | vm_compute; reflexivity]
             | do 7 right; eexists _, _;
               split; [right; reflexivity | vm_compute; reflexivity] ]
          |]).
  destruct Hin.
Qed.

(** C5 (as stated, refuted): [uint24] and [bytes0] are outside the
    registry, yet the primitive encoder encodes values under them. *)
Lemma EncodePrimitiveValue_outside_registry :
  isPrimitiveTypeValid "uint24" = false
  /\ EncodePrimitiveValue "uint24" (VHexOrDecimal256 (Some 5)) 1
     = Ok (repeat x00 31 ++ [x05])%list
  /\ isPrimitiveTypeValid "bytes0" = false
  /\ EncodePrimitiveValue "bytes0" (VHexBytes [x01]) 1
     = Ok (repeat x00 31 ++ [x01])%list.
Proof. repeat split; vm_compute; reflexivity. Qed.

(** Outside the primitive shapes the error is fixed by the spelling alone:
    the value is never looked at. *)
Lemma EncodePrimitiveValue_shape_error (encType : string) :
  ~ primitive_shape encType ->
  exists err, forall encValue depth,
    EncodePrimitiveValue encType encValue depth = Err err.
Proof.
  intros Hshape. unfold primitive_shape in Hshape. unfold EncodePrimitiveValue.
  destruct (String.eqb_spec encType "address"); [tauto|].
  destruct (String.eqb_spec encType "bool"); [tauto|].
  destruct (String.eqb_spec encType "string"); [tauto|].
  destruct (String.eqb_spec encType "bytes"); [tauto|].
  destruct (GoStrings.HasPrefix encType "bytes") eqn:Hbytes.
  - unfold encode_fixed_bytes, GoStrings.TrimPrefix. rewrite Hbytes.
    destruct (GoStrings.Atoi _) as [length|] eqn:Hatoi; [|eauto].
    destruct (Z.ltb_spec length 0); [eauto|]. destruct (Z.gtb_spec length 32); [eauto|].
    exfalso. apply Hshape. do 4 right. left.
    exists (GoStrings.drop_chars (String.length "bytes") encType), length.
    split; [now apply HasPrefix_split|]. split; [exact Hatoi | lia].
  - destruct (GoStrings.HasPrefix encType "int") eqn:Hint;
      destruct (GoStrings.HasPrefix encType "uint") eqn:Huint; cbn [orb]; [| | |eauto];
      unfold parseInteger, integer_length;
      (destruct (String.eqb_spec encType "int"); [tauto|]);
      (destruct (String.eqb_spec encType "uint"); [tauto|]);
      cbn [orb]; rewrite Huint; unfold GoStrings.TrimPrefix; rewrite ?Hint, ?Huint;
      (destruct (GoStrings.Atoi _) as [atoiSize|] eqn:Hatoi; [|eauto]);
      exfalso; apply Hshape; do 7 right.
    + exists (GoStrings.drop_chars (String.length "uint") encType), atoiSize.
      split; [right; now apply HasPrefix_split | exact Hatoi].
    + exists (GoStrings.drop_chars (String.length "int") encType), atoiSize.
      split; [left; now apply HasPrefix_split | exact Hatoi].
    + exists (GoStrings.drop_chars (String.length "uint") encType), atoiSize.
      split; [right; now apply HasPrefix_split | exact Hatoi].
Qed.

(** C5 (amended): [EncodePrimitiveValue] does not consult the registry.
    It succeeds only for a spelling of primitive shape (one of address,
    bool, string, bytes; bytes with a decimal size from 0 to 32; int or
    uint, bare or with a decimal size), which every scalar spelling of the
    registry has; for every other spelling it fails for every value,
    without consulting the value: the error is fixed by the spelling.
    The registry is enforced by the dictionary validator: in a dictionary
    that passes validation every field type that is not a reference type
    satisfies [isPrimitiveTypeValid]. *)
Theorem EncodePrimitiveValue_closure :
  (forall encType encValue depth word,
      EncodePrimitiveValue encType encValue depth = Ok word ->
      primitive_shape encType)
  /\ (forall encType,
        ~ primitive_shape encType ->
        exists err, forall encValue depth,
          EncodePrimitiveValue encType encValue depth = Err err)
  /\ (forall encType, In encType scalar_registry -> primitive_shape encType)
  /\ (forall (t : Types) typeKey typeArr typeObj,
        TypesM.validate t = None ->
        t !! typeKey = Some typeArr ->
        In typeObj (elems typeArr) ->
        isReferenceType typeObj = false ->
        isPrimitiveTypeValid (Typ typeObj) = true).
Proof.
  split; [exact EncodePrimitiveValue_Ok_shape|].
  split; [exact EncodePrimitiveValue_shape_error|].
  split; [exact scalar_registry_shape|].
  intros t typeKey typeArr typeObj Hval Hkey Hin Href.
  destruct (Types_validate_field t typeKey typeArr typeObj Hval Hkey Hin) as [j Hj].
  now apply (validate_field_primitive t typeKey j).
Qed.

Lemma EncodePrimitiveValue_closure_witness :
  primitive_shape "uint8"
  /\ (exists err, forall encValue depth,
        EncodePrimitiveValue "bytes33" encValue depth = Err err)
  /\ (exists err, forall encValue depth,
        EncodePrimitiveValue "uint8[]" encValue depth = Err err)
  /\ isPrimitiveTypeValid
       (Typ (mkType "amount" "uint256")) = true.
Proof.
  split; [|split; [|split]].
  - apply (proj1 EncodePrimitiveValue_closure
                 "uint8" (VHexOrDecimal256 (Some 255)) 1
                 (repeat x00 31 ++ [xff])%list).
    vm_compute. reflexivity.
  - apply (proj1 (proj2 EncodePrimitiveValue_closure) "bytes33").
    unfold primitive_shape.
    intros [H | [H | [H | [H | [H | [H | [H | H]]]]]]]; try discriminate H.
    + destruct H as (size & n & Heq & Hatoi & Hn).
      vm_compute in Heq. injection Heq as <-. vm_compute in Hatoi.
      injection Hatoi as <-. lia.
    + destruct H as (size & n & [Heq | Heq] & _); vm_compute in Heq; discriminate Heq.
  - apply (proj1 (proj2 EncodePrimitiveValue_closure) "uint8[]").
    unfold primitive_shape.
    intros [H | [H | [H | [H | [H | [H | [H | H]]]]]]]; try discriminate H.
    + destruct H as (size & n & Heq & _). vm_compute in Heq. discriminate Heq.
    + destruct H as (size & n & [Heq | Heq] & Hatoi); vm_compute in Heq;
        [discriminate Heq|]. injection Heq as <-. vm_compute in Hatoi.
      discriminate Hatoi.
  - apply (proj2 (proj2 (proj2 EncodePrimitiveValue_closure))
                 (<["Order" := Some [mkType "amount" "uint256"]]> ∅)
                 "Order" (Some [mkType "amount" "uint256"])
                 (mkType "amount" "uint256")).
    + vm_compute. reflexivity.
    + vm_compute. reflexivity.
    + now left.
    + reflexivity.
Defined.

(* ===================================================================== *)
(** ** The recursion of [Dependencies] is bounded by the dictionary *)
(* ===================================================================== *)

Section DependenciesFuel.

Variable typedData : TypedData.

Lemma includes_app (found l : list string) (k : string) :
  includes (found ++ l)%list k = includes found k || includes l k.
Proof.
  induction found as [|x found IH]; simpl; [reflexivity|].
  destruct (String.eqb x k); [reflexivity | exact IH].
Qed.

Lemma append_new_includes (found deps : list string) (k : string) :
  includes found k = true -> includes (append_new found deps) k = true.
Proof.
  revert found. induction deps as [|dep deps IH]; intros found Hk; simpl; [exact Hk|].
  destruct (includes found dep); apply IH; [exact Hk|].
  rewrite includes_app, Hk. reflexivity.
Qed.

Lemma unvisited_mono (found found' : list string) :
  (forall k, includes found k = true -> includes found' k = true) ->
  (size (unvisited (types typedData) found')
   <= size (unvisited (types typedData) found))%nat.
Proof.
  intros Hsub. apply map_subseteq_size, map_filter_subseteq_ext.
  intros k slice _ [Hslice Hk]. split; [exact Hslice|]. simpl in *.
  destruct (includes found k) eqn:Hfound; [|reflexivity].
  apply Hsub in Hfound. congruence.
Qed.

Lemma unvisited_append (found : list string) (primaryType : string) fields :
  Types_get (types typedData) primaryType = Some fields ->
  includes found primaryType = false ->
  (size (unvisited (types typedData) (found ++ [primaryType])%list)
   < size (unvisited (types typedData) found))%nat.
Proof.
  intros Hget Hnew. apply map_subset_size, map_subset_alt. split.
  - apply map_filter_subseteq_ext. intros k slice _ [Hslice Hk].
    split; [exact Hslice|]. simpl in *.
    rewrite includes_app in Hk. now apply orb_false_iff in Hk.
  - exists primaryType. unfold Types_get in Hget.
    destruct (types typedData !! primaryType) as [slice|] eqn:Hkey; [|easy].
    subst slice. split.
    + apply map_lookup_filter_None. right. intros slice Hslice [_ Hk]. simpl in Hk.
      rewrite includes_app in Hk. simpl in Hk. rewrite String.eqb_refl in Hk.
      now rewrite orb_true_r in Hk.
    + exists (Some fields). apply map_lookup_filter_Some. split; [exact Hkey|].
      split; [now eexists | exact Hnew].
Qed.

Lemma dependencies_of_fields_total (fuel : nat)
    (rec : string -> list string -> option (list string)) :
  (forall pt found,
      (size (unvisited (types typedData) found) < fuel)%nat ->
      exists deps, rec pt found = Some deps) ->
  forall fields found,
    (size (unvisited (types typedData) found) < fuel)%nat ->
    exists deps, dependencies_of_fields rec fields found = Some deps.
Proof.
  intros Hrec fields. induction fields as [|field fields IH]; intros found Hfuel; simpl;
    [eauto|].
  destruct (Hrec (Typ field) found Hfuel) as [deps ->].
  apply IH. eapply Nat.le_lt_trans; [|exact Hfuel].
  apply unvisited_mono. intros k. apply append_new_includes.
Qed.

(** Enough fuel gives a result. *)
Lemma Dependencies_fuel_total (fuel : nat) (primaryType : string) (found : list string) :
  (size (unvisited (types typedData) found) < fuel)%nat ->
  exists deps, Dependencies_fuel fuel typedData primaryType found = Some deps.
Proof.
  revert primaryType found.
  induction fuel as [|fuel IH]; intros primaryType found Hfuel; [lia|]. simpl.
  destruct (includes found primaryType) eqn:Hfound; [eauto|].
  destruct (Types_get (types typedData) primaryType) as [fields|] eqn:Hget; [|eauto].
  apply (dependencies_of_fields_total fuel); [exact IH|].
  pose proof (unvisited_append found primaryType fields Hget Hfound). lia.
Qed.

Lemma dependencies_of_fields_mono
    (rec1 rec2 : string -> list string -> option (list string)) :
  (forall pt found deps, rec1 pt found = Some deps -> rec2 pt found = Some deps) ->
  forall fields found deps,
    dependencies_of_fields rec1 fields found = Some deps ->
    dependencies_of_fields rec2 fields found = Some deps.
Proof.
  intros Hle fields. induction fields as [|field fields IH]; intros found deps; simpl;
    [easy|].
  destruct (rec1 (Typ field) found) as [d|] eqn:Hrec; [|easy].
  rewrite (Hle _ _ _ Hrec). apply IH.
Qed.

Lemma Dependencies_fuel_mono (fuel fuel' : nat) primaryType found deps :
  (fuel <= fuel')%nat ->
  Dependencies_fuel fuel typedData primaryType found = Some deps ->
  Dependencies_fuel fuel' typedData primaryType found = Some deps.
Proof.
  revert fuel' primaryType found deps.
  induction fuel as [|fuel IH]; intros fuel' primaryType found deps Hle; simpl; [easy|].
  destruct fuel' as [|fuel']; [lia|]. simpl.
  destruct (includes found primaryType); [easy|].
  destruct (Types_get (types typedData) primaryType); [|easy].
  apply dependencies_of_fields_mono. intros pt f d. apply IH. lia.
Qed.

Lemma unvisited_size (found : list string) :
  (size (unvisited (types typedData) found) <= size (types typedData))%nat.
Proof. apply map_subseteq_size, map_filter_subseteq. Qed.

(** With enough fuel the result is the one of [Dependencies]. *)
Lemma Dependencies_fuel_spec (fuel : nat) primaryType found deps :
  Dependencies_fuel fuel typedData primaryType found = Some deps ->
  Dependencies typedData primaryType found = deps.
Proof.
  intros Hfuel. unfold Dependencies.
  destruct (Dependencies_fuel_total (S (size (types typedData))) primaryType found)
    as [deps' Hdeps']; [pose proof (unvisited_size found); lia|].
  rewrite Hdeps'.
  destruct (Nat.le_ge_cases fuel (S (size (types typedData)))) as [Hle | Hle].
  - apply (Dependencies_fuel_mono _ _ _ _ _ Hle) in Hfuel. congruence.
  - apply (Dependencies_fuel_mono _ _ _ _ _ Hle) in Hdeps'. congruence.
Qed.

Lemma Dependencies_fuel_S (fuel : nat) primaryType found :
  Dependencies_fuel (S fuel) typedData primaryType found
  = if includes found primaryType then Some found
    else match Types_get (types typedData) primaryType with
         | None => Some found
         | Some fields =>
             dependencies_of_fields (Dependencies_fuel fuel typedData)
                                    fields (found ++ [primaryType])%list
         end.
Proof. reflexivity. Qed.

Lemma dependencies_of_fields_fold
    (rec : string -> list string -> option (list string))
    (total : string -> list string -> list string) :
  (forall pt found, rec pt found = Some (total pt found)) ->
  forall fields found,
    dependencies_of_fields rec fields found
    = Some (fold_left (fun found field => append_new found (total (Typ field) found))
                      fields found).
Proof.
  intros Hrec fields. induction fields as [|field fields IH]; intros found; simpl;
    [reflexivity|].
  rewrite Hrec. apply IH.
Qed.

(** [Dependencies] satisfies the recursive equation of the source. *)
Lemma Dependencies_unfold primaryType found :
  Dependencies typedData primaryType found
  = if includes found primaryType then found
    else match Types_get (types typedData) primaryType with
         | None => found
         | Some fields =>
             fold_left
               (fun found field =>
                  append_new found (Dependencies typedData (Typ field) found))
               fields (found ++ [primaryType])%list
         end.
Proof.
  assert (Hrec : forall pt found',
             Dependencies_fuel (S (size (types typedData))) typedData pt found'
             = Some (Dependencies typedData pt found')).
  { intros pt found'.
    destruct (Dependencies_fuel_total (S (size (types typedData))) pt found')
      as [d Hd]; [pose proof (unvisited_size found'); lia|].
    now rewrite (Dependencies_fuel_spec _ _ _ _ Hd). }
  destruct (Dependencies_fuel_total (S (S (size (types typedData)))) primaryType found)
    as [deps Hdeps]; [pose proof (unvisited_size found); lia|].
  rewrite (Dependencies_fuel_spec _ _ _ _ Hdeps).
  rewrite Dependencies_fuel_S in Hdeps.
  destruct (includes found primaryType); [congruence|].
  destruct (Types_get (types typedData) primaryType) as [fields|]; [|congruence].
  rewrite (dependencies_of_fields_fold _ (Dependencies typedData) Hrec) in Hdeps.
  congruence.
Qed.

End DependenciesFuel.

(* ===================================================================== *)
(** ** Struct dependencies through array fields *)
(* ===================================================================== *)

(** A field whose type spelling is not itself a key holding fields adds
    nothing to the dependency list.  The spelling is looked up as written,
    so an array type [X[]] is looked up with its brackets. *)
Lemma Dependencies_not_a_key typedData (spelling : string) (found : list string) :
  Types_get (types typedData) spelling = None ->
  Dependencies typedData spelling found = found.
Proof.
  intros Hget. rewrite Dependencies_unfold, Hget. now destruct (includes found spelling).
Qed.

(** C1 (failing input): in a valid dictionary where [Group] refers to
    [Person] through the array field [Person[] members], the dependency
    list of [Group] is [Group] alone and [EncodeType] writes the signature
    of [Group] only, without the signature of [Person]; the value encoder
    does strip the brackets and encodes the members as [Person] structs. *)
Theorem EncodeType_omits_array_element_struct :
  TypedData_validate groupData = None
  /\ typeName (mkType "members" "Person[]") = "Person"
  /\ Dependencies groupData "Person[]" ["Group"] = ["Group"]
  /\ Dependencies groupData "Group" [] = ["Group"]
  /\ EncodeType_text groupData "Group" = "Group(Person[] members)"
  /\ EncodeType_text groupData "Group" <> "Group(Person[] members)Person(string name)"
  /\ is_ok (EncodeData groupData "Group" groupMessage 1) = true.
Proof.
  assert (Htext : EncodeType_text groupData "Group" = "Group(Person[] members)")
    by (vm_compute; reflexivity).
  repeat split; try (vm_compute; reflexivity).
  rewrite Htext. discriminate.
Qed.

(* ===================================================================== *)
(** ** Invariant of the dependency walk *)
(* ===================================================================== *)

Section DependenciesInvariant.

Variable typedData : TypedData.

Lemma includes_In (arr : list string) (str : string) :
  includes arr str = true <-> In str arr.
Proof.
  induction arr as [|obj arr IH]; simpl; [easy|].
  destruct (String.eqb_spec obj str) as [-> | Hne]; [tauto|].
  rewrite IH. split; [tauto | intros [? | ?]; [congruence | easy]].
Qed.

Lemma includes_not_In (arr : list string) (str : string) :
  includes arr str = false <-> ~ In str arr.
Proof. rewrite <- includes_In. now destruct (includes arr str). Qed.

Lemma append_new_fresh (found extra : list string) :
  NoDup extra -> (forall k, In k extra -> ~ In k found) ->
  append_new found extra = (found ++ extra)%list.
Proof.
  revert found. induction extra as [|k extra IH]; intros found Hnodup Hfresh; simpl.
  - now rewrite app_nil_r.
  - apply NoDup_cons in Hnodup as [Hk Hnodup].
    destruct (includes found k) eqn:Hin.
    + apply includes_In in Hin. exfalso. apply (Hfresh k); [now left | exact Hin].
    + rewrite IH; [now rewrite <- app_assoc | exact Hnodup |].
      intros x Hx Hfound. apply in_app_or in Hfound as [Hfound | [<- | []]].
      * apply (Hfresh x); [now right | exact Hfound].
      * apply Hk. now apply list_elem_of_In.
Qed.

Lemma append_new_skip (found seen rest : list string) :
  (forall k, In k seen -> In k found) ->
  append_new found (seen ++ rest) = append_new found rest.
Proof.
  intros Hseen. induction seen as [|k seen IH]; simpl; [reflexivity|].
  assert (Hk : includes found k = true) by (apply includes_In, Hseen; now left).
  rewrite Hk. apply IH. intros x Hx. apply Hseen. now right.
Qed.

(** The loop that merges the result of a recursive call back into
    [found] reproduces that result. *)
Lemma append_new_result (found extra : list string) :
  NoDup extra -> (forall k, In k extra -> ~ In k found) ->
  append_new found (found ++ extra) = (found ++ extra)%list.
Proof.
  intros Hnodup Hfresh. rewrite append_new_skip by auto.
  now apply append_new_fresh.
Qed.

Lemma refers_declared (a b : string) :
  refers typedData a b -> is_Some (Types_get (types typedData) a).
Proof. intros (fields & field & Hget & _). rewrite Hget. eauto. Qed.

Lemma rtc_refers_declared (a b : string) :
  rtc (refers typedData) a b ->
  is_Some (Types_get (types typedData) b) ->
  is_Some (Types_get (types typedData) a).
Proof. intros Hrtc Hb. destruct Hrtc as [|a x b Hstep _]; [exact Hb|]. eapply refers_declared, Hstep. Qed.

Lemma dependencies_of_fields_inv
    (rec : string -> list string -> option (list string)) :
  (forall pt found deps, rec pt found = Some deps -> deps_inv typedData pt found deps) ->
  forall fields found deps,
    dependencies_of_fields rec fields found = Some deps ->
    exists extra,
      deps = (found ++ extra)%list
      /\ NoDup extra
      /\ (forall k, In k extra -> ~ In k found)
      /\ (forall k, In k extra ->
            is_Some (Types_get (types typedData) k)
            /\ exists field, In field fields
                 /\ is_Some (Types_get (types typedData) (Typ field))
                 /\ rtc (refers typedData) (Typ field) k)
      /\ (forall k b, In k extra -> refers typedData k b -> In b deps)
      /\ (forall field, In field fields ->
            is_Some (Types_get (types typedData) (Typ field)) ->
            In (Typ field) deps).
Proof.
  intros Hrec fields. induction fields as [|field fields IH]; intros found deps; simpl.
  - intros [= <-]. exists []. rewrite app_nil_r.
    repeat split; try easy. constructor.
  - destruct (rec (Typ field) found) as [d|] eqn:Hcall; [|easy].
    destruct (Hrec _ _ _ Hcall) as (e1 & -> & Hnd1 & Hfresh1 & Hsound1 & Hclosed1 & Hin1 & _).
    rewrite append_new_result by assumption.
    intros Hloop. destruct (IH _ _ Hloop)
      as (e2 & -> & Hnd2 & Hfresh2 & Hsound2 & Hclosed2 & Hin2).
    exists (e1 ++ e2)%list. rewrite app_assoc. split; [reflexivity|].
    split; [|split; [|split; [|split]]].
    + apply NoDup_app. split; [exact Hnd1|]. split; [|exact Hnd2].
      intros x Hx1 Hx2. apply list_elem_of_In in Hx1, Hx2.
      apply (Hfresh2 x Hx2). apply in_or_app. now right.
    + intros k Hk Hfound. apply in_app_or in Hk as [Hk | Hk].
      * now apply (Hfresh1 k).
      * apply (Hfresh2 k Hk). apply in_or_app. now left.
    + intros k Hk. apply in_app_or in Hk as [Hk | Hk].
      * destruct (Hsound1 k Hk) as [Hdecl Hreach]. split; [exact Hdecl|].
        exists field. split; [now left|]. split; [|exact Hreach].
        eapply rtc_refers_declared; eauto.
      * destruct (Hsound2 k Hk) as [Hdecl (f & Hf & Hfd & Hreach)].
        split; [exact Hdecl|]. exists f. split; [now right | easy].
    + intros k b Hk Href. apply in_app_or in Hk as [Hk | Hk].
      * apply in_or_app. left. eapply Hclosed1; eauto.
      * eapply Hclosed2; eauto.
    + intros f [<- | Hf] Hdecl.
      * apply in_or_app. left. now apply Hin1.
      * now apply Hin2.
Qed.

Lemma Dependencies_fuel_inv (fuel : nat) primaryType found deps :
  Dependencies_fuel fuel typedData primaryType found = Some deps ->
  deps_inv typedData primaryType found deps.
Proof.
  revert primaryType found deps.
  induction fuel as [|fuel IH]; intros primaryType found deps; [easy|].
  rewrite Dependencies_fuel_S.
  destruct (includes found primaryType) eqn:Hfound.
  - intros [= <-]. apply includes_In in Hfound. exists []. rewrite app_nil_r.
    repeat split; try easy. constructor.
  - apply includes_not_In in Hfound.
    destruct (Types_get (types typedData) primaryType) as [fields|] eqn:Hget.
    + intros Hloop.
      destruct (dependencies_of_fields_inv _ IH _ _ _ Hloop)
        as (extra & -> & Hnd & Hfresh & Hsound & Hclosed & Hin).
      exists (primaryType :: extra). split; [now rewrite <- app_assoc|].
      assert (Hpt : In primaryType ((found ++ [primaryType]) ++ extra))
        by (apply in_or_app; left; apply in_or_app; right; now left).
      split; [|split; [|split; [|split; [|split]]]].
      * apply NoDup_cons. split; [|exact Hnd].
        intros Hk. apply list_elem_of_In in Hk. apply (Hfresh _ Hk).
        apply in_or_app. right. now left.
      * intros k [<- | Hk] Hkf; [easy|].
        apply (Hfresh k Hk). apply in_or_app. now left.
      * intros k [<- | Hk].
        -- split; [rewrite Hget; eauto | constructor].
        -- destruct (Hsound k Hk) as [Hdecl (f & Hf & Hfd & Hreach)].
           split; [exact Hdecl|]. eapply rtc_l; [|exact Hreach].
           exists fields, f. easy.
      * intros k b [<- | Hk] Href.
        -- destruct Href as (fields' & f & Hget' & Hf & <- & Hdecl).
           rewrite Hget in Hget'. injection Hget' as <-. now apply Hin.
        -- eapply Hclosed; eauto.
      * intros _. exact Hpt.
      * intros _ _. eauto.
    + intros [= <-]. exists []. rewrite app_nil_r.
      split; [reflexivity|]. split; [constructor|].
      do 3 (split; [easy|]).
      split; [intros Hdecl | intros _ Hdecl]; rewrite Hget in Hdecl;
        now apply is_Some_None in Hdecl.
Qed.

Lemma Dependencies_inv primaryType found :
  deps_inv typedData primaryType found (Dependencies typedData primaryType found).
Proof.
  destruct (Dependencies_fuel_total typedData (S (size (types typedData))) primaryType found)
    as [deps Hdeps]; [pose proof (unvisited_size typedData found); lia|].
  rewrite (Dependencies_fuel_spec _ _ _ _ _ Hdeps).
  now apply (Dependencies_fuel_inv _ _ _ _ Hdeps).
Qed.

End DependenciesInvariant.

Lemma refers_declared_r typedData (a b : string) :
  refers typedData a b -> is_Some (Types_get (types typedData) b).
Proof. now intros (fields & field & _ & _ & _ & Hb). Qed.

(* ===================================================================== *)
(** ** What [Dependencies] and [EncodeType] compute *)
(* ===================================================================== *)

(** X1: [Dependencies] only appends: the result is [found] followed by
    distinct names that were not in [found], each a key of the dictionary
    holding a non-nil slice. *)
Theorem Dependencies_appends typedData primaryType found :
  exists extra,
    Dependencies typedData primaryType found = (found ++ extra)%list
    /\ NoDup extra
    /\ forall k, In k extra ->
         ~ In k found /\ is_Some (Types_get (types typedData) k).
Proof.
  destruct (Dependencies_inv typedData primaryType found)
    as (extra & Heq & Hnd & Hfresh & Hsound & _).
  exists extra. split; [exact Heq|]. split; [exact Hnd|].
  intros k Hk. split; [now apply Hfresh | now apply Hsound].
Qed.

Lemma Dependencies_reachable_aux typedData primaryType k :
  In k (Dependencies typedData primaryType [])
  <-> is_Some (Types_get (types typedData) primaryType)
      /\ rtc (refers typedData) primaryType k.
Proof.
  destruct (Dependencies_inv typedData primaryType [])
    as (extra & Heq & _ & _ & Hsound & Hclosed & Hin & _).
  rewrite Heq in *. cbn [app] in *. split.
  - intros Hk. destruct (Hsound k Hk) as [Hdecl Hreach].
    split; [|exact Hreach]. eapply rtc_refers_declared; eauto.
  - intros [Hdecl Hreach]. specialize (Hin Hdecl). clear Heq Hsound Hdecl.
    induction Hreach as [|a b c Hstep _ IH]; [exact Hin|].
    apply IH. eapply Hclosed; eauto.
Qed.

(** X2: started with nothing found, [Dependencies] lists exactly the
    declared structs reachable from the primary type along fields whose
    type spelling is itself a declared struct name. *)
Theorem Dependencies_reachable typedData primaryType k :
  In k (Dependencies typedData primaryType [])
  <-> is_Some (Types_get (types typedData) primaryType)
      /\ rtc (refers typedData) primaryType k.
Proof. apply Dependencies_reachable_aux. Qed.

(* ===================================================================== *)
(** ** The order of Go strings and [sort.Strings] *)
(* ===================================================================== *)

Lemma string_compare_lt_trans (a b c : string) :
  String.compare a b = Lt -> String.compare b c = Lt -> String.compare a c = Lt.
Proof.
  revert b c. induction a as [|x a IH]; intros [|y b] [|z c]; simpl; try easy.
  unfold Ascii.compare.
  destruct (N.compare_spec (N_of_ascii x) (N_of_ascii y));
    destruct (N.compare_spec (N_of_ascii y) (N_of_ascii z));
    destruct (N.compare_spec (N_of_ascii x) (N_of_ascii z));
    try easy; try lia.
  apply IH.
Qed.

Lemma string_le_cases (a b : string) :
  string_le a b <-> String.compare a b = Lt \/ a = b.
Proof.
  unfold string_le, GoStrings.string_leb.
  destruct (String.compare a b) eqn:Hcmp.
  - apply String.compare_eq_iff in Hcmp. tauto.
  - tauto.
  - split; [easy|]. intros [? | ->]; [easy|].
    assert (String.compare b b = Eq) as Hrefl; [|congruence].
    clear Hcmp. induction b as [|c b IH]; [reflexivity|]. simpl.
    unfold Ascii.compare. now rewrite N.compare_refl.
Qed.

Lemma string_le_trans (a b c : string) :
  string_le a b -> string_le b c -> string_le a c.
Proof.
  rewrite !string_le_cases. intros [Hab | ->] [Hbc | ->]; auto.
  left. eapply string_compare_lt_trans; eauto.
Qed.

Lemma string_le_total (a b : string) :
  GoStrings.string_leb a b = false -> string_le b a.
Proof.
  unfold string_le, GoStrings.string_leb. rewrite (String.compare_antisym a b).
  now destruct (String.compare b a).
Qed.

Lemma insert_sorted_Permutation (x : string) (l : list string) :
  Permutation (GoStrings.insert_sorted x l) (x :: l).
Proof.
  induction l as [|y l IH]; simpl; [reflexivity|].
  destruct (GoStrings.string_leb x y); [reflexivity|].
  rewrite IH. apply perm_swap.
Qed.

Lemma insert_sorted_StronglySorted (x : string) (l : list string) :
  StronglySorted string_le l -> StronglySorted string_le (GoStrings.insert_sorted x l).
Proof.
  induction 1 as [|y l Hsorted IH Hall]; simpl.
  - repeat constructor.
  - destruct (GoStrings.string_leb x y) eqn:Hxy.
    + constructor; [now constructor|]. constructor; [exact Hxy|].
      eapply Forall_impl; [exact Hall|]. intros z. now apply string_le_trans.
    + constructor; [exact IH|].
      rewrite (insert_sorted_Permutation x l). constructor; [|exact Hall].
      now apply string_le_total.
Qed.

Lemma SortStrings_Permutation (l : list string) :
  Permutation (GoStrings.SortStrings l) l.
Proof.
  induction l as [|x l IH]; simpl; [reflexivity|].
  now rewrite insert_sorted_Permutation, IH.
Qed.

Lemma SortStrings_StronglySorted (l : list string) :
  StronglySorted string_le (GoStrings.SortStrings l).
Proof.
  induction l as [|x l IH]; simpl; [constructor|].
  now apply insert_sorted_StronglySorted.
Qed.

(* ===================================================================== *)
(** ** The text written by [EncodeType] *)
(* ===================================================================== *)

Lemma string_app_assoc (a b c : string) : (a ++ b) ++ c = a ++ (b ++ c).
Proof.
  induction a as [|x a IH]; [reflexivity|].
  change (String x ((a ++ b) ++ c) = String x (a ++ (b ++ c))). now rewrite IH.
Qed.

Lemma string_app_nil_r (a : string) : a ++ "" = a.
Proof.
  induction a as [|x a IH]; [reflexivity|].
  change (String x (a ++ "") = String x a). now rewrite IH.
Qed.

Lemma drop_last_snoc (a : string) (c : ascii) :
  GoStrings.drop_last (a ++ String c "") = a.
Proof.
  induction a as [|x a IH]; [reflexivity|].
  change (GoStrings.drop_last (String x (a ++ String c "")) = String x a).
  cbn [GoStrings.drop_last]. rewrite IH.
  destruct a; reflexivity.
Qed.

Lemma write_fields_from (buffer : string) (fields : list Type_) :
  fold_left (fun buffer obj => buffer ++ Typ obj ++ " " ++ Name obj ++ ",") fields buffer
  = buffer ++ write_fields fields.
Proof.
  unfold write_fields. revert buffer.
  induction fields as [|f fields IH] using rev_ind; intros buffer; simpl.
  - now rewrite string_app_nil_r.
  - rewrite !fold_left_app. simpl. rewrite IH. now rewrite !string_app_assoc.
Qed.

Lemma write_fields_cons (field : Type_) (fields : list Type_) :
  write_fields (field :: fields) = member field ++ "," ++ write_fields fields.
Proof.
  unfold write_fields at 1. cbn [fold_left]. rewrite write_fields_from.
  unfold member. now rewrite !string_app_assoc.
Qed.

Lemma write_fields_members (field : Type_) (fields : list Type_) :
  write_fields (field :: fields)
  = String.concat "," (map member (field :: fields)) ++ ",".
Proof.
  revert field. induction fields as [|g fields IH]; intros field;
    rewrite write_fields_cons.
  - change (write_fields []) with "". now rewrite string_app_nil_r.
  - rewrite IH.
    change (String.concat "," (map member (field :: g :: fields)))
      with (member field ++ "," ++ String.concat "," (map member (g :: fields))).
    now rewrite !string_app_assoc.
Qed.

(** X5: for a struct with at least one field the text appended is its
    signature, name(type name,type name,...); for a struct with an empty
    field list the truncation removes the opening parenthesis and the text
    is the name followed by a closing parenthesis only. *)
Theorem write_struct_text typedData (buffer dep : string) :
  (forall field fields,
      Types_get (types typedData) dep = Some (field :: fields) ->
      write_struct typedData buffer dep = buffer ++ signature dep (field :: fields))
  /\ (Types_get (types typedData) dep = Some [] ->
      write_struct typedData buffer dep = buffer ++ dep ++ ")").
Proof.
  unfold write_struct. split.
  - intros field fields ->. cbn [elems]. rewrite write_fields_members.
    unfold signature.
    rewrite <- !string_app_assoc, drop_last_snoc. now rewrite !string_app_assoc.
  - intros ->. cbn [elems]. change (write_fields []) with "".
    rewrite string_app_nil_r, <- !string_app_assoc, drop_last_snoc.
    now rewrite !string_app_assoc.
Qed.

Lemma write_struct_text_witness :
  write_struct groupData "" "Person" = "" ++ signature "Person" [mkType "name" "string"].
Proof.
  apply (proj1 (write_struct_text groupData "" "Person") (mkType "name" "string") []).
  vm_compute. reflexivity.
Defined.

(** X4: for a declared primary type, the structs [EncodeType] writes are
    the primary type first and then the other structs reachable from it,
    each once, in ascending byte-wise order. *)
Theorem EncodeType_order typedData primaryType :
  is_Some (Types_get (types typedData) primaryType) ->
  exists others,
    EncodeType_text typedData primaryType
    = fold_left (write_struct typedData) (primaryType :: others) ""
    /\ StronglySorted string_le others
    /\ NoDup others
    /\ forall k, In k others
         <-> k <> primaryType /\ rtc (refers typedData) primaryType k.
Proof.
  intros Hdecl.
  destruct (Dependencies_inv typedData primaryType [])
    as (extra & Heq & Hnd & _ & _ & _ & _ & Hhead).
  destruct (Hhead (fun H => H) Hdecl) as [rest ->]. cbn [app] in Heq.
  exists (GoStrings.SortStrings rest).
  split; [unfold EncodeType_text; now rewrite Heq|].
  split; [apply SortStrings_StronglySorted|].
  apply NoDup_cons in Hnd as [Hfirst Hnd].
  split; [now rewrite SortStrings_Permutation|].
  intros k. rewrite <- list_elem_of_In, SortStrings_Permutation, list_elem_of_In.
  pose proof (Dependencies_reachable_aux typedData primaryType k) as Hreach.
  rewrite Heq in Hreach. cbn [In] in Hreach. split.
  - intros Hk. split.
    + intros ->. now apply Hfirst, list_elem_of_In.
    + apply Hreach. now right.
  - intros [Hne Hk]. destruct (proj2 Hreach (conj Hdecl Hk)) as [<- | Hin]; easy.
Qed.

Lemma EncodeType_order_witness :
  exists others,
    EncodeType_text mailData "Mail"
    = fold_left (write_struct mailData) ("Mail" :: others) ""
    /\ StronglySorted string_le others
    /\ NoDup others
    /\ forall k, In k others <-> k <> "Mail" /\ rtc (refers mailData) "Mail" k.
Proof. apply (EncodeType_order mailData "Mail"). vm_compute. eauto. Defined.

(** X3: when the primary type is not a key holding fields, [EncodeType]
    writes nothing. *)
Theorem EncodeType_undeclared typedData primaryType :
  Types_get (types typedData) primaryType = None ->
  EncodeType typedData primaryType = [].
Proof.
  intros Hget. unfold EncodeType, EncodeType_text.
  now rewrite (Dependencies_not_a_key _ _ _ Hget).
Qed.

Lemma EncodeType_undeclared_witness : EncodeType mailData "Letter" = [].
Proof. apply (EncodeType_undeclared mailData "Letter"). vm_compute. reflexivity. Defined.

(* ===================================================================== *)
(** ** Words of the primitive encoder *)
(* ===================================================================== *)

Lemma HexToAddress_length (s : string) :
  List.length (GethCommon.HexToAddress s) = 20%nat.
Proof.
  unfold GethCommon.HexToAddress, GethCommon.AddressLength. cbv zeta.
  rewrite length_app, repeat_length, length_skipn. lia.
Qed.

Lemma PaddedBigBytes_SetBytes_length (byteValue : list byte) :
  (List.length byteValue <= 32)%nat ->
  List.length (GethMath.PaddedBigBytes (BigInt.SetBytes byteValue) 32) = 32%nat.
Proof.
  intros Hlen. pose proof (SetBytes_range byteValue) as Hrange.
  assert (256 ^ Z.of_nat (List.length byteValue) <= 256 ^ 32)
    by (apply Z.pow_le_mono_r; lia).
  change (256 ^ 32) with (2 ^ 256) in *.
  rewrite PaddedBigBytes_32 by lia. apply be_bytes_length.
Qed.

Lemma EncodePrimitiveValue_word_length_aux encType encValue depth word :
  EncodePrimitiveValue encType encValue depth = Ok word ->
  (forall byteValue, encValue = VHexBytes byteValue ->
                     (List.length byteValue <= 32)%nat) ->
  List.length word = 32%nat.
Proof.
  unfold EncodePrimitiveValue. intros Henc Hbytes.
  destruct (String.eqb encType "address").
  { destruct encValue; try easy. destruct (GethCommon.IsHexAddress s); [|easy].
    injection Henc as <-. cbn [List.length]. now rewrite HexToAddress_length. }
  destruct (String.eqb encType "bool").
  { destruct encValue; try easy. now destruct b; injection Henc as <-. }
  destruct (String.eqb encType "string").
  { destruct encValue; try easy. injection Henc as <-. apply Keccak256_length. }
  destruct (String.eqb encType "bytes").
  { destruct encValue; try easy. injection Henc as <-. apply Keccak256_length. }
  destruct (GoStrings.HasPrefix encType "bytes").
  { unfold encode_fixed_bytes in Henc.
    destruct (GoStrings.Atoi _); [|easy]. destruct (_ || _); [easy|].
    destruct encValue; try easy. injection Henc as <-.
    apply PaddedBigBytes_SetBytes_length. now apply Hbytes. }
  destruct (_ || _); [|easy].
  destruct (parseInteger encType encValue); [|easy].
  injection Henc as <-. rewrite U256Bytes_spec. apply be_bytes_length.
Qed.

(** X6: a word returned by [EncodePrimitiveValue] is 32 bytes long, unless
    the value is a [hexutil.Bytes] of more than 32 bytes. *)
Theorem EncodePrimitiveValue_word_length encType encValue depth word :
  EncodePrimitiveValue encType encValue depth = Ok word ->
  (forall byteValue, encValue = VHexBytes byteValue ->
                     (List.length byteValue <= 32)%nat) ->
  List.length word = 32%nat.
Proof. apply EncodePrimitiveValue_word_length_aux. Qed.

Lemma EncodePrimitiveValue_word_length_witness :
  List.length (repeat x00 12 ++ GethCommon.HexToAddress
                 "0xCcCCccccCCCCcCCCCCCcCcCccCcCCCcCcccccccC")%list = 32%nat.
Proof.
  apply (EncodePrimitiveValue_word_length "address"
           (VString "0xCcCCccccCCCCcCCCCCCcCcCccCcCCCcCcccccccC") 1).
  - vm_compute. reflexivity.
  - discriminate.
Defined.

Lemma EncodePrimitiveValue_accepts encType encValue depth word :
  EncodePrimitiveValue encType encValue depth = Ok word ->
  accepted_under encType encValue.
Proof.
  unfold EncodePrimitiveValue, accepted_under, integer_like.
  destruct (String.eqb_spec encType "address") as [-> | Haddr].
  { destruct encValue; try easy. auto. }
  destruct (String.eqb_spec encType "bool") as [-> | Hbool].
  { destruct encValue; easy. }
  destruct (String.eqb_spec encType "string") as [-> | Hstring].
  { destruct encValue; try easy. auto. }
  destruct (String.eqb_spec encType "bytes") as [-> | Hbytes].
  { destruct encValue; easy. }
  destruct (GoStrings.HasPrefix encType "bytes") eqn:Hprefix.
  { unfold encode_fixed_bytes.
    destruct (GoStrings.Atoi _); [|easy]. destruct (_ || _); [easy|].
    destruct encValue; easy. }
  destruct (GoStrings.HasPrefix encType "int") eqn:Hint;
    destruct (GoStrings.HasPrefix encType "uint") eqn:Huint; cbn [orb]; try easy;
    unfold parseInteger; destruct (integer_length encType); try easy;
    destruct encValue as [| | | | |[z|]| | | |]; cbn [integer_value]; try easy; auto.
Qed.

(** X7: the dynamic type of an accepted value fits the spelling: a text
    is accepted only as an address, a string or an integer; a boolean only
    under [bool]; a [[]byte] only under [bytes]; a [hexutil.Bytes] only
    under a sized [bytes] spelling; a big integer or a float only as an
    integer; nil, arrays, maps and everything else never. *)
Theorem EncodePrimitiveValue_dynamic_type encType encValue depth word :
  EncodePrimitiveValue encType encValue depth = Ok word ->
  accepted_under encType encValue.
Proof. apply EncodePrimitiveValue_accepts. Qed.

Lemma EncodePrimitiveValue_dynamic_type_witness :
  accepted_under "bytes4" (VHexBytes [xde; xad; xbe; xef]).
Proof.
  apply (EncodePrimitiveValue_dynamic_type "bytes4" (VHexBytes [xde; xad; xbe; xef]) 1
           (repeat x00 28 ++ [xde; xad; xbe; xef])%list).
  vm_compute. reflexivity.
Defined.

(* ===================================================================== *)
(** ** The integers an integer spelling accepts *)
(* ===================================================================== *)

Lemma BitLen_le_iff (v N : Z) : 0 <= N -> BigInt.BitLen v <= N <-> Z.abs v < 2 ^ N.
Proof.
  intros HN. unfold BigInt.BitLen.
  destruct (Z.eqb_spec (Z.abs v) 0) as [-> | Hne].
  - split; [intros _; apply Z.pow_pos_nonneg; lia | lia].
  - assert (0 < Z.abs v) by lia.
    rewrite (Z.log2_lt_pow2 (Z.abs v) N) by lia. lia.
Qed.

Lemma parseInteger_registry encType signed N encValue v :
  In (encType, signed, N) integer_types ->
  integer_value encType encValue = Ok (Some v) ->
  parseInteger encType encValue
  = if BigInt.BitLen v >? N
    then Err (Errorf ("integer larger than '" ++ encType ++ "'"))
    else if negb signed && (v <? 0)
         then Err (Errorf ("invalid negative value for unsigned type " ++ encType))
         else Ok v.
Proof.
  intros Hin Hvalue.
  destruct (integer_types_dispatch _ _ _ Hin) as (Hlen & Hsigned & _ & _).
  unfold parseInteger. now rewrite Hlen, Hvalue, Hsigned, Sign_negative.
Qed.

(** X8: under an integer spelling of the registry of width N, a carrier
    of the integer v (big-integer object, decimal text, hex text, float64)
    is encoded exactly when |v| < 2^N, v >= 0 for an unsigned spelling, and
    for a float64 carrier v is within [int64].  A signed spelling thus
    accepts the whole range from -(2^N - 1) to 2^N - 1. *)
Theorem integer_accepted_range encType signed N encValue v depth :
  In (encType, signed, N) integer_types ->
  carries v encValue ->
  is_ok (EncodePrimitiveValue encType encValue depth) = true
  <-> Z.abs v < 2 ^ N /\ (signed = false -> 0 <= v) /\ within_int64 encValue v.
Proof.
  intros Hin Hcarries.
  destruct (integer_types_dispatch _ _ _ Hin) as (_ & _ & HN & Hdispatch).
  rewrite Hdispatch, <- (BitLen_le_iff v N) by lia.
  destruct (carries_parseInteger _ _ _ _ _ Hin Hcarries)
    as [(-> & Hbits & Hsign & Hwithin) | ([err ->] & Hout)]; cbn [is_ok].
  - easy.
  - split; [easy|]. intros (Hbits & Hsign & Hwithin).
    destruct Hout as [Hgt | [[Hunsigned Hneg] | Hnot]];
      [lia | specialize (Hsign Hunsigned); lia | easy].
Qed.

Lemma integer_accepted_range_witness :
  (is_ok (EncodePrimitiveValue "int8" (VString "-255") 1) = true
   <-> Z.abs (-255) < 2 ^ 8 /\ (true = false -> 0 <= -255)
       /\ within_int64 (VString "-255") (-255))
  /\ (is_ok (EncodePrimitiveValue "uint64"
               (VFloat64 (S754_finite false 4503599627370496 11)) 1) = true
      <-> Z.abs (2 ^ 63) < 2 ^ 64 /\ (false = false -> 0 <= 2 ^ 63)
          /\ within_int64 (VFloat64 (S754_finite false 4503599627370496 11)) (2 ^ 63)).
Proof.
  split.
  - apply (integer_accepted_range "int8" true 8 (VString "-255") (-255) 1).
    + vm_compute. tauto.
    + exact (carries_decimal (-255)).
  - apply (integer_accepted_range "uint64" false 64
             (VFloat64 (S754_finite false 4503599627370496 11)) (2 ^ 63) 1).
    + vm_compute. tauto.
    + apply carries_float. vm_compute. reflexivity.
Defined.

(** X9: two carriers of the same integer give the same outcome, the same
    word or an error both, with one exception: when the integer fits the
    spelling and exactly one of the carriers is a float64 holding a value
    outside [int64], the float64 is rejected and the other is encoded. *)
Theorem integer_carriers_agree encType signed N encValue1 encValue2 v depth1 depth2 :
  In (encType, signed, N) integer_types ->
  carries v encValue1 ->
  carries v encValue2 ->
  same_outcome (EncodePrimitiveValue encType encValue1 depth1)
               (EncodePrimitiveValue encType encValue2 depth2)
  <-> (BigInt.BitLen v > N \/ (signed = false /\ v < 0))
      \/ (within_int64 encValue1 v <-> within_int64 encValue2 v).
Proof.
  intros Hin Hcarries1 Hcarries2.
  destruct (integer_types_dispatch _ _ _ Hin) as (_ & _ & _ & Hdispatch).
  rewrite !Hdispatch.
  destruct (carries_parseInteger _ _ _ _ _ Hin Hcarries1)
    as [(-> & Hbits1 & Hsign1 & Hwithin1) | ([err1 ->] & Hout1)];
    destruct (carries_parseInteger _ _ _ _ _ Hin Hcarries2)
    as [(-> & Hbits2 & Hsign2 & Hwithin2) | ([err2 ->] & Hout2)];
    cbn [same_outcome].
  - split; [tauto | reflexivity].
  - split; [easy|]. intros [[Hgt | [Hunsigned Hneg]] | Hiff];
      [lia | specialize (Hsign1 Hunsigned); lia |].
    destruct Hout2 as [Hgt | [[Hunsigned Hneg] | Hnot]];
      [lia | specialize (Hsign1 Hunsigned); lia | tauto].
  - split; [easy|]. intros [[Hgt | [Hunsigned Hneg]] | Hiff];
      [lia | specialize (Hsign2 Hunsigned); lia |].
    destruct Hout1 as [Hgt | [[Hunsigned Hneg] | Hnot]];
      [lia | specialize (Hsign2 Hunsigned); lia | tauto].
  - split; [|easy]. intros _.
    destruct Hout1 as [Hgt | [Hneg | Hnot1]]; [tauto | tauto |].
    destruct Hout2 as [Hgt | [Hneg | Hnot2]]; [tauto | tauto |].
    right. tauto.
Qed.

Lemma integer_carriers_agree_witness :
  (same_outcome (EncodePrimitiveValue "uint16" (VString "0x1f4") 1)
                (EncodePrimitiveValue "uint16" (VFloat64 (S754_finite false 125 2)) 2)
   <-> (BigInt.BitLen 500 > 16 \/ (false = false /\ 500 < 0))
       \/ (within_int64 (VString "0x1f4") 500
           <-> within_int64 (VFloat64 (S754_finite false 125 2)) 500))
  /\ (same_outcome
        (EncodePrimitiveValue "uint64" (VString "9223372036854775808") 1)
        (EncodePrimitiveValue "uint64" (VFloat64 (S754_finite false 4503599627370496 11)) 1)
      <-> (BigInt.BitLen (2 ^ 63) > 64 \/ (false = false /\ 2 ^ 63 < 0))
          \/ (within_int64 (VString "9223372036854775808") (2 ^ 63)
              <-> within_int64 (VFloat64 (S754_finite false 4503599627370496 11)) (2 ^ 63))).
Proof.
  split.
  - apply (integer_carriers_agree "uint16" false 16 _ _ 500 1 2).
    + vm_compute. tauto.
    + exact (carries_hex 500 ltac:(lia)).
    + apply carries_float. vm_compute. reflexivity.
  - apply (integer_carriers_agree "uint64" false 64 _ _ (2 ^ 63) 1 1).
    + vm_compute. tauto.
    + exact (carries_decimal (2 ^ 63)).
    + apply carries_float. vm_compute. reflexivity.
Defined.

(** X10: under an unsigned spelling of the registry the word determines
    the integer: reading the word as a big-endian number gives the value
    back, so two accepted values with the same word are equal. *)
Theorem unsigned_word_round_trip encType N encValue v depth word :
  In (encType, false, N) integer_types ->
  integer_value encType encValue = Ok (Some v) ->
  EncodePrimitiveValue encType encValue depth = Ok word ->
  BigInt.SetBytes word = v.
Proof.
  intros Hin Hvalue.
  destruct (integer_types_dispatch _ _ _ Hin) as (_ & _ & HN & Hdispatch).
  rewrite Hdispatch, (parseInteger_registry _ _ _ _ _ Hin Hvalue).
  destruct (Z.gtb_spec (BigInt.BitLen v) N) as [|Hle]; [easy|]. cbn [negb andb].
  destruct (Z.ltb_spec v 0) as [|Hpos]; [easy|]. intros [= <-].
  rewrite U256Bytes_spec, SetBytes_be_bytes.
  change (256 ^ Z.of_nat 32) with (2 ^ 256). rewrite Z.mod_mod by lia.
  apply Z.mod_small. split; [lia|].
  apply (BitLen_le_iff v N) in Hle; [|lia]. rewrite Z.abs_eq in Hle by lia.
  assert (2 ^ N <= 2 ^ 256) by (apply Z.pow_le_mono_r; lia). lia.
Qed.

Lemma unsigned_word_round_trip_witness :
  BigInt.SetBytes (repeat x00 31 ++ [xff])%list = 255.
Proof.
  apply (unsigned_word_round_trip "uint8" 8 (VHexOrDecimal256 (Some 255)) 255 1).
  - vm_compute. tauto.
  - reflexivity.
  - vm_compute. reflexivity.
Defined.

(* ===================================================================== *)
(** ** Layout of the encoded data *)
(* ===================================================================== *)

Lemma encode_field_word_length rec typedData data depth field word :
  encode_field rec typedData data depth field = Some (Ok word) ->
  (forall byteValue, data_get data (Name field) = VHexBytes byteValue ->
                     (List.length byteValue <= 32)%nat) ->
  List.length word = 32%nat.
Proof.
  unfold encode_field. intros Henc Hbytes.
  destruct (GoStrings.HasSuffix (Typ field) "]").
  - destruct (data_get data (Name field)); try easy.
    destruct (encode_items _ _ _ _ _ _) as [[buf | e]|]; try easy.
    injection Henc as <-. apply Keccak256_length.
  - destruct (Types_get (types typedData) (Typ field)).
    + destruct (data_get data (Name field)); try easy.
      destruct (rec _ _ _) as [[enc | e]|]; try easy.
      injection Henc as <-. apply Keccak256_length.
    + destruct (EncodePrimitiveValue _ _ _) as [w | e] eqn:Hprim; [|easy].
      injection Henc as <-.
      eapply EncodePrimitiveValue_word_length_aux; eauto.
Qed.

Lemma encode_items_words typedData parsedType depth arrayValue arrayBuffer out :
  encode_items (fun pt data' d => Some (EncodeData typedData pt data' d))
               typedData parsedType depth arrayValue arrayBuffer = Some (Ok out) ->
  exists encodings,
    out = (arrayBuffer ++ concat encodings)%list
    /\ Forall2 (element_word typedData parsedType depth) arrayValue encodings.
Proof.
  revert arrayBuffer.
  induction arrayValue as [|item arrayValue IH]; intros arrayBuffer; cbn [encode_items].
  - intros [= <-]. exists []. cbn [concat]. rewrite app_nil_r. split; constructor.
  - destruct (Types_get (types typedData) parsedType) as [fields|] eqn:Hdeclared.
    + destruct item; try easy.
      destruct (EncodeData typedData parsedType m (depth + 1)) as [encodedData | e] eqn:Henc;
        [|easy].
      intros Hrest. destruct (IH _ Hrest) as (encodings & -> & Hall).
      exists (encodedData :: encodings). cbn [concat]. rewrite <- app_assoc.
      split; [reflexivity|]. constructor; [|exact Hall].
      unfold element_word. rewrite Hdeclared. eauto.
    + destruct (EncodePrimitiveValue parsedType item depth) as [bytesValue | e] eqn:Henc;
        [|easy].
      intros Hrest. destruct (IH _ Hrest) as (encodings & -> & Hall).
      exists (bytesValue :: encodings). cbn [concat]. rewrite <- app_assoc.
      split; [reflexivity|]. constructor; [|exact Hall].
      unfold element_word. now rewrite Hdeclared.
Qed.

Lemma encode_field_word typedData data depth field word :
  encode_field (fun pt data' d => Some (EncodeData typedData pt data' d))
               typedData data depth field = Some (Ok word) ->
  field_word typedData data depth field word.
Proof.
  unfold encode_field, field_word. cbv zeta.
  destruct (GoStrings.HasSuffix (Typ field) "]").
  - destruct (data_get data (Name field)) as [| | | | | | | arrayValue | |]; try easy.
    destruct (encode_items _ _ _ _ _ _) as [[arrayBuffer | e]|] eqn:Hitems; try easy.
    intros [= <-].
    destruct (encode_items_words _ _ _ _ _ _ Hitems) as (encodings & -> & Hall).
    exists arrayValue, encodings. auto.
  - destruct (Types_get (types typedData) (Typ field)).
    + destruct (data_get data (Name field)) as [| | | | | | | | mapValue |]; try easy.
      destruct (EncodeData typedData (Typ field) mapValue (depth + 1))
        as [encodedData | e] eqn:Henc; [|easy].
      intros [= <-]. eauto.
    + destruct (EncodePrimitiveValue _ _ _); [|easy]. now intros [= <-].
Qed.

Lemma encode_fields_words rec typedData data depth fields buffer out :
  encode_fields rec typedData data depth fields buffer = Some (Ok out) ->
  exists words,
    out = (buffer ++ concat words)%list
    /\ Forall2 (fun field word => encode_field rec typedData data depth field = Some (Ok word))
               fields words.
Proof.
  revert buffer. induction fields as [|field fields IH]; intros buffer; cbn [encode_fields].
  - intros [= <-]. exists []. cbn [concat]. rewrite app_nil_r. split; constructor.
  - destruct (encode_field rec typedData data depth field) as [[word | e]|] eqn:Hfield;
      try easy.
    intros Hrest. destruct (IH _ Hrest) as (words & -> & Hall).
    exists (word :: words). cbn [concat]. rewrite <- app_assoc.
    split; [reflexivity|]. now constructor.
Qed.

(** X12: on success the output of [EncodeData] is the type hash followed
    by one word per declared field, in the declared order: for an array
    field the hash of the concatenated encodings of its elements, for a
    struct field the hash of the encoded data of the nested message, for
    any other field the primitive word.  When no field value is a
    [hexutil.Bytes] of more than 32 bytes every word is 32 bytes long, so
    the output is 32 * (1 + number of declared fields) bytes long. *)
Theorem EncodeData_layout typedData primaryType data depth out :
  EncodeData typedData primaryType data depth = Ok out ->
  exists words,
    out = (TypeHash typedData primaryType ++ concat words)%list
    /\ Forall2 (field_word typedData data depth)
               (elems (Types_get (types typedData) primaryType)) words
    /\ ((forall field byteValue,
            In field (elems (Types_get (types typedData) primaryType)) ->
            data_get data (Name field) = VHexBytes byteValue ->
            (List.length byteValue <= 32)%nat) ->
        Forall (fun word => List.length word = 32%nat) words
        /\ List.length out
           = (32 * (1 + List.length
                            (elems (Types_get (types typedData) primaryType))))%nat).
Proof.
  intros Henc.
  pose proof (EncodeData_unfold typedData primaryType data depth) as Heq.
  rewrite Henc in Heq. unfold EncodeData_body in Heq.
  destruct (TypedData_validate typedData); [easy|].
  destruct (_ <? _)%nat; [easy|].
  destruct (encode_fields_words _ _ _ _ _ _ _ Heq) as (words & -> & Hall).
  exists words. split; [reflexivity|]. split.
  - eapply Forall2_impl; [exact Hall|]. intros field word. apply encode_field_word.
  - intros Hbytes.
    assert (Hwords : Forall (fun word => List.length word = 32%nat) words).
    { clear Heq Henc. induction Hall as [|field word fields words Hfield _ IH];
        constructor.
      - eapply encode_field_word_length; [exact Hfield|].
        intros byteValue. apply Hbytes. now left.
      - apply IH. intros f b Hf. apply Hbytes. now right. }
    split; [exact Hwords|].
    rewrite length_app, length_concat.
    unfold TypeHash. rewrite Keccak256_length, (Forall2_length _ _ _ Hall).
    clear -Hwords.
    induction Hwords as [|w ws Hw _ IH]; simpl in *; lia.
Qed.

Lemma EncodeData_layout_witness :
  exists words,
    mailEncoded = (TypeHash mailData "Mail" ++ concat words)%list
    /\ Forall2 (field_word mailData mailMessage 1)
               (elems (Types_get (types mailData) "Mail")) words
    /\ Forall (fun word => List.length word = 32%nat) words
    /\ List.length mailEncoded
       = (32 * (1 + List.length (elems (Types_get (types mailData) "Mail"))))%nat.
Proof.
  destruct (EncodeData_layout mailData "Mail" mailMessage 1 mailEncoded)
    as (words & Hout & Hfields & Hlength).
  - vm_compute. reflexivity.
  - exists words. split; [exact Hout|]. split; [exact Hfields|].
    apply Hlength. intros field byteValue Hfield Hvalue. vm_compute in Hfield.
    destruct Hfield as [<- | [<- | [<- | []]]]; discriminate Hvalue.
Defined.

(* ===================================================================== *)
(** ** What dictionary validation establishes *)
(* ===================================================================== *)

Lemma isPrimitiveTypeValid_cases (primitiveType : string) :
  isPrimitiveTypeValid primitiveType = true ->
  exists p, In p scalar_registry /\ (primitiveType = p \/ primitiveType = p ++ "[]").
Proof.
  unfold isPrimitiveTypeValid. intros H. apply existsb_exists in H as (p & Hp & Heq).
  exists p. split; [exact Hp|].
  apply orb_true_iff in Heq as [Heq | Heq]; apply String.eqb_eq in Heq; auto.
Qed.

Lemma isPrimitiveTypeValid_leading (primitiveType : string) :
  isPrimitiveTypeValid primitiveType = true -> leading primitiveType = AsciiOther.
Proof.
  intros H. apply isPrimitiveTypeValid_cases in H as (p & Hp & Heq).
  unfold scalar_registry in Hp.
  repeat (destruct Hp as [<- | Hp]; [destruct Heq as [-> | ->]; reflexivity|]).
  destruct Hp.
Qed.

Lemma validate_field_None_iff (t : Types) typeKey i typeObj :
  TypesM.validate_field t typeKey i typeObj = None
  <-> descriptor_well_formed t typeKey typeObj.
Proof.
  unfold TypesM.validate_field, descriptor_well_formed, isReferenceType.
  destruct (Typ typeObj) as [|c rest] eqn:Htyp; [cbn; split; [easy | tauto]|].
  rewrite <- Htyp.
  assert (Hne : Typ typeObj <> "") by (rewrite Htyp; discriminate).
  replace (String.length (Typ typeObj) =? 0)%nat with false by (now rewrite Htyp).
  destruct (Name typeObj) as [|c' rest'] eqn:Hname; [cbn; split; [easy | tauto]|].
  cbn [String.length Nat.eqb].
  destruct (String.eqb_spec typeKey (Typ typeObj)) as [-> | Hkey];
    [split; [easy | tauto]|].
  destruct (leading (Typ typeObj)) eqn:Hlead.
  - destruct (isPrimitiveTypeValid (Typ typeObj)) eqn:Hprim.
    + apply isPrimitiveTypeValid_leading in Hprim. congruence.
    + split; [easy|]. intros (_ & _ & _ & [(? & _) | (_ & ?)]); easy.
  - destruct (t !! typeName typeObj) eqn:Hbase.
    + destruct (reference_type_matches (Typ typeObj)).
      * split; [|easy]. intros _. repeat split; try easy; try congruence.
        left. eauto.
      * split; [easy|]. intros (_ & _ & _ & [(_ & _ & ?) | (? & _)]); easy.
    + split; [easy|].
      intros (_ & _ & _ & [(_ & Hsome & _) | (? & _)]); [|easy].
      now apply is_Some_None in Hsome.
  - destruct (isPrimitiveTypeValid (Typ typeObj)) eqn:Hprim.
    + split; [|easy]. intros _. repeat split; try easy; try congruence. now right.
    + split; [easy|]. intros (_ & _ & _ & [(? & _) | (_ & ?)]); easy.
  - split; [easy|]. intros (_ & _ & _ & [(? & _) | (_ & Hprim)]); [easy|].
    apply isPrimitiveTypeValid_leading in Hprim. congruence.
Qed.

Lemma first_error_None_iff {A} (check : A -> option error) (l : list A) :
  TypesM.first_error check l = None <-> forall x, In x l -> check x = None.
Proof.
  split; [intros H x; now apply first_error_None|].
  induction l as [|y l IH]; simpl; [easy|]. intros H.
  rewrite (H y) by now left. apply IH. intros x Hx. apply H. now right.
Qed.

Lemma validate_fields_None_iff (t : Types) typeKey i typeArr :
  TypesM.validate_fields t typeKey i typeArr = None
  <-> forall typeObj, In typeObj typeArr -> descriptor_well_formed t typeKey typeObj.
Proof.
  revert i. induction typeArr as [|f typeArr IH]; intros i; simpl; [easy|].
  destruct (TypesM.validate_field t typeKey i f) eqn:Hf.
  - split; [easy|]. intros H.
    assert (Hwf : descriptor_well_formed t typeKey f) by (apply H; now left).
    apply (validate_field_None_iff t typeKey i) in Hwf. congruence.
  - rewrite IH. apply validate_field_None_iff in Hf.
    split; [intros H x [<- | Hx]; auto | intros H x Hx; apply H; now right].
Qed.

Lemma Types_validate_aux (t : Types) :
  TypesM.validate t = None
  <-> forall typeKey typeArr,
        t !! typeKey = Some typeArr ->
        typeKey <> ""
        /\ forall typeObj, In typeObj (elems typeArr) ->
                           descriptor_well_formed t typeKey typeObj.
Proof.
  unfold TypesM.validate. rewrite first_error_None_iff. split.
  - intros H typeKey typeArr Hkey.
    specialize (H (typeKey, typeArr)). unfold TypesM.validate_entry in H.
    destruct typeKey as [|c key]; [exfalso|].
    + assert (Some (Errorf "empty type key") = None); [|easy].
      apply H, list_elem_of_In. now apply elem_of_map_to_list.
    + split; [easy|]. apply validate_fields_None_iff with (i := O).
      apply H, list_elem_of_In. now apply elem_of_map_to_list.
  - intros H [typeKey typeArr] Hin.
    apply list_elem_of_In, elem_of_map_to_list in Hin.
    destruct (H typeKey typeArr Hin) as [Hkey Hfields].
    unfold TypesM.validate_entry.
    destruct typeKey; [easy|]. now apply validate_fields_None_iff.
Qed.

(** X14: the dictionary validator succeeds exactly when every key is
    non-empty and every descriptor under every key is well formed; which
    entry the map iteration visits first plays no part in the verdict. *)
Theorem Types_validate_iff (t : Types) :
  TypesM.validate t = None
  <-> forall typeKey typeArr,
        t !! typeKey = Some typeArr ->
        typeKey <> ""
        /\ forall typeObj, In typeObj (elems typeArr) ->
                           descriptor_well_formed t typeKey typeObj.
Proof. apply Types_validate_aux. Qed.

(** X15: a dictionary in which some struct has a field whose type is the
    struct's own name fails validation, whatever else it holds. *)
Theorem self_reference_rejected (t : Types) typeKey typeArr typeObj :
  t !! typeKey = Some typeArr ->
  In typeObj (elems typeArr) ->
  Typ typeObj = typeKey ->
  TypesM.validate t <> None.
Proof.
  intros Hkey Hin Hself Hval.
  destruct (proj1 (Types_validate_aux t) Hval typeKey typeArr Hkey) as [_ Hfields].
  destruct (Hfields typeObj Hin) as (_ & _ & Hne & _). easy.
Qed.

Lemma self_reference_rejected_witness :
  TypesM.validate (<["A" := Some [mkType "x" "A"]]> ∅) <> None.
Proof.
  apply (self_reference_rejected (<["A" := Some [mkType "x" "A"]]> ∅)
           "A" (Some [mkType "x" "A"]) (mkType "x" "A")).
  - vm_compute. reflexivity.
  - now left.
  - reflexivity.
Defined.

(* ===================================================================== *)
(** ** Suffixes, [typeName] and the element type of array fields *)
(* ===================================================================== *)

Lemma list_ascii_of_string_app (a b : string) :
  list_ascii_of_string (a ++ b)
  = (list_ascii_of_string a ++ list_ascii_of_string b)%list.
Proof.
  induction a as [|x a IH]; [reflexivity|].
  change (x :: list_ascii_of_string (a ++ b)
          = x :: (list_ascii_of_string a ++ list_ascii_of_string b)%list).
  now rewrite IH.
Qed.

Lemma string_of_list_ascii_app (l1 l2 : list ascii) :
  string_of_list_ascii (l1 ++ l2) = string_of_list_ascii l1 ++ string_of_list_ascii l2.
Proof.
  induction l1 as [|x l1 IH]; [reflexivity|].
  change (String x (string_of_list_ascii (l1 ++ l2))
          = String x (string_of_list_ascii l1 ++ string_of_list_ascii l2)).
  now rewrite IH.
Qed.

Lemma rev_string_app (a b : string) :
  GoStrings.rev_string (a ++ b) = GoStrings.rev_string b ++ GoStrings.rev_string a.
Proof.
  unfold GoStrings.rev_string.
  now rewrite list_ascii_of_string_app, rev_app_distr, string_of_list_ascii_app.
Qed.

Lemma rev_string_involutive (a : string) :
  GoStrings.rev_string (GoStrings.rev_string a) = a.
Proof.
  unfold GoStrings.rev_string.
  now rewrite list_ascii_of_string_of_list_ascii, rev_involutive,
              string_of_list_ascii_of_string.
Qed.

Lemma string_of_list_ascii_length (l : list ascii) :
  String.length (string_of_list_ascii l) = List.length l.
Proof. induction l as [|x l IH]; [reflexivity|]. simpl. now rewrite IH. Qed.

Lemma list_ascii_of_string_length (a : string) :
  List.length (list_ascii_of_string a) = String.length a.
Proof. induction a as [|x a IH]; [reflexivity|]. simpl. now rewrite IH. Qed.

Lemma rev_string_length (a : string) :
  String.length (GoStrings.rev_string a) = String.length a.
Proof.
  unfold GoStrings.rev_string.
  now rewrite string_of_list_ascii_length, length_rev, list_ascii_of_string_length.
Qed.

Lemma HasSuffix_app (stem suffix : string) :
  GoStrings.HasSuffix (stem ++ suffix) suffix = true.
Proof. unfold GoStrings.HasSuffix. rewrite rev_string_app. apply HasPrefix_app. Qed.

Lemma HasSuffix_split (s suffix : string) :
  GoStrings.HasSuffix s suffix = true -> exists stem, s = stem ++ suffix.
Proof.
  unfold GoStrings.HasSuffix. intros H. apply HasPrefix_split in H.
  exists (GoStrings.rev_string
            (GoStrings.drop_chars (String.length (GoStrings.rev_string suffix))
                                  (GoStrings.rev_string s))).
  rewrite <- (rev_string_involutive suffix) at 2.
  rewrite <- rev_string_app, <- H. now rewrite rev_string_involutive.
Qed.

Lemma TrimSuffix_app (stem suffix : string) :
  GoStrings.TrimSuffix (stem ++ suffix) suffix = stem.
Proof.
  unfold GoStrings.TrimSuffix. rewrite HasSuffix_app, rev_string_app.
  rewrite <- (rev_string_length suffix), drop_chars_app.
  apply rev_string_involutive.
Qed.

(** X16: [typeName] and [isArray] take a type spelling apart without
    loss: an array spelling is its [typeName] followed by one pair of
    brackets, any other spelling is its own [typeName]. *)
Theorem typeName_round_trip (t : Type_) :
  Typ t = if isArray t then typeName t ++ "[]" else typeName t.
Proof.
  unfold isArray, typeName.
  destruct (GoStrings.HasSuffix (Typ t) "[]") eqn:Hsuffix; [|reflexivity].
  apply HasSuffix_split in Hsuffix as [stem ->]. now rewrite TrimSuffix_app.
Qed.

Lemma all_chars_app (p : ascii -> bool) (a b : string) :
  GoStrings.all_chars p (a ++ b) = GoStrings.all_chars p a && GoStrings.all_chars p b.
Proof.
  induction a as [|x a IH]; [reflexivity|].
  change (p x && GoStrings.all_chars p (a ++ b)
          = p x && GoStrings.all_chars p a && GoStrings.all_chars p b).
  now rewrite IH, andb_assoc.
Qed.

Lemma before_first_words (stem rest : string) :
  GoStrings.all_chars GoStrings.is_word stem = true ->
  GoStrings.before_first "[" (stem ++ String "[" rest) = stem.
Proof.
  induction stem as [|x stem IH]; [reflexivity|]. intros Hall.
  change (GoStrings.all_chars GoStrings.is_word (String x stem))
    with (GoStrings.is_word x && GoStrings.all_chars GoStrings.is_word stem) in Hall.
  apply andb_true_iff in Hall as [Hx Hstem].
  change (GoStrings.before_first "[" (String x (stem ++ String "[" rest)) = String x stem).
  cbn [GoStrings.before_first].
  destruct (Ascii.eqb_spec x "[") as [-> | _]; [discriminate Hx|].
  now rewrite IH.
Qed.

Lemma words_no_bracket_suffix (stem : string) :
  GoStrings.all_chars GoStrings.is_word stem = true ->
  GoStrings.HasSuffix stem "]" = false.
Proof.
  intros Hall. destruct (GoStrings.HasSuffix stem "]") eqn:Hsuffix; [|reflexivity].
  apply HasSuffix_split in Hsuffix as [s ->].
  rewrite all_chars_app in Hall. apply andb_true_iff in Hall as [_ Hlast].
  discriminate Hlast.
Qed.

Lemma is_upper_is_word (c : ascii) :
  GoStrings.is_upper_ascii c = true -> GoStrings.is_word c = true.
Proof.
  unfold GoStrings.is_word. intros ->. now rewrite orb_true_r.
Qed.

Lemma reference_array_form (spelling : string) :
  reference_type_matches spelling = true ->
  GoStrings.HasSuffix spelling "]" = true ->
  exists stem,
    spelling = stem ++ "[]"
    /\ GoStrings.all_chars GoStrings.is_word stem = true.
Proof.
  destruct spelling as [|c rest]; [easy|]. cbn [reference_type_matches].
  intros Hmatch Hsuffix.
  apply andb_true_iff in Hmatch as [Hupper Hrest].
  apply is_upper_is_word in Hupper.
  apply orb_true_iff in Hrest as [Hwords | Harray].
  - assert (Hall : GoStrings.all_chars GoStrings.is_word (String c rest) = true)
      by (cbn [GoStrings.all_chars]; now rewrite Hupper, Hwords).
    apply words_no_bracket_suffix in Hall. congruence.
  - apply andb_true_iff in Harray as [Hbrackets Hwords].
    apply HasSuffix_split in Hbrackets as [stem ->].
    rewrite TrimSuffix_app in Hwords.
    exists (String c stem). split; [reflexivity|].
    cbn [GoStrings.all_chars]. now rewrite Hupper, Hwords.
Qed.

Lemma primitive_array_form (spelling : string) :
  isPrimitiveTypeValid spelling = true ->
  GoStrings.HasSuffix spelling "]" = true ->
  exists stem,
    spelling = stem ++ "[]"
    /\ GoStrings.all_chars GoStrings.is_word stem = true
    /\ In stem scalar_registry.
Proof.
  intros Hvalid Hsuffix.
  apply isPrimitiveTypeValid_cases in Hvalid as (p & Hp & Heq).
  exists p. unfold scalar_registry in Hp |- *.
  repeat (destruct Hp as [<- | Hp];
          [destruct Heq as [-> | ->];
           [discriminate Hsuffix
           | split; [reflexivity|]; split; [reflexivity|]; cbn; tauto]|]).
  destruct Hp.
Qed.

Lemma validated_array_field_aux (t : Types) typeKey typeObj :
  descriptor_well_formed t typeKey typeObj ->
  GoStrings.HasSuffix (Typ typeObj) "]" = true ->
  isArray typeObj = true
  /\ GoStrings.before_first "[" (Typ typeObj) = typeName typeObj
  /\ GoStrings.HasSuffix (typeName typeObj) "]" = false
  /\ (is_Some (t !! typeName typeObj) \/ In (typeName typeObj) scalar_registry).
Proof.
  intros (_ & _ & _ & Hkind) Hsuffix.
  assert (Hform : exists stem,
             Typ typeObj = stem ++ "[]"
             /\ GoStrings.all_chars GoStrings.is_word stem = true
             /\ (is_Some (t !! typeName typeObj) \/ In stem scalar_registry)).
  { destruct Hkind as [(_ & Hbase & Hmatch) | (_ & Hprim)].
    - destruct (reference_array_form _ Hmatch Hsuffix) as (stem & Heq & Hwords).
      exists stem. auto.
    - destruct (primitive_array_form _ Hprim Hsuffix) as (stem & Heq & Hwords & Hreg).
      exists stem. auto. }
  destruct Hform as (stem & Heq & Hwords & Hkind').
  assert (Hname : typeName typeObj = stem).
  { unfold typeName. now rewrite Heq, HasSuffix_app, TrimSuffix_app. }
  unfold isArray. rewrite Hname, Heq, HasSuffix_app.
  split; [reflexivity|]. split; [now apply (before_first_words stem "]")|].
  split; [now apply words_no_bracket_suffix|].
  destruct Hkind' as [Hbase | Hreg]; [left; now rewrite <- Hname | now right].
Qed.

(** X17: in a dictionary that passes validation, a field type ending in a
    closing bracket is a one-dimensional array: the element type the value
    encoder takes (the text before the first opening bracket) is the
    validator's [typeName], it does not end in a bracket itself, and it is
    a key of the dictionary or a scalar spelling of the registry. *)
Theorem validated_array_field (t : Types) typeKey typeArr typeObj :
  TypesM.validate t = None ->
  t !! typeKey = Some typeArr ->
  In typeObj (elems typeArr) ->
  GoStrings.HasSuffix (Typ typeObj) "]" = true ->
  isArray typeObj = true
  /\ GoStrings.before_first "[" (Typ typeObj) = typeName typeObj
  /\ GoStrings.HasSuffix (typeName typeObj) "]" = false
  /\ (is_Some (t !! typeName typeObj) \/ In (typeName typeObj) scalar_registry).
Proof.
  intros Hval Hkey Hin.
  destruct (proj1 (Types_validate_aux t) Hval typeKey typeArr Hkey) as [_ Hfields].
  apply (validated_array_field_aux t typeKey), Hfields, Hin.
Qed.

Lemma validated_array_field_witness :
  isArray (mkType "members" "Person[]") = true
  /\ GoStrings.before_first "[" "Person[]" = typeName (mkType "members" "Person[]")
  /\ GoStrings.HasSuffix (typeName (mkType "members" "Person[]")) "]" = false
  /\ (is_Some (groupTypes !! typeName (mkType "members" "Person[]"))
      \/ In (typeName (mkType "members" "Person[]")) scalar_registry).
Proof.
  apply (validated_array_field groupTypes "Group"
           (Some [mkType "members" "Person[]"]) (mkType "members" "Person[]")).
  - vm_compute. reflexivity.
  - vm_compute. reflexivity.
  - now left.
  - vm_compute. reflexivity.
Defined.

(* ===================================================================== *)
(** ** Validator data: parsing and pre-image *)
(* ===================================================================== *)

Lemma SignTextValidator_bytes (validatorData : ValidatorData) :
  list_byte_of_string (snd (SignTextValidator validatorData))
  = (x19 :: x00 :: Address validatorData ++ VMessage validatorData)%list.
Proof.
  unfold SignTextValidator. cbn [snd].
  rewrite !list_byte_of_string_cons, list_byte_of_string_app.
  now rewrite !list_byte_of_string_of_list_byte.
Qed.

(** X19: for 20-byte addresses the pre-image determines the validator
    data: two inputs with the same pre-image have the same address and the
    same message. *)
Theorem SignTextValidator_injective (v1 v2 : ValidatorData) :
  List.length (Address v1) = 20%nat ->
  List.length (Address v2) = 20%nat ->
  snd (SignTextValidator v1) = snd (SignTextValidator v2) ->
  v1 = v2.
Proof.
  intros Hlen1 Hlen2 Heq.
  apply (f_equal list_byte_of_string) in Heq.
  rewrite !SignTextValidator_bytes in Heq. injection Heq as Heq.
  apply app_inj_1 in Heq as [Haddr Hmsg]; [|congruence].
  destruct v1, v2; cbn in *. congruence.
Qed.

Lemma SignTextValidator_injective_witness :
  mkValidatorData (repeat xab 20) [x01] = mkValidatorData (repeat xab 20) [x01].
Proof.
  apply (SignTextValidator_injective
           (mkValidatorData (repeat xab 20) [x01])
           (mkValidatorData (repeat xab 20) [x01])); reflexivity.
Defined.

Lemma decode_encode_pairs (b : list byte) :
  Hexutil.decode_pairs (Hexutil.encode_pairs b) = Ok b.
Proof.
  induction b as [|x b IH]; [reflexivity|].
  cbn [Hexutil.encode_pairs Hexutil.decode_pairs].
  pose proof (byte_Z_range x) as Hx.
  assert (Hhigh : 0 <= BigInt.byte_Z x / 16 < 16)
    by (split; [apply Z.div_pos | apply Z.div_lt_upper_bound]; lia).
  assert (Hlow : 0 <= BigInt.byte_Z x mod 16 < 16) by (apply Z.mod_pos_bound; lia).
  rewrite (hex_char_value _ Hhigh), (hex_char_value _ Hlow), IH.
  f_equal. f_equal.
  rewrite <- (Z.div_mod (BigInt.byte_Z x) 16) by lia.
  rewrite <- (Z_byte_byte_Z x 0) at 2. f_equal. lia.
Qed.

(** [hexutil.Decode] undoes [hexutil.Encode]. *)
Lemma Decode_Encode (b : list byte) : Hexutil.Decode (Hexutil.Encode b) = Ok b.
Proof. unfold Hexutil.Encode. apply decode_encode_pairs. Qed.

Lemma BytesToAddress_length (b : list byte) :
  List.length (Hexutil.BytesToAddress b) = 20%nat.
Proof.
  unfold Hexutil.BytesToAddress, GethCommon.AddressLength. cbv zeta.
  rewrite length_app, repeat_length, length_skipn. lia.
Qed.

Lemma BytesToAddress_20 (b : list byte) :
  List.length b = 20%nat -> Hexutil.BytesToAddress b = b.
Proof.
  intros Hlen. unfold Hexutil.BytesToAddress, GethCommon.AddressLength. cbv zeta.
  rewrite Hlen. change (skipn (20 - 20) b) with b. now rewrite Hlen.
Qed.

(** X20: whatever [UnmarshalValidatorData] accepts has a 20-byte address
    and a non-empty message, so the pre-image built from it is at least 23
    bytes long. *)
Theorem UnmarshalValidatorData_result (data : Value) (validatorData : ValidatorData) :
  UnmarshalValidatorData data = Ok validatorData ->
  List.length (Address validatorData) = 20%nat
  /\ VMessage validatorData <> []
  /\ (23 <= List.length
              (list_byte_of_string (snd (SignTextValidator validatorData))))%nat.
Proof.
  unfold UnmarshalValidatorData. intros Hok.
  destruct data; try easy.
  destruct (data_get m "address"); try easy.
  destruct (Hexutil.Decode s) as [addrBytes|]; [|easy].
  destruct (List.length addrBytes =? 0)%nat; [easy|].
  destruct (data_get m "message"); try easy.
  destruct (Hexutil.Decode s0) as [messageBytes|]; [|easy].
  destruct (Nat.eqb_spec (List.length messageBytes) 0) as [|Hne]; [easy|].
  injection Hok as <-. cbn [Address VMessage].
  split; [apply BytesToAddress_length|].
  split; [now destruct messageBytes|].
  rewrite SignTextValidator_bytes. cbn [Address VMessage List.length].
  rewrite length_app, BytesToAddress_length. lia.
Qed.

(** X21: a request that sends a 20-byte address and a non-empty message
    as [0x]-prefixed hex text is parsed back to exactly these bytes, and
    the pre-image built from the parsed data is 0x19, 0x00, the address,
    the message. *)
Theorem UnmarshalValidatorData_round_trip (raw : TypedDataMessage)
    (addr msg : list byte) :
  List.length addr = 20%nat ->
  msg <> [] ->
  data_get raw "address" = VString (Hexutil.Encode addr) ->
  data_get raw "message" = VString (Hexutil.Encode msg) ->
  UnmarshalValidatorData (VMap raw) = Ok (mkValidatorData addr msg)
  /\ list_byte_of_string (snd (SignTextValidator (mkValidatorData addr msg)))
     = (x19 :: x00 :: addr ++ msg)%list.
Proof.
  intros Hlen Hmsg Haddr Hmessage. split; [|apply SignTextValidator_bytes].
  unfold UnmarshalValidatorData.
  rewrite Haddr, Hmessage, !Decode_Encode, Hlen. cbn [Nat.eqb].
  destruct msg as [|x msg]; [easy|]. cbn [List.length Nat.eqb].
  now rewrite BytesToAddress_20.
Qed.

Lemma UnmarshalValidatorData_round_trip_witness :
  UnmarshalValidatorData
    (VMap [("address", VString (Hexutil.Encode (repeat xab 20)));
           ("message", VString (Hexutil.Encode [x01; xff]))])
  = Ok (mkValidatorData (repeat xab 20) [x01; xff])
  /\ list_byte_of_string
       (snd (SignTextValidator (mkValidatorData (repeat xab 20) [x01; xff])))
     = (x19 :: x00 :: repeat xab 20 ++ [x01; xff])%list.
Proof.
  apply (UnmarshalValidatorData_round_trip
           [("address", VString (Hexutil.Encode (repeat xab 20)));
            ("message", VString (Hexutil.Encode [x01; xff]))]
           (repeat xab 20) [x01; xff]); try reflexivity.
  discriminate.
Defined.

Lemma UnmarshalValidatorData_result_witness :
  List.length (Address (mkValidatorData (repeat xab 20) [x01; xff])) = 20%nat
  /\ VMessage (mkValidatorData (repeat xab 20) [x01; xff]) <> []
  /\ (23 <= List.length
              (list_byte_of_string
                 (snd (SignTextValidator
                         (mkValidatorData (repeat xab 20) [x01; xff])))))%nat.
Proof.
  apply (UnmarshalValidatorData_result
           (VMap [("address", VString "0xabababababababababababababababababababab");
                  ("message", VString "0x01ff")])).
  vm_compute. reflexivity.
Defined.

(* ===================================================================== *)
(** ** Messages accepted by [EncodeData] *)
(* ===================================================================== *)

Lemma data_get_key (data : TypedDataMessage) (key : string) :
  data_get data key <> VNil -> In key (map fst data).
Proof.
  induction data as [|[k v] data IH]; simpl; [easy|].
  destruct (String.eqb_spec k key) as [-> | Hne]; [now left | right; now apply IH].
Qed.

Lemma EncodeData_Ok_complete typedData primaryType data depth out :
  EncodeData typedData primaryType data depth = Ok out ->
  (data_len data <= List.length (elems (Types_get (types typedData) primaryType)))%nat
  /\ forall field,
       In field (elems (Types_get (types typedData) primaryType)) ->
       data_get data (Name field) <> VNil.
Proof.
  intros Henc.
  pose proof (EncodeData_unfold typedData primaryType data depth) as Heq.
  rewrite Henc in Heq. unfold EncodeData_body in Heq.
  destruct (TypedData_validate typedData); [easy|].
  destruct (Nat.ltb_spec (List.length (elems (Types_get (types typedData) primaryType)))
                         (data_len data)) as [|Hlen]; [easy|].
  split; [exact Hlen|]. intros field Hin Hnil.
  destruct (encode_field_nil (fun pt data' d => Some (EncodeData typedData pt data' d))
              typedData data depth field Hnil) as [err Hfield].
  destruct (encode_fields_error _ _ _ _ _ _ _ _ _ Hin Hfield Heq) as [err' Herr].
  discriminate Herr.
Qed.

(** X13: when [EncodeData] succeeds for a struct whose field names are
    distinct, the keys of the message are exactly the declared field
    names, and every key holds a non-nil value. *)
Theorem EncodeData_keys_exact typedData primaryType data depth out :
  EncodeData typedData primaryType data depth = Ok out ->
  NoDup (map Name (elems (Types_get (types typedData) primaryType))) ->
  forall key,
    (In key (map fst data)
     <-> In key (map Name (elems (Types_get (types typedData) primaryType))))
    /\ (In key (map fst data) -> data_get data key <> VNil).
Proof.
  intros Henc Hnodup.
  destruct (EncodeData_Ok_complete _ _ _ _ _ Henc) as [Hlen Hfields].
  set (fields := elems (Types_get (types typedData) primaryType)) in *.
  assert (Hsub : forall key, key ∈ map Name fields -> key ∈ remove_dups (map fst data)).
  { intros key Hkey. apply elem_of_remove_dups, list_elem_of_In.
    apply list_elem_of_In, in_map_iff in Hkey as (field & <- & Hfield).
    now apply data_get_key, Hfields. }
  assert (Hperm : map Name fields ≡ₚ remove_dups (map fst data)).
  { apply submseteq_length_Permutation; [now apply NoDup_submseteq|].
    rewrite length_map. exact Hlen. }
  assert (Hiff : forall key, In key (map fst data) <-> In key (map Name fields)).
  { intros key. rewrite <- !list_elem_of_In, Hperm. now rewrite elem_of_remove_dups. }
  intros key. split; [apply Hiff|].
  intros Hkey. apply Hiff, in_map_iff in Hkey as (field & <- & Hfield).
  now apply Hfields.
Qed.

Lemma EncodeData_keys_exact_witness :
  EncodeData mailData "Mail" mailMessage 1 = Ok mailEncoded
  /\ forall key,
       (In key (map fst mailMessage)
        <-> In key (map Name (elems (Types_get (types mailData) "Mail"))))
       /\ (In key (map fst mailMessage) -> data_get mailMessage key <> VNil).
Proof.
  split; [vm_compute; reflexivity |].
  apply (EncodeData_keys_exact mailData "Mail" mailMessage 1 mailEncoded).
  - vm_compute. reflexivity.
  - vm_compute. repeat constructor; rewrite ?elem_of_cons, elem_of_nil;
      intros H; repeat destruct H as [H | H]; try discriminate H; exact H.
Defined.

(* ===================================================================== *)
(** ** The domain as a message *)
(* ===================================================================== *)

Lemma domain_Map_salt (domain : TypedDataDomain.t) :
  data_get (TypedDataDomain_Map domain) "salt" = VNil
  \/ exists salt, data_get (TypedDataDomain_Map domain) "salt" = VString salt.
Proof.
  unfold TypedDataDomain_Map.
  destruct (TypedDataDomain.ChainId domain);
    destruct (0 <? String.length (TypedDataDomain.Name domain))%nat;
    destruct (0 <? String.length (TypedDataDomain.Version domain))%nat;
    destruct (0 <? String.length (TypedDataDomain.VerifyingContract domain))%nat;
    destruct (0 <? String.length (TypedDataDomain.Salt domain))%nat;
    cbn; eauto.
Qed.

Lemma HasPrefix_head (s : string) (p : ascii) (prefix : string) :
  GoStrings.HasPrefix s (String p prefix) = true -> exists rest, s = String p rest.
Proof.
  destruct s as [|c rest]; [easy|]. cbn [GoStrings.HasPrefix]. intros H.
  apply andb_true_iff in H as [Hc _]. apply Ascii.eqb_eq in Hc as ->. eauto.
Qed.

Lemma bytes_prefix_rejects_text (encType text : string) (depth : Z) :
  GoStrings.HasPrefix encType "bytes" = true ->
  exists err, EncodePrimitiveValue encType (VString text) depth = Err err.
Proof.
  intros Hprefix.
  destruct (EncodePrimitiveValue encType (VString text) depth) as [word|] eqn:Henc;
    [|eauto].
  apply EncodePrimitiveValue_accepts in Henc. cbn [accepted_under] in Henc.
  destruct Henc as [-> | [-> | [Hint | Huint]]]; try discriminate Hprefix;
    apply HasPrefix_head in Hprefix as [rest ->].
  - apply HasPrefix_head in Hint as [rest' Hint]. discriminate Hint.
  - apply HasPrefix_head in Huint as [rest' Huint]. discriminate Huint.
Qed.

(** X18: the domain flattened by [Map] carries the salt as a text, which
    no [bytes] spelling accepts: whenever the struct being encoded
    declares a field named [salt] with a type spelling that starts with
    [bytes] (such as [bytes32]), [EncodeData] of the flattened domain
    fails, whether the salt is populated or not. *)
Theorem domain_salt_bytes_rejected typedData primaryType domain depth field :
  In field (elems (Types_get (types typedData) primaryType)) ->
  Name field = "salt" ->
  GoStrings.HasPrefix (Typ field) "bytes" = true ->
  exists err,
    EncodeData typedData primaryType (TypedDataDomain_Map domain) depth = Err err.
Proof.
  intros Hin Hname Hprefix.
  destruct (EncodeData typedData primaryType (TypedDataDomain_Map domain) depth)
    as [out | err] eqn:Henc; [exfalso | eauto].
  pose proof (EncodeData_unfold typedData primaryType (TypedDataDomain_Map domain) depth)
    as Heq.
  rewrite Henc in Heq. unfold EncodeData_body in Heq.
  destruct (TypedData_validate typedData); [easy|].
  destruct (_ <? _)%nat; [easy|].
  assert (Hfield : exists err,
             encode_field (fun pt data' d => Some (EncodeData typedData pt data' d))
                          typedData (TypedDataDomain_Map domain) depth field
             = Some (Err err)).
  { destruct (domain_Map_salt domain) as [Hnil | [salt Hsalt]].
    - apply encode_field_nil. now rewrite Hname.
    - unfold encode_field. rewrite Hname, Hsalt.
      destruct (GoStrings.HasSuffix (Typ field) "]"); [eauto|].
      destruct (Types_get (types typedData) (Typ field)); [eauto|].
      destruct (bytes_prefix_rejects_text (Typ field) salt depth Hprefix) as [err ->].
      eauto. }
  destruct Hfield as [err Hfield].
  destruct (encode_fields_error _ _ _ _ _ _ _ _ _ Hin Hfield Heq) as [err' Herr].
  discriminate Herr.
Qed.

Lemma domain_salt_bytes_rejected_witness :
  exists err,
    EncodeData
      (mkTypedData (<["EIP712Domain" := Some [mkType "salt" "bytes32"]]> ∅)
                   "EIP712Domain" (TypedDataDomain.mk "" "" None "" "0x01") [])
      "EIP712Domain"
      (TypedDataDomain_Map (TypedDataDomain.mk "" "" None "" "0x01")) 1 = Err err.
Proof.
  apply (domain_salt_bytes_rejected
           (mkTypedData (<["EIP712Domain" := Some [mkType "salt" "bytes32"]]> ∅)
                        "EIP712Domain" (TypedDataDomain.mk "" "" None "" "0x01") [])
           "EIP712Domain" (TypedDataDomain.mk "" "" None "" "0x01") 1
           (mkType "salt" "bytes32")).
  - vm_compute. now left.
  - reflexivity.
  - reflexivity.
Defined.

(* ===================================================================== *)
(** ** The [bytesN] word for values of any length *)
(* ===================================================================== *)

Lemma SetBytes_cons (x : byte) (b : list byte) :
  BigInt.SetBytes (x :: b)
  = BigInt.byte_Z x * 256 ^ Z.of_nat (List.length b) + BigInt.SetBytes b.
Proof.
  induction b as [|y b IH] using rev_ind.
  - change (BigInt.SetBytes [x]) with (256 * 0 + BigInt.byte_Z x).
    change (BigInt.SetBytes []) with 0. change (256 ^ Z.of_nat (List.length [])) with 1.
    lia.
  - rewrite app_comm_cons, !SetBytes_snoc, IH, length_app, Nat2Z.inj_add, Z.pow_add_r by lia.
    change (256 ^ Z.of_nat (List.length [y])) with 256. lia.
Qed.

Lemma SetBytes_strip_zeros (b : list byte) :
  BigInt.SetBytes (strip_zeros b) = BigInt.SetBytes b.
Proof.
  induction b as [|x b IH]; [reflexivity|].
  destruct x; try reflexivity. cbn [strip_zeros]. rewrite IH, SetBytes_cons.
  change (BigInt.byte_Z x00) with 0. lia.
Qed.

Lemma strip_zeros_head (b : list byte) :
  match strip_zeros b with
  | [] => True
  | x :: _ => 1 <= BigInt.byte_Z x
  end.
Proof.
  induction b as [|x b IH]; [exact I|].
  destruct x; try exact IH; cbn [strip_zeros]; vm_compute; discriminate.
Qed.

Lemma strip_zeros_length (b : list byte) :
  (List.length (strip_zeros b) <= List.length b)%nat.
Proof.
  induction b as [|x b IH]; [reflexivity|].
  destruct x; cbn [strip_zeros List.length]; lia.
Qed.

(** Bit length of a slice read as a number when its first byte is not
    zero: more than eight times the length of the rest, at most eight
    times its length. *)
Lemma BitLen_SetBytes (x : byte) (b : list byte) :
  1 <= BigInt.byte_Z x ->
  8 * Z.of_nat (List.length b) < BigInt.BitLen (BigInt.SetBytes (x :: b))
  <= 8 * Z.of_nat (List.length (x :: b)).
Proof.
  intros Hx.
  pose proof (SetBytes_range (x :: b)) as Hrange.
  pose proof (SetBytes_range b) as Hrest.
  assert (Hpow : forall n : nat, 256 ^ Z.of_nat n = 2 ^ (8 * Z.of_nat n)).
  { intros n. change 256 with (2 ^ 8). now rewrite <- Z.pow_mul_r by lia. }
  rewrite Hpow in Hrange. split.
  - assert (Hlow : 2 ^ (8 * Z.of_nat (List.length b)) <= BigInt.SetBytes (x :: b)).
    { rewrite SetBytes_cons, <- Hpow.
      assert (0 < 256 ^ Z.of_nat (List.length b)) by (apply Z.pow_pos_nonneg; lia).
      nia. }
    unfold BigInt.BitLen. rewrite Z.abs_eq by lia.
    assert (0 < 2 ^ (8 * Z.of_nat (List.length b))) by (apply Z.pow_pos_nonneg; lia).
    destruct (Z.eqb_spec (BigInt.SetBytes (x :: b)) 0); [lia|].
    apply Z.log2_le_pow2 in Hlow; lia.
  - apply BitLen_bound; lia.
Qed.

Lemma Bytes_SetBytes (b : list byte) :
  match b with [] => True | x :: _ => 1 <= BigInt.byte_Z x end ->
  BigInt.Bytes (BigInt.SetBytes b) = b.
Proof.
  destruct b as [|x b]; [reflexivity|]. intros Hx.
  pose proof (BitLen_SetBytes x b Hx) as Hbits.
  pose proof (SetBytes_range (x :: b)) as Hrange.
  unfold BigInt.Bytes. rewrite Z.abs_eq by lia.
  replace (Z.to_nat ((BigInt.BitLen (BigInt.SetBytes (x :: b)) + 7) / 8))
    with (List.length (x :: b)).
  - rewrite be_bytes_SetBytes by lia. now rewrite Nat.sub_diag.
  - cbn [List.length] in *. rewrite Nat2Z.inj_succ in Hbits.
    assert ((BigInt.BitLen (BigInt.SetBytes (x :: b)) + 7) / 8
            = Z.succ (Z.of_nat (List.length b))); [|lia].
    pose proof (Z.div_mod (BigInt.BitLen (BigInt.SetBytes (x :: b)) + 7) 8 ltac:(lia)).
    pose proof (Z.mod_pos_bound (BigInt.BitLen (BigInt.SetBytes (x :: b)) + 7) 8
                  ltac:(lia)).
    lia.
Qed.

Lemma PaddedBigBytes_SetBytes (b : list byte) :
  GethMath.PaddedBigBytes (BigInt.SetBytes b) 32
  = (repeat x00 (32 - List.length (strip_zeros b)) ++ strip_zeros b)%list.
Proof.
  rewrite <- SetBytes_strip_zeros.
  pose proof (strip_zeros_head b) as Hhead.
  set (s := strip_zeros b) in *.
  destruct (le_lt_dec (List.length s) 32) as [Hshort | Hlong].
  - pose proof (SetBytes_range s) as Hrange.
    assert (256 ^ Z.of_nat (List.length s) <= 256 ^ 32) by (apply Z.pow_le_mono_r; lia).
    change (256 ^ 32) with (2 ^ 256) in *.
    rewrite PaddedBigBytes_32 by lia. now apply be_bytes_SetBytes.
  - replace (32 - List.length s)%nat with O by lia. cbn [repeat app].
    destruct s as [|x s'] eqn:Hs; [cbn in Hlong; lia|].
    pose proof (BitLen_SetBytes x s' Hhead) as Hbits.
    unfold GethMath.PaddedBigBytes. cbn [List.length] in Hlong.
    destruct (Z.geb_spec (BigInt.BitLen (BigInt.SetBytes (x :: s')) / 8) (Z.of_nat 32))
      as [_ | Hlt].
    + now apply Bytes_SetBytes.
    + exfalso. change (Z.of_nat 32) with 32 in Hlt.
      assert (32 <= BigInt.BitLen (BigInt.SetBytes (x :: s')) / 8);
        [apply Z.div_le_lower_bound; lia | lia].
Qed.

(** X11: under a sized [bytes] spelling (size 0 to 32) a [hexutil.Bytes]
    value of any length is accepted, and the result is the value without
    its leading zero bytes, padded with zero bytes in front up to 32
    bytes: a value with more than 32 significant bytes comes back longer
    than a word. *)
Theorem fixed_bytes_word (size : string) (n : Z) (byteValue : list byte) (depth : Z) :
  size <> "" ->
  GoStrings.Atoi size = Some n ->
  0 <= n <= 32 ->
  EncodePrimitiveValue ("bytes" ++ size) (VHexBytes byteValue) depth
  = Ok (repeat x00 (32 - List.length (strip_zeros byteValue))
        ++ strip_zeros byteValue)%list.
Proof.
  intros Hsize Hatoi Hn. unfold EncodePrimitiveValue.
  assert (Hnot : String.eqb ("bytes" ++ size) "bytes" = false).
  { change (String.eqb size "" = false). destruct size; [congruence | reflexivity]. }
  rewrite Hnot.
  change (String.eqb ("bytes" ++ size) "address") with false.
  change (String.eqb ("bytes" ++ size) "bool") with false.
  change (String.eqb ("bytes" ++ size) "string") with false.
  rewrite HasPrefix_app. cbv iota.
  unfold encode_fixed_bytes, GoStrings.TrimPrefix.
  rewrite HasPrefix_app, drop_chars_app, Hatoi.
  destruct (Z.ltb_spec n 0); [lia|]. destruct (Z.gtb_spec n 32); [lia|].
  cbn [orb]. f_equal. apply PaddedBigBytes_SetBytes.
Qed.

Lemma fixed_bytes_word_witness :
  EncodePrimitiveValue ("bytes" ++ "2") (VHexBytes [x00; x00; x07]) 1
  = Ok (repeat x00 (32 - List.length (strip_zeros [x00; x00; x07]))
        ++ strip_zeros [x00; x00; x07])%list.
Proof.
  apply (fixed_bytes_word "2" 2 [x00; x00; x07] 1).
  - discriminate.
  - reflexivity.
  - lia.
Defined.

(* ===================================================================== *)
(** ** The recursion of [formatData] is bounded by the message *)
(* ===================================================================== *)

Section FormatDataFuel.

Variable printer : Printer.
Variable typedData : TypedData.

Lemma format_items_mono rec1 rec2 field encValue parsedType arrayValue value r :
  format_le rec1 rec2 ->
  format_items rec1 printer typedData field encValue parsedType arrayValue value = Some r ->
  format_items rec2 printer typedData field encValue parsedType arrayValue value = Some r.
Proof.
  intros Hle. revert value.
  induction arrayValue as [|v items IH]; intros value; simpl; [easy|].
  destruct (Types_get (types typedData) parsedType).
  - destruct (rec1 parsedType (as_map v)) as [[out | e]|] eqn:Hrec; [| |easy];
      rewrite (Hle _ _ _ Hrec); [apply IH | easy].
  - destruct (formatPrimitiveValue printer (Typ field) encValue); [apply IH | easy].
Qed.

Lemma format_field_mono rec1 rec2 data field r :
  format_le rec1 rec2 ->
  format_field rec1 printer typedData data field = Some r ->
  format_field rec2 printer typedData data field = Some r.
Proof.
  intros Hle. unfold format_field.
  destruct (isArray field).
  - destruct (format_items rec1 _ _ _ _ _ _ _) as [r1|] eqn:Hitems; [|easy].
    now rewrite (format_items_mono _ _ _ _ _ _ _ _ Hle Hitems).
  - destruct (Types_get (types typedData) (Typ field)); [|easy].
    destruct (data_get data (Name field)); try easy.
    destruct (rec1 (Typ field) m) as [r1|] eqn:Hrec; [|easy].
    now rewrite (Hle _ _ _ Hrec).
Qed.

Lemma format_fields_mono rec1 rec2 data fields output r :
  format_le rec1 rec2 ->
  format_fields rec1 printer typedData data fields output = Some r ->
  format_fields rec2 printer typedData data fields output = Some r.
Proof.
  intros Hle. revert output.
  induction fields as [|field fields IH]; intros output; simpl; [easy|].
  destruct (format_field rec1 printer typedData data field) as [r1|] eqn:Hfield; [|easy].
  rewrite (format_field_mono _ _ _ _ _ Hle Hfield).
  destruct r1; [apply IH | easy].
Qed.

Lemma formatData_fuel_mono (fuel fuel' : nat) :
  (fuel <= fuel')%nat ->
  format_le (formatData_fuel fuel printer typedData)
            (formatData_fuel fuel' printer typedData).
Proof.
  revert fuel'. induction fuel as [|fuel IH]; intros fuel' Hle pt data r; simpl; [easy|].
  destruct fuel' as [|fuel']; [lia|]. simpl.
  apply format_fields_mono, IH. lia.
Qed.

Lemma height_as_map (v : Value) : (height (VMap (as_map v)) <= Nat.max 1 (height v))%nat.
Proof. destruct v; simpl; lia. Qed.

Lemma format_items_total n rec field encValue parsedType arrayValue value :
  format_total n rec ->
  (1 <= n)%nat ->
  (forall v, In v arrayValue -> (height v <= n)%nat) ->
  exists r,
    format_items rec printer typedData field encValue parsedType arrayValue value = Some r.
Proof.
  intros Hrec Hn. revert value.
  induction arrayValue as [|v items IH]; intros value Hitems; simpl; [eauto|].
  assert (Hrest : forall v, In v items -> (height v <= n)%nat)
    by (intros; apply Hitems; now right).
  destruct (Types_get (types typedData) parsedType).
  - destruct (Hrec parsedType (as_map v)) as [[out | e] ->]; eauto.
    pose proof (height_as_map v). pose proof (Hitems v (or_introl eq_refl)). lia.
  - destruct (formatPrimitiveValue printer (Typ field) encValue); eauto.
Qed.

Lemma format_field_total n rec data field :
  format_total n rec ->
  (height (VMap data) <= S n)%nat ->
  exists r, format_field rec printer typedData data field = Some r.
Proof.
  intros Hrec Hdata. unfold format_field.
  pose proof (height_data_get data (Name field)) as Hget.
  destruct (isArray field).
  - destruct (data_get data (Name field)) eqn:Hvalue;
      try (cbn [format_items]; eauto; fail).
    destruct (format_items_total n rec field (VArray items) (typeName field) items NvtNil Hrec)
      as [[value | e] ->]; eauto.
    + simpl in Hget, Hdata. lia.
    + intros v Hin. apply height_item_le in Hin. simpl in Hget, Hdata. lia.
  - destruct (Types_get (types typedData) (Typ field)).
    + destruct (data_get data (Name field)) eqn:Hvalue; eauto.
      destruct (Hrec (Typ field) m) as [[out | e] ->]; eauto. lia.
    + destruct (formatPrimitiveValue _ _ _); eauto.
Qed.

Lemma format_fields_total n rec data fields output :
  format_total n rec ->
  (height (VMap data) <= S n)%nat ->
  exists r, format_fields rec printer typedData data fields output = Some r.
Proof.
  intros Hrec Hdata. revert output.
  induction fields as [|field fields IH]; intros output; simpl; [eauto|].
  destruct (format_field_total n rec data field Hrec Hdata) as [[item | e] ->]; eauto.
Qed.

(** Enough fuel gives a result. *)
Lemma formatData_fuel_total (fuel : nat) :
  format_total fuel (formatData_fuel fuel printer typedData).
Proof.
  induction fuel as [|fuel IH]; intros pt data Hheight; [simpl in Hheight; lia|].
  simpl. now apply format_fields_total with (n := fuel).
Qed.

Lemma formatData_fuel_spec (fuel : nat) primaryType data r :
  formatData_fuel fuel printer typedData primaryType data = Some r ->
  formatData printer typedData primaryType data = r.
Proof.
  intros Hfuel. unfold formatData.
  destruct (formatData_fuel_total (height (VMap data)) primaryType data (le_n _))
    as [r' Hr'].
  rewrite Hr'.
  destruct (Nat.le_ge_cases fuel (height (VMap data))) as [Hle | Hle].
  - apply (formatData_fuel_mono _ _ Hle) in Hfuel. congruence.
  - apply (formatData_fuel_mono _ _ Hle) in Hr'. congruence.
Qed.

(** [formatData] satisfies the recursive equation of the source. *)
Lemma formatData_unfold primaryType data :
  format_fields (fun pt data' => Some (formatData printer typedData pt data'))
                printer typedData data
                (elems (Types_get (types typedData) primaryType)) []
  = Some (formatData printer typedData primaryType data).
Proof.
  destruct (formatData_fuel_total (S (height (VMap data))) primaryType data)
    as [r Hr]; [lia|].
  rewrite (formatData_fuel_spec _ _ _ _ Hr).
  change (format_fields (formatData_fuel (height (VMap data)) printer typedData)
                        printer typedData data
                        (elems (Types_get (types typedData) primaryType)) []
          = Some r) in Hr.
  refine (format_fields_mono _ _ _ _ _ _ _ Hr).
  intros pt data' r' Hrec. f_equal. now apply formatData_fuel_spec in Hrec.
Qed.

End FormatDataFuel.

(* ===================================================================== *)
(** ** What the format flattener renders *)
(* ===================================================================== *)

Lemma format_field_entry rec printer typedData data field item :
  format_field rec printer typedData data field = Some (Ok item) ->
  nvt_name item = Name field /\ nvt_typ item = Typ field.
Proof.
  unfold format_field.
  destruct (isArray field).
  - destruct (format_items _ _ _ _ _ _ _ _) as [[value | e]|]; try easy.
    now intros [= <-].
  - destruct (Types_get (types typedData) (Typ field)).
    + destruct (data_get data (Name field));
        try (now intros [= <-]).
      destruct (rec _ _) as [[out | e]|]; try easy. now intros [= <-].
    + destruct (formatPrimitiveValue _ _ _); try easy. now intros [= <-].
Qed.

Lemma format_fields_entries rec printer typedData data fields output out :
  format_fields rec printer typedData data fields output = Some (Ok out) ->
  map nvt_name out = (map nvt_name output ++ map Name fields)%list
  /\ map nvt_typ out = (map nvt_typ output ++ map Typ fields)%list.
Proof.
  revert output. induction fields as [|field fields IH]; intros output; simpl.
  - intros [= <-]. now rewrite !app_nil_r.
  - destruct (format_field rec printer typedData data field) as [[item | e]|] eqn:Hfield;
      try easy.
    intros Hrest. destruct (IH _ Hrest) as [Hnames Htyps].
    destruct (format_field_entry _ _ _ _ _ _ Hfield) as [Hname Htyp].
    rewrite Hnames, Htyps, !map_app. cbn [map]. rewrite Hname, Htyp.
    now rewrite <- !app_assoc.
Qed.

(** X22: on success [formatData] returns one entry per declared field of
    the struct, in the declared order, each under the declared name and
    type. *)
Theorem formatData_entries printer typedData primaryType data output :
  formatData printer typedData primaryType data = Ok output ->
  map nvt_name output = map Name (elems (Types_get (types typedData) primaryType))
  /\ map nvt_typ output = map Typ (elems (Types_get (types typedData) primaryType)).
Proof.
  intros Hok. pose proof (formatData_unfold printer typedData primaryType data) as Heq.
  rewrite Hok in Heq. now apply format_fields_entries in Heq.
Qed.

Lemma formatData_entries_witness :
  map nvt_name [NVT "members" (NvtList [NVT "name" (NvtText "Bob") "string"]) "Person[]"]
  = map Name (elems (Types_get (types groupData) "Group"))
  /\ map nvt_typ
       [NVT "members" (NvtList [NVT "name" (NvtText "Bob") "string"]) "Person[]"]
     = map Typ (elems (Types_get (types groupData) "Group")).
Proof.
  apply (formatData_entries plainPrinter groupData "Group" groupMessage).
  vm_compute. reflexivity.
Defined.

Lemma format_fields_error rec printer typedData data fields output field err r :
  In field fields ->
  format_field rec printer typedData data field = Some (Err err) ->
  format_fields rec printer typedData data fields output = Some r ->
  exists err', r = Err err'.
Proof.
  revert output. induction fields as [|f fields IH]; intros output Hin Hfield; [easy|].
  simpl. destruct (format_field rec printer typedData data f) as [[item | e]|] eqn:Hf.
  - destruct Hin as [-> | Hin]; [congruence | now apply IH].
  - intros [= <-]. eauto.
  - easy.
Qed.

Lemma format_fields_item rec printer typedData data fields output field item out :
  In field fields ->
  format_field rec printer typedData data field = Some (Ok item) ->
  format_fields rec printer typedData data fields output = Some (Ok out) ->
  In item out.
Proof.
  assert (Hkeep : forall fields output out x,
             format_fields rec printer typedData data fields output = Some (Ok out) ->
             In x output -> In x out).
  { intros fs. induction fs as [|f fs IH]; intros o out' x; simpl.
    - now intros [= <-].
    - destruct (format_field rec printer typedData data f) as [[i | e]|]; try easy.
      intros Hrest Hx. apply (IH _ _ _ Hrest). apply in_or_app. now left. }
  revert output. induction fields as [|f fields IH]; intros output Hin Hfield; [easy|].
  simpl. destruct (format_field rec printer typedData data f) as [[i | e]|] eqn:Hf;
    try easy.
  destruct Hin as [-> | Hin].
  - intros Hrest. apply (Hkeep _ _ _ _ Hrest). apply in_or_app. right.
    left. congruence.
  - now apply IH.
Qed.

Lemma last_char_app (a b : string) :
  b <> "" -> GoStrings.last_char (a ++ b) = GoStrings.last_char b.
Proof.
  intros Hb. induction a as [|x a IH]; [reflexivity|].
  change (GoStrings.last_char (String x (a ++ b)) = GoStrings.last_char b).
  cbn [GoStrings.last_char]. rewrite IH.
  destruct (a ++ b) eqn:Hab; [|reflexivity].
  destruct a; [now subst | discriminate Hab].
Qed.

Lemma digits_value_last (acc : Z) (body : string) (n : Z) :
  GoStrings.digits_value acc body = Some n ->
  match GoStrings.last_char body with
  | Some c => GoStrings.is_digit c = true
  | None => True
  end.
Proof.
  revert acc. induction body as [|c body IH]; intros acc; [easy|].
  cbn [GoStrings.digits_value GoStrings.last_char].
  destruct (GoStrings.is_digit c) eqn:Hc; [|easy].
  intros Hrest. specialize (IH _ Hrest). now destruct body.
Qed.

Lemma Atoi_last_digit (s : string) (n : Z) :
  GoStrings.Atoi s = Some n ->
  exists c, GoStrings.last_char s = Some c /\ GoStrings.is_digit c = true.
Proof.
  unfold GoStrings.Atoi.
  destruct (GoStrings.split_sign s) as [neg body] eqn:Hsign.
  destruct body as [|c body]; [easy|].
  destruct (GoStrings.digits_value 0 (String c body)) as [v|] eqn:Hdigits; [|easy].
  intros _. apply digits_value_last in Hdigits.
  assert (Hlast : GoStrings.last_char s = GoStrings.last_char (String c body)).
  { unfold GoStrings.split_sign in Hsign.
    destruct s as [|x s']; [discriminate Hsign|].
    destruct (Ascii.eqb_spec x "-") as [-> | Hminus].
    - injection Hsign as _ ->. reflexivity.
    - destruct (Ascii.eqb_spec x "+") as [-> | Hplus].
      + injection Hsign as _ ->. reflexivity.
      + assert (Hbody : String c body = String x s'); [|now rewrite Hbody].
        revert Hsign. clear -Hminus Hplus.
        destruct x as [[] [] [] [] [] [] [] []]; intros [= _ <-]; try reflexivity;
          congruence. }
  rewrite Hlast.
  destruct (GoStrings.last_char (String c body)) as [d|] eqn:Hd; [eauto|].
  exfalso. clear -Hd. revert c Hd.
  induction body as [|c' body IH]; intros c Hd; [discriminate Hd | exact (IH c' Hd)].
Qed.

Lemma HasSuffix_last (s : string) (c : ascii) :
  GoStrings.HasSuffix s (String c "") = true -> GoStrings.last_char s = Some c.
Proof.
  intros H. apply HasSuffix_split in H as [stem ->]. now rewrite last_char_app.
Qed.

Lemma array_suffix_bracket (s : string) :
  GoStrings.HasSuffix s "[]" = true -> GoStrings.last_char s = Some "]"%char.
Proof.
  intros H. apply HasSuffix_split in H as [stem ->]. now rewrite last_char_app.
Qed.

(** The whole array type is no spelling [formatPrimitiveValue] knows,
    unless it starts with [bytes]. *)
Lemma formatPrimitiveValue_array_type printer encType encValue :
  GoStrings.HasSuffix encType "[]" = true ->
  GoStrings.HasPrefix encType "bytes" = false ->
  exists err, formatPrimitiveValue printer encType encValue = Err err.
Proof.
  intros Hsuffix Hbytes. unfold formatPrimitiveValue.
  destruct (String.eqb_spec encType "address") as [-> | _]; [discriminate Hsuffix|].
  destruct (String.eqb_spec encType "bool") as [-> | _]; [discriminate Hsuffix|].
  destruct (String.eqb_spec encType "bytes") as [-> | _]; [discriminate Hsuffix|].
  destruct (String.eqb_spec encType "string") as [-> | _]; [discriminate Hsuffix|].
  cbn [orb]. rewrite Hbytes.
  destruct (GoStrings.HasPrefix encType "uint" || GoStrings.HasPrefix encType "int")
    eqn:Hint; [|eauto].
  unfold parseInteger, integer_length.
  destruct (String.eqb_spec encType "int") as [-> | _]; [discriminate Hsuffix|].
  destruct (String.eqb_spec encType "uint") as [-> | _]; [discriminate Hsuffix|].
  cbn [orb].
  pose proof (array_suffix_bracket _ Hsuffix) as Hlast.
  assert (Hsize : forall prefix,
             prefix <> "" ->
             GoStrings.HasPrefix encType prefix = true ->
             encType <> prefix ->
             GoStrings.Atoi (GoStrings.TrimPrefix encType prefix) = None).
  { intros prefix Hne Hprefix Hneq. unfold GoStrings.TrimPrefix. rewrite Hprefix.
    destruct (GoStrings.Atoi _) as [n|] eqn:Hatoi; [|reflexivity].
    apply Atoi_last_digit in Hatoi as (c & Hc & Hdigit).
    apply HasPrefix_split in Hprefix.
    destruct (GoStrings.drop_chars (String.length prefix) encType) as [|x rest] eqn:Hrest;
      [discriminate Hc|].
    rewrite Hprefix, last_char_app in Hlast by easy.
    rewrite Hc in Hlast. injection Hlast as ->. discriminate Hdigit. }
  destruct (GoStrings.HasPrefix encType "uint") eqn:Huint.
  - rewrite (Hsize "uint") by (try easy; intros ->; discriminate Hsuffix). eauto.
  - cbn [orb] in Hint.
    rewrite (Hsize "int") by (try easy; intros ->; discriminate Hsuffix). eauto.
Qed.

(** X23: [formatData] fails on every message in which a field of an
    array type whose elements are not structs, and whose spelling does not
    start with [bytes], holds a non-empty array: the loop formats the whole
    array under the array spelling, which the primitive formatter does not
    know.  Arrays of address, bool, string, int and uint cannot be shown. *)
Theorem formatData_primitive_array_fails printer typedData primaryType data field
    v arrayValue :
  In field (elems (Types_get (types typedData) primaryType)) ->
  isArray field = true ->
  Types_get (types typedData) (typeName field) = None ->
  GoStrings.HasPrefix (Typ field) "bytes" = false ->
  data_get data (Name field) = VArray (v :: arrayValue) ->
  exists err, formatData printer typedData primaryType data = Err err.
Proof.
  intros Hin Harray Helem Hbytes Hvalue.
  pose proof (formatData_unfold printer typedData primaryType data) as Heq.
  destruct (formatPrimitiveValue_array_type printer (Typ field) (VArray (v :: arrayValue)))
    as [err Herr]; [exact Harray | exact Hbytes|].
  eapply format_fields_error with (err := err); [exact Hin | | exact Heq].
  unfold format_field. rewrite Harray, Hvalue. cbn [format_items].
  now rewrite Helem, Herr.
Qed.

Lemma formatData_primitive_array_fails_witness :
  exists err,
    formatData plainPrinter
      (mkTypedData (<["Poll" := Some [mkType "votes" "uint8[]"]]> ∅) "Poll"
                   (TypedDataDomain.mk "Poll" "" None "" "") [])
      "Poll" [("votes", VArray [VString "1"; VString "2"])] = Err err.
Proof.
  apply (formatData_primitive_array_fails plainPrinter
           (mkTypedData (<["Poll" := Some [mkType "votes" "uint8[]"]]> ∅) "Poll"
                        (TypedDataDomain.mk "Poll" "" None "" "") [])
           "Poll" [("votes", VArray [VString "1"; VString "2"])]
           (mkType "votes" "uint8[]") (VString "1") [VString "2"]).
  - vm_compute. now left.
  - vm_compute. reflexivity.
  - vm_compute. reflexivity.
  - reflexivity.
  - reflexivity.
Defined.

Lemma format_items_last rec printer typedData field encValue parsedType
    arrayValue last value result fields :
  Types_get (types typedData) parsedType = Some fields ->
  format_items rec printer typedData field encValue parsedType
               (arrayValue ++ [last]) value = Some (Ok result) ->
  exists lastOutput,
    rec parsedType (as_map last) = Some (Ok lastOutput)
    /\ result = NvtList lastOutput.
Proof.
  intros Hget. revert value.
  induction arrayValue as [|v items IH]; intros value; simpl; rewrite Hget.
  - destruct (rec parsedType (as_map last)) as [[out | e]|]; try easy.
    intros [= <-]. eauto.
  - destruct (rec parsedType (as_map v)) as [[out | e]|]; try easy. apply IH.
Qed.

Lemma format_items_answers rec printer typedData field encValue parsedType
    arrayValue value :
  (forall pt data, exists r, rec pt data = Some r) ->
  exists r,
    format_items rec printer typedData field encValue parsedType arrayValue value = Some r.
Proof.
  intros Hrec. revert value.
  induction arrayValue as [|v items IH]; intros value; simpl; [eauto|].
  destruct (Types_get (types typedData) parsedType).
  - destruct (Hrec parsedType (as_map v)) as [[out | e] ->]; eauto.
  - destruct (formatPrimitiveValue printer (Typ field) encValue); eauto.
Qed.

(** X24: for a field holding an array of structs, the entry [formatData]
    returns carries the rendering of the last element only; the renderings
    of the elements before it are overwritten. *)
Theorem formatData_array_keeps_last printer typedData primaryType data field
    arrayValue last output fields :
  In field (elems (Types_get (types typedData) primaryType)) ->
  isArray field = true ->
  Types_get (types typedData) (typeName field) = Some fields ->
  data_get data (Name field) = VArray (arrayValue ++ [last]) ->
  formatData printer typedData primaryType data = Ok output ->
  exists lastOutput,
    formatData printer typedData (typeName field) (as_map last) = Ok lastOutput
    /\ In (NVT (Name field) (NvtList lastOutput) (Typ field)) output.
Proof.
  intros Hin Harray Helem Hvalue Hok.
  pose proof (formatData_unfold printer typedData primaryType data) as Heq.
  rewrite Hok in Heq.
  set (rec := fun pt data' => Some (formatData printer typedData pt data')) in *.
  destruct (format_field rec printer typedData data field) as [[item | err]|] eqn:Hfield.
  - pose proof (format_fields_item _ _ _ _ _ _ _ _ _ Hin Hfield Heq) as Hitem.
    unfold format_field in Hfield. rewrite Harray, Hvalue in Hfield.
    destruct (format_items rec _ _ _ _ _ _ _) as [[value | e]|] eqn:Hitems; try easy.
    destruct (format_items_last _ _ _ _ _ _ _ _ _ _ _ Helem Hitems)
      as (lastOutput & Hlast & ->).
    injection Hfield as <-. injection Hlast as Hlast. eauto.
  - destruct (format_fields_error _ _ _ _ _ _ _ _ _ Hin Hfield Heq) as [e He].
    discriminate He.
  - exfalso. unfold format_field in Hfield. rewrite Harray, Hvalue in Hfield.
    destruct (format_items_answers rec printer typedData field
                (VArray (arrayValue ++ [last])) (typeName field)
                (arrayValue ++ [last]) NvtNil) as [r Hr]; [unfold rec; eauto|].
    rewrite Hr in Hfield. now destruct r.
Qed.

Lemma formatData_array_keeps_last_witness :
  exists lastOutput,
    formatData plainPrinter groupData "Person" (as_map (VMap [("name", VString "Bob")]))
    = Ok lastOutput
    /\ In (NVT "members" (NvtList lastOutput) "Person[]")
          [NVT "members" (NvtList [NVT "name" (NvtText "Bob") "string"]) "Person[]"].
Proof.
  apply (formatData_array_keeps_last plainPrinter groupData "Group" groupMessage
           (mkType "members" "Person[]")
           [VMap [("name", VString "Ann")]] (VMap [("name", VString "Bob")])
           _ [mkType "name" "string"]).
  - vm_compute. now left.
  - vm_compute. reflexivity.
  - vm_compute. reflexivity.
  - reflexivity.
  - vm_compute. reflexivity.
Defined.

(** X25: a value the primitive encoder can hash can also be shown: when
    [EncodePrimitiveValue] succeeds, so does [formatPrimitiveValue] for
    the same spelling and value. *)
Theorem encodable_is_formattable printer encType encValue depth word :
  EncodePrimitiveValue encType encValue depth = Ok word ->
  exists text, formatPrimitiveValue printer encType encValue = Ok text.
Proof.
  unfold EncodePrimitiveValue, formatPrimitiveValue.
  destruct (String.eqb encType "address"); [destruct encValue; try easy; eauto|].
  destruct (String.eqb encType "bool"); [destruct encValue; try easy; eauto|].
  destruct (String.eqb encType "string"); [rewrite orb_true_r; eauto|].
  destruct (String.eqb encType "bytes"); [eauto|]. cbn [orb].
  destruct (GoStrings.HasPrefix encType "bytes"); [eauto|].
  rewrite (orb_comm (GoStrings.HasPrefix encType "uint")).
  destruct (_ || _); [|easy].
  destruct (parseInteger encType encValue); [eauto | easy].
Qed.

Lemma encodable_is_formattable_witness :
  exists text,
    formatPrimitiveValue plainPrinter "uint8" (VHexOrDecimal256 (Some 255)) = Ok text.
Proof.
  apply (encodable_is_formattable plainPrinter "uint8" (VHexOrDecimal256 (Some 255)) 1
           (repeat x00 31 ++ [xff])%list).
  vm_compute. reflexivity.
Defined.

(** X26: [Format] does not validate the document.  When the dictionary
    declares neither [EIP712Domain] nor the primary type, it returns the
    two top-level entries with empty lists, whatever the domain and the
    message hold. *)
Theorem Format_undeclared printer typedData :
  Types_get (types typedData) "EIP712Domain" = None ->
  Types_get (types typedData) (PrimaryType typedData) = None ->
  Format printer typedData
  = Ok [ NVT "EIP712Domain" (NvtList []) "domain";
         NVT (PrimaryType typedData) (NvtList []) "primary type" ].
Proof.
  intros Hdomain Hprimary. unfold Format.
  assert (Hempty : forall pt data,
             Types_get (types typedData) pt = None ->
             formatData printer typedData pt data = Ok []).
  { intros pt data Hget.
    pose proof (formatData_unfold printer typedData pt data) as Heq.
    rewrite Hget in Heq. cbn in Heq. congruence. }
  now rewrite !Hempty.
Qed.

Lemma Format_undeclared_witness :
  Format plainPrinter (mkTypedData ∅ "Mail" (TypedDataDomain.mk "" "" None "" "") [])
  = Ok [ NVT "EIP712Domain" (NvtList []) "domain";
         NVT "Mail" (NvtList []) "primary type" ].
Proof.
  apply (Format_undeclared plainPrinter
           (mkTypedData ∅ "Mail" (TypedDataDomain.mk "" "" None "" "") []));
    reflexivity.
Defined.
